(** * OpenFGA UI: the DSL parser, the model serializers and the live validator

    A shallow embedding of
    - [utils/dsl-parser.ts]: [parseDSL], [convertToJSON], [parseTypeReference],
      [parseRelationDefinition], [splitByOperator], [parseConditionParams],
      [modelToDSLForEdit], [buildRelationDefinition], [formatTypeRef],
      [formatConditionParams];
    - [components/ModelViewer.tsx]: the [dslErrors] validator, [modelToDSL]
      and [usersetToString];
    - [types/openfga.ts]: the authorization-model document and the tuples;
    - [utils/ulid.ts]: [extractTimestampFromULID], [formatDateTime] and
      [formatRelativeTime];
    - [components/RelationshipTree.tsx]: the types, the relations, the nodes
      and the edges of the graph of the tuples;
    - [components/TupleManager.tsx]: the filter of the table of tuples;
    - [store/saved-queries-store.ts]: the actions on the saved queries;
    - [components/QueryPanel.tsx]: the value of a field ([parseValue]) and the
      reordering of the saved queries ([handleDrop]).

    A JavaScript string is a sequence of code units; here it is a list of
    [ascii], so the development covers the texts whose code units are below
    256, a code unit being the character of the same number.  *)

From Stdlib Require Import Ascii String.
From Stdlib Require Import List Bool Arith NArith ZArith Lia.
From Stdlib Require Import DecimalString Sorted Permutation.
Import ListNotations.

Set Warnings "-register-all,-uniform-inheritance".

Definition str := list ascii.

Coercion list_ascii_of_string : string >-> list.

Open Scope string_scope.
Open Scope nat_scope.
Open Scope list_scope.

(** ** Characters *)

Module Char.

Definition code (c : ascii) : nat := nat_of_ascii c.

Definition eqb (a b : ascii) : bool := Ascii.eqb a b.

(** The characters that [String.prototype.trim] strips and that [\s]
    matches: TAB, LF, VT, FF, CR, SPACE and NBSP (the others are above 255). *)
Definition is_space (c : ascii) : bool :=
  let n := code c in
  (n =? 9) || (n =? 10) || (n =? 11) || (n =? 12) || (n =? 13)
  || (n =? 32) || (n =? 160).

Definition is_digit (c : ascii) : bool :=
  let n := code c in (48 <=? n) && (n <=? 57).

Definition is_upper (c : ascii) : bool :=
  let n := code c in (65 <=? n) && (n <=? 90).

Definition is_lower (c : ascii) : bool :=
  let n := code c in (97 <=? n) && (n <=? 122).

Definition is_alpha (c : ascii) : bool := is_upper c || is_lower c.

(** [\w] is [[A-Za-z0-9_]]. *)
Definition is_word (c : ascii) : bool :=
  is_alpha c || is_digit c || (code c =? 95).

(** [[a-zA-Z_]]. *)
Definition is_ident_start (c : ascii) : bool :=
  is_alpha c || (code c =? 95).

(** [.] matches every character but the line terminators LF and CR. *)
Definition is_dot (c : ascii) : bool :=
  let n := code c in negb ((n =? 10) || (n =? 13)).

End Char.

(** ** The string operations of JavaScript that the code uses *)

Module JS.

Definition push {A : Type} (l : list A) (x : A) : list A := l ++ [x].

Definition eqb (a b : str) : bool :=
  if list_eq_dec ascii_dec a b then true else false.

Fixpoint dropWhile (p : ascii -> bool) (s : str) : str :=
  match s with
  | [] => []
  | c :: r => if p c then dropWhile p r else s
  end.

Fixpoint takeWhile (p : ascii -> bool) (s : str) : str :=
  match s with
  | [] => []
  | c :: r => if p c then c :: takeWhile p r else []
  end.

Definition trimStart (s : str) : str := dropWhile Char.is_space s.

Definition trimEnd (s : str) : str := rev (dropWhile Char.is_space (rev s)).

(** [s.trim()] *)
Definition trim (s : str) : str := trimEnd (trimStart s).

(** [s.startsWith(p)] *)
Fixpoint startsWith (p s : str) : bool :=
  match p, s with
  | [], _ => true
  | _ :: _, [] => false
  | a :: p', b :: s' => Char.eqb a b && startsWith p' s'
  end.

(** [s.endsWith(p)] *)
Definition endsWith (p s : str) : bool := startsWith (rev p) (rev s).

(** [s.includes(p)] *)
Fixpoint includes (p s : str) : bool :=
  startsWith p s ||
  match s with
  | [] => false
  | _ :: r => includes p r
  end.

(** [s.split(sep)] for a non-empty separator: the pieces between the
    occurrences of [sep] found from left to right, an occurrence starting
    where the previous one ended at the earliest.  [skip] counts the
    characters of a found separator that are still to be passed, [cur] is the
    piece being read. *)
Fixpoint split_go (sep : str) (skip : nat) (cur : str) (s : str) : list str :=
  match s with
  | [] => [cur]
  | c :: r =>
      match skip with
      | S k => split_go sep k cur r
      | O =>
          if startsWith sep s
          then cur :: split_go sep (length sep - 1) [] r
          else split_go sep 0 (cur ++ [c]) r
      end
  end.

Definition split (sep : str) (s : str) : list str := split_go sep 0 [] s.

(** [l.join(sep)] *)
Fixpoint join (sep : str) (l : list str) : str :=
  match l with
  | [] => []
  | [x] => x
  | x :: r => x ++ sep ++ join sep r
  end.

(** The text of one line feed. *)
Definition newline : str := ["010"%char].

(** [s.slice(0, -n)] *)
Definition slice_to_end_minus (n : nat) (s : str) : str :=
  firstn (length s - n) s.

(** [s.slice(n)] *)
Definition slice_from (n : nat) (s : str) : str := skipn n s.

(** [s.substring(0, n)] *)
Definition substring_to (n : nat) (s : str) : str := firstn n s.

(** [s.replace(p, '')] with a string pattern: the first occurrence of [p] is
    removed. *)
Fixpoint remove_first (p : str) (s : str) : str :=
  if startsWith p s then skipn (length p) s
  else match s with
       | [] => []
       | c :: r => c :: remove_first p r
       end.

End JS.

(** ** The regular expressions of the code

    Each pattern is anchored or searched as in the source and is written as the
    function that the backtracking matcher computes.  The quantified classes
    of a pattern are followed by a character outside the class, so the greedy
    choice is the only one that can succeed; the one place where giving back
    characters matters, the end of [defineMatch], is written out. *)

Module Re.

Notation "x <- e ;; k" :=
  (match e with Some x => k | None => None end)
  (at level 61, e at next level, right associativity).
Notation "' p <- e ;; k" :=
  (match e with Some p => k | None => None end)
  (at level 61, p pattern, e at next level, right associativity).

(** A literal prefix. *)
Definition lit (p s : str) : option str :=
  if JS.startsWith p s then Some (skipn (length p) s) else None.

(** [c+], greedy: the characters matched and the rest. *)
Definition plus (p : ascii -> bool) (s : str) : option (str * str) :=
  match JS.takeWhile p s with
  | [] => None
  | m => Some (m, JS.dropWhile p s)
  end.

(** [c*], greedy: the rest. *)
Definition star (p : ascii -> bool) (s : str) : str := JS.dropWhile p s.

(** [$]. *)
Definition eos {A : Type} (s : str) (a : A) : option A :=
  match s with [] => Some a | _ :: _ => None end.

Definition not_rbracket (c : ascii) : bool := negb (Char.eqb c "]").
Definition not_rparen (c : ascii) : bool := negb (Char.eqb c ")").

(** "/^schema\s+(\d+\.\d+)$/", group 1. *)
Definition schemaMatch (s : str) : option str :=
  r <- lit "schema" s ;;
  '(_, r) <- plus Char.is_space r ;;
  '(a, r) <- plus Char.is_digit r ;;
  r <- lit "." r ;;
  '(b, r) <- plus Char.is_digit r ;;
  eos r (a ++ "." ++ b).

(** "/^type\s+(\w+)$/", group 1. *)
Definition typeMatch (s : str) : option str :=
  r <- lit "type" s ;;
  '(_, r) <- plus Char.is_space r ;;
  '(name, r) <- plus Char.is_word r ;;
  eos r name.

(** "/^define\s+(\w+)\s*:\s*(.+)$/", groups 1 and 2.  After the colon [\s*]
    takes the whole run of white space; if the text ends there, it gives back
    its last character to [(.+)]. *)
Definition defineMatch (s : str) : option (str * str) :=
  r <- lit "define" s ;;
  '(_, r) <- plus Char.is_space r ;;
  '(name, r) <- plus Char.is_word r ;;
  r <- lit ":" (star Char.is_space r) ;;
  match star Char.is_space r with
  | [] =>
      match rev (JS.takeWhile Char.is_space r) with
      | c :: _ => if Char.is_dot c then Some (name, [c]) else None
      | [] => None
      end
  | rest => if forallb Char.is_dot rest then Some (name, rest) else None
  end.

(** "/\[([^\]]+)\]/" searched from the left, group 1. *)
Fixpoint bracketSearch (s : str) : option str :=
  match s with
  | [] => None
  | c :: r =>
      if Char.eqb c "["
      then match JS.takeWhile not_rbracket r, JS.dropWhile not_rbracket r with
           | (_ :: _) as body, _ :: _ => Some body
           | _, _ => bracketSearch r
           end
      else bracketSearch r
  end.

(** "/^\[([^\]]+)\]/" followed by a second group, any characters but line
    terminators, zero or more and up to the end; groups 1 and 2. *)
Definition bracketHead (s : str) : option (str * str) :=
  r <- lit "[" s ;;
  '(body, r) <- plus not_rbracket r ;;
  r <- lit "]" r ;;
  if forallb Char.is_dot r then Some (body, r) else None.

(** "/^condition\s+(\w+)\s*\(/", then the second group, zero or more
    characters other than a closing parenthesis, then "/\)\s*\{?\s*$/";
    groups 1 and 2. *)
Definition conditionMatch (s : str) : option (str * str) :=
  r <- lit "condition" s ;;
  '(_, r) <- plus Char.is_space r ;;
  '(name, r) <- plus Char.is_word r ;;
  r <- lit "(" (star Char.is_space r) ;;
  let params := JS.takeWhile not_rparen r in
  r <- lit ")" (JS.dropWhile not_rparen r) ;;
  let r := star Char.is_space r in
  let r := match lit "{" r with Some r' => r' | None => r end in
  eos (star Char.is_space r) (name, params).

(** "/^(\w+)#(\w+)$/", groups 1 and 2. *)
Definition hashMatch (s : str) : option (str * str) :=
  '(a, r) <- plus Char.is_word s ;;
  r <- lit "#" r ;;
  '(b, r) <- plus Char.is_word r ;;
  eos r (a, b).

(** "/^(\w+)\s+with\s+(\w+)$/", groups 1 and 2. *)
Definition condMatch (s : str) : option (str * str) :=
  '(a, r) <- plus Char.is_word s ;;
  '(_, r) <- plus Char.is_space r ;;
  r <- lit "with" r ;;
  '(_, r) <- plus Char.is_space r ;;
  '(b, r) <- plus Char.is_word r ;;
  eos r (a, b).

(** "/^(\w+)\s*:\s*(\w+)$/", groups 1 and 2. *)
Definition paramMatch (s : str) : option (str * str) :=
  '(a, r) <- plus Char.is_word s ;;
  r <- lit ":" (star Char.is_space r) ;;
  '(b, r) <- plus Char.is_word (star Char.is_space r) ;;
  eos r (a, b).

(** "/^\w+$/" as a test *)
Definition wordTest (s : str) : bool :=
  match s with
  | [] => false
  | _ :: _ => forallb Char.is_word s
  end.

(** "/^[a-zA-Z_][a-zA-Z0-9_]*$/" as a test *)
Definition identTest (s : str) : bool :=
  match s with
  | [] => false
  | c :: r => Char.is_ident_start c && forallb Char.is_word r
  end.

End Re.

(** ** Objects used as maps ([Record<string, A>])

    The own properties of an object, in the order in which [Object.entries]
    and [Object.keys] list them: the array-index keys in ascending numeric
    order, then the other keys in the order of their creation. *)

Module Obj.

Definition t (A : Type) : Type := list (str * A).

Definition empty {A : Type} : t A := [].

Definition digit_value (c : ascii) : N := N.of_nat (Char.code c - 48).

Definition decimal (k : str) : N :=
  fold_left (fun acc c => (10 * acc + digit_value c)%N) k 0%N.

(** A canonical numeric string below 2^32 - 1. *)
Definition is_array_index (k : str) : bool :=
  match k with
  | [] => false
  | c :: r =>
      forallb Char.is_digit k
      && (negb (Char.eqb c "0") || match r with [] => true | _ => false end)
      && (length k <=? 10)
      && (decimal k <=? 4294967294)%N
  end.

Fixpoint has {A : Type} (k : str) (o : t A) : bool :=
  match o with
  | [] => false
  | (k', _) :: r => JS.eqb k k' || has k r
  end.

(** [o[k]] for an own property. *)
Fixpoint get {A : Type} (k : str) (o : t A) : option A :=
  match o with
  | [] => None
  | (k', v) :: r => if JS.eqb k k' then Some v else get k r
  end.

Fixpoint replace {A : Type} (k : str) (v : A) (o : t A) : t A :=
  match o with
  | [] => []
  | (k', v') :: r =>
      if JS.eqb k k' then (k', v) :: r else (k', v') :: replace k v r
  end.

(** The place of a new array-index key: before the first key that is not an
    array index or is a greater one. *)
Fixpoint insert_index {A : Type} (k : str) (v : A) (o : t A) : t A :=
  match o with
  | [] => [(k, v)]
  | (k', v') :: r =>
      if is_array_index k' && (decimal k' <? decimal k)%N
      then (k', v') :: insert_index k v r
      else (k, v) :: o
  end.

(** [o[k] = v] with [v] an object.  The key [__proto__] reaches the setter
    of [Object.prototype], which creates no own property. *)
Definition set {A : Type} (k : str) (v : A) (o : t A) : t A :=
  if JS.eqb k "__proto__" then o
  else if has k o then replace k v o
  else if is_array_index k then insert_index k v o
  else o ++ [(k, v)].

Definition keys {A : Type} (o : t A) : list str := map fst o.

Definition entries {A : Type} (o : t A) : list (str * A) := o.

End Obj.

(** ** The authorization model ([types/openfga.ts]) *)

Record RelationReference := mkRelationReference {
  ref_type : str;
  ref_relation : option str;
  ref_wildcard : option unit;
  ref_condition : option str }.

Record RelationMetadata := mkRelationMetadata {
  directly_related_user_types : option (list RelationReference) }.

Record Metadata := mkMetadata {
  md_relations : option (Obj.t RelationMetadata) }.

Record ObjectRelation := mkObjectRelation {
  object : option str;
  relation : option str }.

Record TupleToUserset := mkTupleToUserset {
  tupleset : option ObjectRelation;
  ttu_computedUserset : option ObjectRelation }.

Record Usersets (U : Type) := mkUsersets {
  child : option (list U) }.

Record Difference (U : Type) := mkDifference {
  base : option U;
  subtract : option U }.

Arguments mkUsersets {U}.
Arguments child {U}.
Arguments mkDifference {U}.
Arguments base {U}.
Arguments subtract {U}.

(** An object with six optional fields; nothing forces exactly one of them
    to be present. *)
Inductive Userset := mkUserset {
  this : option unit;
  computedUserset : option ObjectRelation;
  tupleToUserset : option TupleToUserset;
  union : option (Usersets Userset);
  intersection : option (Usersets Userset);
  difference : option (Difference Userset) }.

(** [generic_types] is neither written nor read by the code below. *)
Record ConditionParamTypeRef := mkConditionParamTypeRef {
  type_name : str }.

Record Condition := mkCondition {
  cond_name : str;
  cond_expression : str;
  cond_parameters : option (Obj.t ConditionParamTypeRef) }.

Record TypeDefinition := mkTypeDefinition {
  td_type : str;
  td_relations : option (Obj.t Userset);
  td_metadata : option Metadata }.

(** [Omit<AuthorizationModel, 'id'>] *)
Record AuthorizationModel := mkAuthorizationModel {
  schema_version : str;
  type_definitions : list TypeDefinition;
  conditions : option (Obj.t Condition) }.

(** The object literals of the parser. *)
Definition no_userset : Userset := mkUserset None None None None None None.

Definition userset_this : Userset :=
  mkUserset (Some tt) None None None None None.

Definition userset_computed (r : str) : Userset :=
  mkUserset None (Some (mkObjectRelation None (Some r))) None None None None.

Definition userset_ttu (ts cu : str) : Userset :=
  mkUserset None None
    (Some (mkTupleToUserset (Some (mkObjectRelation None (Some ts)))
                            (Some (mkObjectRelation None (Some cu)))))
    None None None.

Definition userset_union (l : list Userset) : Userset :=
  mkUserset None None None (Some (mkUsersets (Some l))) None None.

Definition userset_intersection (l : list Userset) : Userset :=
  mkUserset None None None None (Some (mkUsersets (Some l))) None.

Definition userset_difference (b s : Userset) : Userset :=
  mkUserset None None None None None (Some (mkDifference (Some b) (Some s))).

(** ** Outcomes

    A call returns, throws a [TypeError] (a method called on [undefined]), or
    has not returned within the recursion depth it was given. *)

Inductive outcome (A : Type) : Type :=
| Returns (a : A)
| Throws
| OutOfFuel.

Arguments Returns {A} a.
Arguments Throws {A}.
Arguments OutOfFuel {A}.

Definition bind {A B : Type} (x : outcome A) (k : A -> outcome B) : outcome B :=
  match x with
  | Returns a => k a
  | Throws => Throws
  | OutOfFuel => OutOfFuel
  end.

Notation "x <-- e ;; k" := (bind e (fun x => k))
  (at level 61, e at next level, right associativity).

(** [l.map(f)], the calls made from left to right. *)
Fixpoint mapO {A B : Type} (f : A -> outcome B) (l : list A)
  : outcome (list B) :=
  match l with
  | [] => Returns []
  | x :: r => y <-- f x ;; ys <-- mapO f r ;; Returns (y :: ys)
  end.

(** [parts[i]] passed to a function that calls a method on it. *)
Definition at_index (parts : list str) (i : nat) : outcome str :=
  match nth_error parts i with
  | Some p => Returns p
  | None => Throws
  end.

(** ** The parser ([utils/dsl-parser.ts]) *)

Record ParsedRelation := mkParsedRelation {
  rel_name : str;
  rel_definition : str;
  rel_directTypes : list str }.

Record ParsedType := mkParsedType {
  pt_name : str;
  pt_relations : list ParsedRelation }.

Record ParsedCondition := mkParsedCondition {
  pc_name : str;
  pc_params : str;
  pc_expression : str }.

Record ParseResult := mkParseResult {
  schemaVersion : str;
  types : list ParsedType;
  res_conditions : list ParsedCondition }.

Definition parseTypeReference (typeStr : str) : RelationReference :=
  let trimmed := JS.trim typeStr in
  if JS.endsWith ":*" trimmed
  then mkRelationReference (JS.slice_to_end_minus 2 trimmed) None (Some tt) None
  else
    match Re.hashMatch trimmed with
    | Some (t, r) => mkRelationReference t (Some r) None None
    | None =>
        match Re.condMatch trimmed with
        | Some (t, c) => mkRelationReference t None None (Some c)
        | None => mkRelationReference trimmed None None None
        end
    end.

(** The loop of [splitByOperator]: [skip] counts the characters of an
    operator just found that [i += operator.length] steps over. *)
Fixpoint splitByOperator_loop (operator : str) (skip : nat) (bracketDepth : Z)
    (current : str) (parts : list str) (s : str) : list str :=
  match s with
  | [] =>
      match JS.trim current with
      | [] => parts
      | _ :: _ => JS.push parts (JS.trim current)
      end
  | c :: r =>
      match skip with
      | S k => splitByOperator_loop operator k bracketDepth current parts r
      | O =>
          if Char.eqb c "["
          then splitByOperator_loop operator 0 (bracketDepth + 1)
                 (current ++ [c]) parts r
          else if Char.eqb c "]"
          then splitByOperator_loop operator 0 (bracketDepth - 1)
                 (current ++ [c]) parts r
          else if (bracketDepth =? 0)%Z && JS.startsWith operator s
          then splitByOperator_loop operator (length operator - 1) bracketDepth
                 [] (JS.push parts (JS.trim current)) r
          else splitByOperator_loop operator 0 bracketDepth
                 (current ++ [c]) parts r
      end
  end.

Definition splitByOperator (s operator : str) : list str :=
  splitByOperator_loop operator 0 0%Z [] [] s.

Fixpoint parseRelationDefinition (fuel : nat) (definition : str)
  : outcome Userset :=
  match fuel with
  | O => OutOfFuel
  | S fuel =>
      let trimmed := JS.trim definition in
      if JS.startsWith "[" trimmed && JS.endsWith "]" trimmed
      then Returns userset_this
      else if JS.includes " or " trimmed
      then
        let parts := splitByOperator trimmed " or " in
        l <-- mapO (parseRelationDefinition fuel) parts ;;
        Returns (userset_union l)
      else if JS.includes " and " trimmed
      then
        let parts := splitByOperator trimmed " and " in
        l <-- mapO (parseRelationDefinition fuel) parts ;;
        Returns (userset_intersection l)
      else if JS.includes " but not " trimmed
      then
        let parts := JS.split " but not " trimmed in
        p0 <-- at_index parts 0 ;;
        b <-- parseRelationDefinition fuel p0 ;;
        p1 <-- at_index parts 1 ;;
        s <-- parseRelationDefinition fuel p1 ;;
        Returns (userset_difference b s)
      else if JS.includes "->" trimmed
      then
        let parts := JS.split "->" trimmed in
        p0 <-- at_index parts 0 ;;
        p1 <-- at_index parts 1 ;;
        Returns (userset_ttu (JS.trim p0) (JS.trim p1))
      else if Re.wordTest trimmed
      then Returns (userset_computed trimmed)
      else
        match Re.bracketHead trimmed with
        | Some (_, rest0) =>
            let rest := JS.trim rest0 in
            match rest with
            | [] => Returns userset_this
            | _ :: _ =>
                if JS.startsWith "or " rest
                then
                  let otherPart := JS.trim (JS.slice_from 3 rest) in
                  o <-- parseRelationDefinition fuel otherPart ;;
                  Returns (userset_union [userset_this; o])
                else Returns userset_this
            end
        | None => Returns userset_this
        end
  end.

Definition parseConditionParams (params : str)
  : option (Obj.t ConditionParamTypeRef) :=
  match JS.trim params with
  | [] => None
  | _ :: _ =>
      let pairs := JS.split "," params in
      let result :=
        fold_left
          (fun result pair =>
             match Re.paramMatch (JS.trim pair) with
             | Some (n, ty) => Obj.set n (mkConditionParamTypeRef ty) result
             | None => result
             end)
          pairs Obj.empty in
      if 0 <? length (Obj.keys result) then Some result else None
  end.

(** The relations of one parsed type: the loop
    [for (const rel of type.relations)] over the two objects. *)
Fixpoint convertRelations (fuel : nat) (rels : list ParsedRelation)
    (relations : Obj.t Userset) (metadata : Obj.t RelationMetadata)
  : outcome (Obj.t Userset * Obj.t RelationMetadata) :=
  match rels with
  | [] => Returns (relations, metadata)
  | rel :: rest =>
      u <-- parseRelationDefinition fuel (rel_definition rel) ;;
      let relations := Obj.set (rel_name rel) u relations in
      let metadata :=
        if 0 <? length (rel_directTypes rel)
        then Obj.set (rel_name rel)
               (mkRelationMetadata
                  (Some (map parseTypeReference (rel_directTypes rel))))
               metadata
        else metadata in
      convertRelations fuel rest relations metadata
  end.

Definition convertType (fuel : nat) (ty : ParsedType)
  : outcome TypeDefinition :=
  if 0 <? length (pt_relations ty)
  then
    rm <-- convertRelations fuel (pt_relations ty) Obj.empty Obj.empty ;;
    Returns (mkTypeDefinition (pt_name ty) (Some (fst rm))
               (Some (mkMetadata (Some (snd rm)))))
  else Returns (mkTypeDefinition (pt_name ty) None None).

Definition convertConditions (conds : list ParsedCondition) : Obj.t Condition :=
  fold_left
    (fun acc cond =>
       Obj.set (pc_name cond)
         (mkCondition (pc_name cond) (pc_expression cond)
            (parseConditionParams (pc_params cond)))
         acc)
    conds Obj.empty.

Definition convertToJSON (fuel : nat) (parsed : ParseResult)
  : outcome AuthorizationModel :=
  typeDefinitions <-- mapO (convertType fuel) (types parsed) ;;
  Returns (mkAuthorizationModel (schemaVersion parsed) typeDefinitions
             (if 0 <? length (res_conditions parsed)
              then Some (convertConditions (res_conditions parsed))
              else None)).

(** The variables of the loop of [parseDSL]. *)
Record ParseState := mkParseState {
  result : ParseResult;
  currentType : option ParsedType;
  inRelations : bool;
  inCondition : bool;
  currentCondition : option ParsedCondition;
  conditionBody : list str }.

Definition initialState : ParseState :=
  mkParseState (mkParseResult "1.1" [] []) None false false None [].

Definition flushType (res : ParseResult) (cur : option ParsedType)
  : ParseResult :=
  match cur with
  | Some ty => mkParseResult (schemaVersion res) (JS.push (types res) ty)
                 (res_conditions res)
  | None => res
  end.

Definition directTypesOf (definition : str) : list str :=
  match Re.bracketSearch definition with
  | Some inner => map JS.trim (JS.split "," inner)
  | None => []
  end.

(** One iteration of the loop of [parseDSL]. *)
Definition parseLine (st : ParseState) (line : str) : ParseState :=
  let trimmed := JS.trim line in
  match trimmed with
  | [] => st
  | _ :: _ =>
  if JS.startsWith "#" trimmed || JS.startsWith "//" trimmed then st
  else if JS.eqb trimmed "model" then st
  else
  match Re.schemaMatch trimmed with
  | Some v =>
      mkParseState
        (mkParseResult v (types (result st)) (res_conditions (result st)))
        (currentType st) (inRelations st) (inCondition st)
        (currentCondition st) (conditionBody st)
  | None =>
  match Re.typeMatch trimmed with
  | Some name =>
      mkParseState (flushType (result st) (currentType st))
        (Some (mkParsedType name [])) false (inCondition st)
        (currentCondition st) (conditionBody st)
  | None =>
  if JS.eqb trimmed "relations"
  then mkParseState (result st) (currentType st) true (inCondition st)
         (currentCondition st) (conditionBody st)
  else
  match Re.defineMatch trimmed, currentType st, inRelations st with
  | Some (relationName, d), Some ty, true =>
      let definition := JS.trim d in
      let directTypes := directTypesOf definition in
      mkParseState (result st)
        (Some (mkParsedType (pt_name ty)
                 (JS.push (pt_relations ty)
                    (mkParsedRelation relationName definition directTypes))))
        (inRelations st) (inCondition st) (currentCondition st)
        (conditionBody st)
  | _, _, _ =>
  match Re.conditionMatch trimmed with
  | Some (name, params) =>
      mkParseState (flushType (result st) (currentType st)) None
        (inRelations st) true (Some (mkParsedCondition name params [])) []
  | None =>
  match inCondition st, currentCondition st with
  | true, Some cond =>
      if JS.eqb trimmed "}"
      then
        mkParseState
          (mkParseResult (schemaVersion (result st)) (types (result st))
             (JS.push (res_conditions (result st))
                (mkParsedCondition (pc_name cond) (pc_params cond)
                   (JS.trim (JS.join JS.newline (conditionBody st))))))
          (currentType st) (inRelations st) false None []
      else
        mkParseState (result st) (currentType st) (inRelations st)
          (inCondition st) (currentCondition st)
          (JS.push (conditionBody st) trimmed)
  | _, _ => st
  end end end end end end.

Definition parseLines (lines : list str) : ParseResult :=
  let st := fold_left parseLine lines initialState in
  flushType (result st) (currentType st).

Definition parseDSL (fuel : nat) (dsl : str) : outcome AuthorizationModel :=
  convertToJSON fuel (parseLines (JS.split JS.newline dsl)).

(** ** The serializers *)

(** [s || d] on strings. *)
Definition or_else (s d : str) : str :=
  match s with
  | [] => d
  | _ :: _ => s
  end.

(** [o?.relation || ''] *)
Definition relation_or_empty (o : option ObjectRelation) : str :=
  match o with
  | Some r => match relation r with Some s => s | None => [] end
  | None => []
  end.

Definition truthy (o : option str) : option str :=
  match o with
  | Some ((_ :: _) as s) => Some s
  | _ => None
  end.

Definition formatTypeRef (ref : RelationReference) : str :=
  match ref_wildcard ref with
  | Some _ => ref_type ref ++ ":*"
  | None =>
      match truthy (ref_relation ref) with
      | Some r => ref_type ref ++ "#" ++ r
      | None =>
          match truthy (ref_condition ref) with
          | Some c => ref_type ref ++ " with " ++ c
          | None => ref_type ref
          end
      end
  end.

Definition formatConditionParams (params : option (Obj.t ConditionParamTypeRef))
  : str :=
  match params with
  | None => []
  | Some o =>
      JS.join ", "
        (map (fun e => fst e ++ ": " ++ type_name (snd e)) (Obj.entries o))
  end.

Definition typeStrOf (directTypes : list RelationReference) : str :=
  if 0 <? length directTypes
  then "[" ++ JS.join ", " (map formatTypeRef directTypes) ++ "]"
  else [].

(** [userset.union.child || []] *)
Definition children_of (us : Usersets Userset) : list Userset :=
  match child us with
  | Some l => l
  | None => []
  end.

(** Edit-seed mode ([utils/dsl-parser.ts]).  An absent [base] or [subtract]
    is rendered as the empty object is, which is ["[user]"] with no direct
    types (lemma [buildRelationDefinition_empty_object]). *)
Fixpoint buildRelationDefinition (userset : Userset)
    (directTypes : list RelationReference) : str :=
  let typeStr := typeStrOf directTypes in
  match userset with
  | mkUserset (Some _) _ _ _ _ _ => or_else typeStr "[user]"
  | mkUserset None (Some cu) _ _ _ _ => relation_or_empty (Some cu)
  | mkUserset None None (Some ttu) _ _ _ =>
      relation_or_empty (tupleset ttu) ++ "->"
      ++ relation_or_empty (ttu_computedUserset ttu)
  | mkUserset None None None (Some us) _ _ =>
      let parts :=
        match child us with
        | Some (c :: rest) =>
            (match this c, typeStr with
             | Some _, _ :: _ => typeStr
             | _, _ => buildRelationDefinition c []
             end)
            :: map (fun c => buildRelationDefinition c []) rest
        | _ => []
        end in
      JS.join " or " parts
  | mkUserset None None None None (Some us) _ =>
      let parts :=
        match child us with
        | Some l => map (fun c => buildRelationDefinition c []) l
        | None => []
        end in
      JS.join " and " parts
  | mkUserset None None None None None (Some d) =>
      let b :=
        match base d with
        | Some u => buildRelationDefinition u []
        | None => "[user]"
        end in
      let s :=
        match subtract d with
        | Some u => buildRelationDefinition u []
        | None => "[user]"
        end in
      b ++ " but not " ++ s
  | mkUserset None None None None None None => or_else typeStr "[user]"
  end.

(** [typeDef.metadata?.relations?.[relationName]?.directly_related_user_types
    || []] *)
Definition directTypesFor (typeDef : TypeDefinition) (relationName : str)
  : list RelationReference :=
  match td_metadata typeDef with
  | Some md =>
      match md_relations md with
      | Some rels =>
          match Obj.get relationName rels with
          | Some rm =>
              match directly_related_user_types rm with
              | Some l => l
              | None => []
              end
          | None => []
          end
      | None => []
      end
  | None => []
  end.

Definition typeLinesForEdit (typeDef : TypeDefinition) : list str :=
  ("type " ++ td_type typeDef)
  :: (match td_relations typeDef with
      | Some rels =>
          if 0 <? length (Obj.keys rels)
          then ("  relations" : str)
               :: map (fun e =>
                         "    define " ++ fst e ++ ": "
                         ++ buildRelationDefinition (snd e)
                              (directTypesFor typeDef (fst e)))
                    (Obj.entries rels)
          else []
      | None => []
      end)
  ++ [[]].

Definition conditionLines (e : str * Condition) : list str :=
  [ "condition " ++ fst e ++ "("
      ++ formatConditionParams (cond_parameters (snd e)) ++ ") {";
    "  " ++ cond_expression (snd e);
    ("}" : str);
    [] ].

Definition linesForEdit (model : AuthorizationModel) : list str :=
  [("model" : str); "  schema " ++ schema_version model; []]
  ++ flat_map typeLinesForEdit (type_definitions model)
  ++ match conditions model with
     | Some conds => flat_map conditionLines (Obj.entries conds)
     | None => []
     end.

Definition modelToDSLForEdit (model : AuthorizationModel) : str :=
  JS.join JS.newline (linesForEdit model).

(** Read-only display mode ([components/ModelViewer.tsx]); the two unused
    parameters are left out.  An absent [base] or [subtract] is rendered as
    the empty object is, ["[unknown]"]. *)
Fixpoint usersetToString (userset : Userset) : str :=
  match userset with
  | mkUserset (Some _) _ _ _ _ _ => "[direct]"
  | mkUserset None (Some cu) _ _ _ _ => relation_or_empty (Some cu)
  | mkUserset None None (Some ttu) _ _ _ =>
      relation_or_empty (tupleset ttu) ++ "->"
      ++ relation_or_empty (ttu_computedUserset ttu)
  | mkUserset None None None (Some us) _ _ =>
      JS.join " or "
        (match child us with
         | Some l => map usersetToString l
         | None => []
         end)
  | mkUserset None None None None (Some us) _ =>
      JS.join " and "
        (match child us with
         | Some l => map usersetToString l
         | None => []
         end)
  | mkUserset None None None None None (Some d) =>
      (match base d with
       | Some u => usersetToString u
       | None => "[unknown]"
       end)
      ++ " but not "
      ++ (match subtract d with
          | Some u => usersetToString u
          | None => "[unknown]"
          end)
  | mkUserset None None None None None None => "[unknown]"
  end.

Definition typeLinesForDisplay (typeDef : TypeDefinition) : list str :=
  ("type " ++ td_type typeDef)
  :: (match td_relations typeDef with
      | Some rels =>
          ("  relations" : str)
          :: map (fun e =>
                    "    define " ++ fst e ++ ": " ++ usersetToString (snd e))
               (Obj.entries rels)
      | None => []
      end)
  ++ [[]].

Definition modelToDSL (model : AuthorizationModel) : str :=
  JS.join JS.newline
    ([("model" : str); "  schema " ++ schema_version model; []]
     ++ flat_map typeLinesForDisplay (type_definitions model)
     ++ match conditions model with
        | Some conds => flat_map conditionLines (Obj.entries conds)
        | None => []
        end).

(** ** The live validator ([dslErrors] in [components/ModelViewer.tsx]) *)

Record Diagnostic := mkDiagnostic {
  line : nat;
  message : str }.

(** The variables of one validation pass. *)
Record ValidatorState := mkValidatorState {
  errors : list Diagnostic;
  hasModel : bool;
  hasSchema : bool;
  v_currentType : option str;
  v_inRelations : bool }.

(** The double quote. *)
Definition dq : str := ["034"%char].
Definition tab : str := ["009"%char].

Definition msg_duplicate_model : str :=
  "Duplicate " ++ dq ++ "model" ++ dq ++ " declaration".
Definition msg_schema_after_model : str :=
  dq ++ "schema" ++ dq ++ " must come after " ++ dq ++ "model" ++ dq.
Definition msg_duplicate_schema : str :=
  "Duplicate " ++ dq ++ "schema" ++ dq ++ " declaration".
Definition msg_invalid_version (version : str) : str :=
  "Invalid schema version " ++ dq ++ version ++ dq
  ++ ". Use " ++ dq ++ "1.1" ++ dq.
Definition msg_type_after_model : str :=
  dq ++ "type" ++ dq ++ " must come after " ++ dq ++ "model" ++ dq
  ++ " declaration".
Definition msg_type_name_required : str := "Type name is required".
Definition msg_invalid_type_name (typeName : str) : str :=
  "Invalid type name " ++ dq ++ typeName ++ dq.
Definition msg_relations_inside_type : str :=
  dq ++ "relations" ++ dq ++ " must be inside a type definition".
Definition msg_define_inside_relations : str :=
  dq ++ "define" ++ dq ++ " must be inside a " ++ dq ++ "relations" ++ dq
  ++ " block".
Definition msg_invalid_define : str :=
  "Invalid define syntax. Expected " ++ dq ++ "define name: expression" ++ dq.
Definition msg_relation_name_required : str := "Relation name is required".
Definition msg_invalid_relation_name (name : str) : str :=
  "Invalid relation name " ++ dq ++ name ++ dq.
Definition msg_unknown (trimmed : str) : str :=
  "Unknown keyword or invalid syntax: " ++ dq
  ++ JS.substring_to 20 trimmed ++ "..." ++ dq.
Definition msg_missing_model : str :=
  "Model must start with " ++ dq ++ "model" ++ dq ++ " declaration".
Definition msg_missing_schema : str :=
  "Missing " ++ dq ++ "schema 1.1" ++ dq ++ " after model declaration".

Definition report (st : ValidatorState) (cond : bool) (lineNum : nat) (m : str)
  : ValidatorState :=
  if cond
  then mkValidatorState (JS.push (errors st) (mkDiagnostic lineNum m))
         (hasModel st) (hasSchema st) (v_currentType st) (v_inRelations st)
  else st.

(** The callback of [lines.forEach]. *)
Definition validateLine (st : ValidatorState) (index : nat) (ln : str)
  : ValidatorState :=
  let trimmed := JS.trim ln in
  let lineNum := index + 1 in
  match trimmed with
  | [] => st
  | _ :: _ =>
  if JS.startsWith "#" trimmed || JS.startsWith "//" trimmed then st
  else if JS.eqb trimmed "model"
  then
    let st := report st (hasModel st) lineNum msg_duplicate_model in
    mkValidatorState (errors st) true (hasSchema st) (v_currentType st)
      (v_inRelations st)
  else if JS.startsWith "schema " trimmed
  then
    let st := report st (negb (hasModel st)) lineNum msg_schema_after_model in
    let st := report st (hasSchema st) lineNum msg_duplicate_schema in
    let version := JS.trim (JS.remove_first "schema " trimmed) in
    let st :=
      report st (negb (JS.eqb version "1.1") && negb (JS.eqb version "1.0"))
        lineNum (msg_invalid_version version) in
    mkValidatorState (errors st) (hasModel st) true (v_currentType st)
      (v_inRelations st)
  else if JS.startsWith "type " trimmed
  then
    let st := report st (negb (hasModel st)) lineNum msg_type_after_model in
    let typeName := JS.trim (JS.remove_first "type " trimmed) in
    let st :=
      match typeName with
      | [] => report st true lineNum msg_type_name_required
      | _ :: _ =>
          report st (negb (Re.identTest typeName)) lineNum
            (msg_invalid_type_name typeName)
      end in
    mkValidatorState (errors st) (hasModel st) (hasSchema st) (Some typeName)
      false
  else if JS.eqb trimmed "relations"
  then
    let st :=
      report st
        (match truthy (v_currentType st) with
         | Some _ => false
         | None => true
         end)
        lineNum msg_relations_inside_type in
    mkValidatorState (errors st) (hasModel st) (hasSchema st)
      (v_currentType st) true
  else if JS.startsWith "define " trimmed
  then
    let st :=
      report st (negb (v_inRelations st)) lineNum msg_define_inside_relations in
    let defineContent := JS.remove_first "define " trimmed in
    if negb (JS.includes ":" defineContent)
    then report st true lineNum msg_invalid_define
    else
      let name := JS.trim (hd [] (JS.split ":" defineContent)) in
      match name with
      | [] => report st true lineNum msg_relation_name_required
      | _ :: _ =>
          report st (negb (Re.identTest name)) lineNum
            (msg_invalid_relation_name name)
      end
  else if JS.startsWith "condition " trimmed
  then mkValidatorState (errors st) (hasModel st) (hasSchema st) None false
  else
    report st (negb (JS.startsWith " " ln) && negb (JS.startsWith tab ln))
      lineNum (msg_unknown trimmed)
  end.

(** [lines.forEach((line, index) => ...)] from the index [index] on. *)
Fixpoint validateLines (st : ValidatorState) (index : nat) (lines : list str)
  : ValidatorState :=
  match lines with
  | [] => st
  | ln :: rest => validateLines (validateLine st index ln) (index + 1) rest
  end.

Definition dslErrors (editContent : str) : list Diagnostic :=
  match JS.trim editContent with
  | [] => []
  | _ :: _ =>
      let st :=
        validateLines (mkValidatorState [] false false None false) 0
          (JS.split JS.newline editContent) in
      let errors :=
        if negb (hasModel st)
        then mkDiagnostic 1 msg_missing_model :: errors st
        else errors st in
      if hasModel st && negb (hasSchema st)
      then JS.push errors (mkDiagnostic 2 msg_missing_schema)
      else errors
  end.

(** * The texts, the models and the classes of the properties *)

(** ** The texts and the models *)

(** Short forms for the models below. *)
Definition plain_ref (t : str) : RelationReference :=
  mkRelationReference t None None None.

Definition sub_ref (t r : str) : RelationReference :=
  mkRelationReference t (Some r) None None.

Definition direct_types (l : list RelationReference) : RelationMetadata :=
  mkRelationMetadata (Some l).

Definition entry {A : Type} (k : str) (v : A) : str * A := (k, v).

(** The template of a new model ([handleNewModel]) and what it parses to. *)
Definition template_text : str :=
  "model" ++ JS.newline ++
  "  schema 1.1" ++ JS.newline ++
  JS.newline ++
  "type user" ++ JS.newline ++
  JS.newline ++
  "type document" ++ JS.newline ++
  "  relations" ++ JS.newline ++
  "    define owner: [user]" ++ JS.newline ++
  "    define viewer: [user] or owner" ++ JS.newline.

Definition template_model : AuthorizationModel :=
  mkAuthorizationModel "1.1"
    [ mkTypeDefinition "user" None None;
      mkTypeDefinition "document"
        (Some [ entry "owner" userset_this;
                entry "viewer"
                  (userset_union [userset_this; userset_computed "owner"]) ])
        (Some (mkMetadata
                 (Some [ entry "owner" (direct_types [plain_ref "user"]);
                         entry "viewer" (direct_types [plain_ref "user"]) ]))) ]
    None.

(** A define line with a bracket list of two references. *)
Definition bracket_union_text : str :=
  "type document" ++ JS.newline ++
  "  relations" ++ JS.newline ++
  "    define viewer: [user, group#member] or owner".

Definition bracket_union_model : AuthorizationModel :=
  mkAuthorizationModel "1.1"
    [ mkTypeDefinition "document"
        (Some [ entry "viewer"
                  (userset_union [userset_this; userset_computed "owner"]) ])
        (Some (mkMetadata
                 (Some [ entry "viewer"
                           (direct_types [ plain_ref "user";
                                           sub_ref "group" "member" ]) ]))) ]
    None.

(** A condition on one line, and on three. *)
Definition condition_one_line : str :=
  "condition valid_time(current: string, expiry: string) { current < expiry }".

Definition condition_block : str :=
  "condition valid_time(current: string, expiry: string) {" ++ JS.newline ++
  "  current < expiry" ++ JS.newline ++
  "}".

Definition valid_time : Condition :=
  mkCondition "valid_time" "current < expiry"
    (Some [ entry "current" (mkConditionParamTypeRef "string");
            entry "expiry" (mkConditionParamTypeRef "string") ]).

Definition valid_time_model : AuthorizationModel :=
  mkAuthorizationModel "1.1" [] (Some [entry "valid_time" valid_time]).

(** A bracket that is not closed. *)
Definition unclosed_bracket : str := "[user or owner".

Definition unclosed_bracket_text : str :=
  "type document" ++ JS.newline ++
  "  relations" ++ JS.newline ++
  "    define viewer: [user or owner".

(** A define line in the body of a condition, and the text without it. *)
Definition captured_define_text : str :=
  "condition c() {" ++ JS.newline ++
  "define x: y" ++ JS.newline ++
  "}".

Definition captured_define_text_without : str :=
  "condition c() {" ++ JS.newline ++
  "}".

(** A model on which the second serialization differs from the first: a
    union of two direct assignments is written [[employee] or [user]], a text
    that starts with an opening bracket and ends with a closing one, which
    the parser reads as one direct assignment. *)
Definition two_brackets_model : AuthorizationModel :=
  mkAuthorizationModel "1.1"
    [ mkTypeDefinition "document"
        (Some [ entry "viewer" (userset_union [userset_this; userset_this]) ])
        (Some (mkMetadata
                 (Some [ entry "viewer"
                           (direct_types [plain_ref "employee"]) ]))) ]
    None.

Definition two_brackets_reparsed : AuthorizationModel :=
  mkAuthorizationModel "1.1"
    [ mkTypeDefinition "document"
        (Some [ entry "viewer" userset_this ])
        (Some (mkMetadata
                 (Some [ entry "viewer"
                           (direct_types [plain_ref "employee"]) ]))) ]
    None.

(** A model of the common cases. *)
Definition simple_model : AuthorizationModel :=
  mkAuthorizationModel "1.1"
    [ mkTypeDefinition "user" None None;
      mkTypeDefinition "group"
        (Some [ entry "member" userset_this ])
        (Some (mkMetadata
                 (Some [ entry "member" (direct_types [plain_ref "user"]) ])));
      mkTypeDefinition "folder"
        (Some [ entry "viewer" userset_this ])
        None;
      mkTypeDefinition "document"
        (Some [ entry "parent" userset_this;
                entry "owner" userset_this;
                entry "editor" (userset_computed "owner");
                entry "commenter"
                  (userset_union [userset_computed "editor";
                                  userset_ttu "parent" "viewer"]);
                entry "viewer"
                  (userset_union [userset_this; userset_computed "editor";
                                  userset_ttu "parent" "viewer"]) ])
        (Some (mkMetadata
                 (Some [ entry "parent" (direct_types [plain_ref "folder"]);
                         entry "viewer"
                           (direct_types
                              [ plain_ref "user";
                                sub_ref "group" "member";
                                mkRelationReference "user" None (Some tt) None;
                                mkRelationReference "user" None None
                                  (Some ("valid_time" : str)) ]) ]))) ]
    (Some [ entry "valid_time" valid_time;
            entry "always" (mkCondition "always" "true" None) ]).

(** ** The state of the loop of the parser *)

(** The line feed; a line has none. *)
Definition LF : ascii := "010"%char.

Definition is_line (x : str) : bool := negb (existsb (Char.eqb LF) x).

(** The loop is capturing the body of a condition. *)
Definition capturing (st : ParseState) : bool :=
  inCondition st
  && match currentCondition st with Some _ => true | None => false end.

(** The loop has no type to add relations to, or is not in its relations
    block. *)
Definition out_of_place (st : ParseState) : bool :=
  match currentType st with
  | None => true
  | Some _ => negb (inRelations st)
  end.

(** ** The models of the common cases *)

Module Simple.

Definition word (w : str) : bool := Re.wordTest w.

(** A relation name: an identifier that creates an own property in creation
    order. *)
Definition name_ok (k : str) : bool :=
  Re.identTest k && negb (JS.eqb k "__proto__").

Fixpoint distinct (l : list str) : bool :=
  match l with
  | [] => true
  | k :: r => negb (existsb (JS.eqb k) r) && distinct r
  end.

(** A reference that [formatTypeRef] writes from words. *)
Definition ref_ok (r : RelationReference) : bool :=
  word (ref_type r)
  && match ref_wildcard r with
     | Some _ => true
     | None =>
         match truthy (ref_relation r) with
         | Some x => word x
         | None =>
             match truthy (ref_condition r) with
             | Some c => word c
             | None => true
             end
         end
     end.

Definition direct (u : Userset) : bool :=
  match this u with Some _ => true | None => false end.

(** A computed reference to a relation named by a word. *)
Definition computed (u : Userset) : bool :=
  match this u, computedUserset u with
  | None, Some cu =>
      match relation cu with
      | Some r => word r
      | None => false
      end
  | _, _ => false
  end.

(** A tuple-to-userset whose two relations are named by words. *)
Definition tuple_to_userset (u : Userset) : bool :=
  match this u, computedUserset u, tupleToUserset u with
  | None, None, Some t =>
      word (relation_or_empty (tupleset t))
      && word (relation_or_empty (ttu_computedUserset t))
  | _, _, _ => false
  end.

(** What stands after the first [ or ] of a union. *)
Definition atom (u : Userset) : bool := computed u || tuple_to_userset u.

Definition operand (u : Userset) : bool := direct u || atom u.

(** A union whose first child is a direct assignment, a computed reference
    or a tuple-to-userset and whose other children are computed references
    or tuple-to-usersets. *)
Definition union_of_operands (u : Userset) : bool :=
  match this u, computedUserset u, tupleToUserset u, union u with
  | None, None, None, Some us =>
      match child us with
      | Some (f :: rest) => operand f && forallb atom rest
      | _ => false
      end
  | _, _, _, _ => false
  end.

Definition relation_ok (u : Userset) : bool :=
  operand u || union_of_operands u.

Definition type_ok (td : TypeDefinition) : bool :=
  word (td_type td)
  && match td_relations td with
     | None => true
     | Some rels =>
         forallb name_ok (Obj.keys rels)
         && distinct (Obj.keys rels)
         && forallb (fun e => relation_ok (snd e)
                              && forallb ref_ok (directTypesFor td (fst e)))
              (Obj.entries rels)
     end.

(** Digits, a dot, digits. *)
Definition version_ok (v : str) : bool :=
  match JS.takeWhile Char.is_digit v, JS.dropWhile Char.is_digit v with
  | _ :: _, dot :: ((_ :: _) as b) =>
      Char.eqb dot "." && forallb Char.is_digit b
  | _, _ => false
  end.

Definition is_none {A : Type} (o : option A) : bool :=
  match o with
  | None => true
  | Some _ => false
  end.

(** The parameters of a condition: distinct names, types named by words. *)
Definition params_ok (p : option (Obj.t ConditionParamTypeRef)) : bool :=
  match p with
  | None => true
  | Some o =>
      forallb name_ok (Obj.keys o)
      && distinct (Obj.keys o)
      && forallb (fun e => word (type_name (snd e))) (Obj.entries o)
  end.

(** An expression of one line, without white space at its ends, that the
    loop of the parser reads as nothing but a line of the body of a
    condition: not as a comment, a [model], [schema], [type], [relations] or
    [condition] line, or the closing brace. *)
Definition body_ok (E : str) : bool :=
  JS.eqb (JS.trim E) E
  && is_line E
  && match E with
     | [] => true
     | _ :: _ =>
         negb (JS.startsWith "#" E || JS.startsWith "//" E)
         && negb (JS.eqb E "model")
         && is_none (Re.schemaMatch E)
         && is_none (Re.typeMatch E)
         && negb (JS.eqb E "relations")
         && is_none (Re.conditionMatch E)
         && negb (JS.eqb E "}")
     end.

Definition condition_ok (c : Condition) : bool :=
  params_ok (cond_parameters c) && body_ok (cond_expression c).

Definition conditions_of (m : AuthorizationModel) : list (str * Condition) :=
  match conditions m with
  | Some conds => Obj.entries conds
  | None => []
  end.

Definition conditions_ok (m : AuthorizationModel) : bool :=
  forallb name_ok (map fst (conditions_of m))
  && distinct (map fst (conditions_of m))
  && forallb (fun e => condition_ok (snd e)) (conditions_of m).

Definition model_ok (m : AuthorizationModel) : bool :=
  version_ok (schema_version m)
  && forallb type_ok (type_definitions m)
  && conditions_ok m.

End Simple.

(** ** Characters, texts and what the parser makes of them *)

(** The 256 characters. *)
Definition all_ascii : list ascii := map ascii_of_nat (seq 0 256).

(** The characters of the text of a reference: a word character, [#], [:],
    [*] or a blank. *)
Definition piece_char (c : ascii) : bool :=
  Char.is_word c || Char.eqb c "#" || Char.eqb c ":" || Char.eqb c "*"
  || Char.eqb c " ".

Definition not_bracket (c : ascii) : bool :=
  negb (Char.eqb c "[") && negb (Char.eqb c "]").

Definition not_comma (c : ascii) : bool := negb (Char.eqb c ",").

Definition body_char (c : ascii) : bool := piece_char c || Char.eqb c ",".

Definition expr_char (c : ascii) : bool :=
  body_char c || Char.eqb c "[" || Char.eqb c "]".

Definition atom_char (c : ascii) : bool :=
  Char.is_word c || Char.eqb c "-" || Char.eqb c ">".

(** The first character of [b] stops the scan. *)
Definition stops (p : ascii -> bool) (b : str) : bool :=
  match b with
  | [] => true
  | c :: _ => negb (p c)
  end.

(** A text whose first and last characters are not white space. *)
Definition tight (s : str) : bool :=
  match s with
  | [] => true
  | a :: _ => negb (Char.is_space a) && negb (Char.is_space (last s a))
  end.

(** The text of a reference or of a parameter. *)
Definition plain_text (w : str) : Prop :=
  w <> [] /\ tight w = true /\ forallb piece_char w = true.

(** The texts of the references of a bracket list, and what stands between
    the brackets. *)
Definition pieces (refs : list RelationReference) : list str :=
  map formatTypeRef refs.

Definition body (refs : list RelationReference) : str :=
  JS.join ", " (pieces refs).

(** A non-empty list of references written from words. *)
Definition refs_ok (refs : list RelationReference) : Prop :=
  forallb Simple.ref_ok refs = true /\ refs <> [].

(** The references a bracket list is written from: the direct types, or
    [user] when there are none. *)
Definition written_refs (refs : list RelationReference)
  : list RelationReference :=
  match refs with
  | [] => [plain_ref "user"]
  | _ :: _ => refs
  end.

(** The text of a computed reference, a word, or of a tuple-to-userset, two
    words around an arrow. *)
Definition atom_text (a : str) : Prop :=
  Re.wordTest a = true
  \/ exists x y,
       Re.wordTest x = true /\ Re.wordTest y = true /\ a = x ++ "->" ++ y.

(** A text that the bracket-aware scan for [ or ] passes, from depth zero to
    depth zero, without finding the operator in it. *)
Definition scans_through (s : str) : Prop :=
  forall rest cur parts,
    splitByOperator_loop " or " 0 0%Z cur parts (s ++ rest)
    = splitByOperator_loop " or " 0 0%Z (cur ++ s) parts rest.

(** What stands before the first [ or ]: the bracket list or an atom. *)
Definition operand_text (F : str) : Prop :=
  (exists L, refs_ok L /\ F = typeStrOf L) \/ atom_text F.

(** What is needed of the text of a relation: it is not empty, has no white
    space at its ends and no line terminator, and the relation and the direct
    types read from it are written as the same text. *)
Definition stable_text (fuel : nat) (E : str) : Prop :=
  E <> [] /\ tight E = true /\ forallb Char.is_dot E = true
  /\ exists u',
       parseRelationDefinition (2 + fuel) E = Returns u'
       /\ buildRelationDefinition u'
            (map parseTypeReference (directTypesOf E)) = E.

(** The text written for a relation of [td]. *)
Definition text_of (td : TypeDefinition) (e : str * Userset) : str :=
  buildRelationDefinition (snd e) (directTypesFor td (fst e)).

(** The define line written for a relation of [td]. *)
Definition define_line (td : TypeDefinition) (e : str * Userset) : str :=
  "    define " ++ fst e ++ ": " ++ text_of td e.

(** What the parser makes of that text. *)
Definition reparse (fuel : nat) (E : str) : Userset :=
  match parseRelationDefinition (2 + fuel) E with
  | Returns u => u
  | _ => no_userset
  end.

(** The direct types that the parser reads from that text. *)
Definition reread (E : str) : list RelationReference :=
  map parseTypeReference (directTypesOf E).

(** What the loop of the parser keeps of a relation and of a type. *)
Definition parsedRel (td : TypeDefinition) (e : str * Userset)
  : ParsedRelation :=
  mkParsedRelation (fst e) (text_of td e) (directTypesOf (text_of td e)).

Definition relations_of (td : TypeDefinition) : list (str * Userset) :=
  match td_relations td with
  | Some rels => rels
  | None => []
  end.

Definition parsedType (td : TypeDefinition) : ParsedType :=
  mkParsedType (td_type td) (map (parsedRel td) (relations_of td)).

(** A relation of [td] with a stable text. *)
Definition entry_ok (fuel : nat) (td : TypeDefinition) (e : str * Userset)
  : Prop :=
  Simple.name_ok (fst e) = true
  /\ text_of td e <> [] /\ tight (text_of td e) = true
  /\ forallb Char.is_dot (text_of td e) = true
  /\ parseRelationDefinition (2 + fuel) (text_of td e)
     = Returns (reparse fuel (text_of td e))
  /\ buildRelationDefinition (reparse fuel (text_of td e))
       (reread (text_of td e)) = text_of td e.

(** The two objects that [convertToJSON] builds for the relations of a
    parsed type. *)
Definition converted_relations (fuel : nat) (td : TypeDefinition)
    (rels : list (str * Userset)) : Obj.t Userset :=
  map (fun e => (fst e, reparse fuel (text_of td e))) rels.

Definition metadata_entry (td : TypeDefinition) (e : str * Userset)
  : Obj.t RelationMetadata :=
  if 0 <? length (directTypesOf (text_of td e))
  then [(fst e, mkRelationMetadata (Some (reread (text_of td e))))]
  else [].

Definition converted_metadata (td : TypeDefinition)
    (rels : list (str * Userset)) : Obj.t RelationMetadata :=
  flat_map (metadata_entry td) rels.

(** The type that [convertToJSON] makes of the parsed type. *)
Definition converted (fuel : nat) (td : TypeDefinition) : TypeDefinition :=
  match relations_of td with
  | [] => mkTypeDefinition (td_type td) None None
  | _ :: _ =>
      mkTypeDefinition (td_type td)
        (Some (converted_relations fuel td (relations_of td)))
        (Some (mkMetadata (Some (converted_metadata td (relations_of td)))))
  end.

(** The result with more types, conditions. *)
Definition add_types (res : ParseResult) (l : list ParsedType) : ParseResult :=
  mkParseResult (schemaVersion res) (types res ++ l) (res_conditions res).

(** The result once the open type is added, as at the end of [parseDSL]. *)
Definition flushed (st : ParseState) : ParseResult :=
  flushType (result st) (currentType st).

(** The first three lines of the serializer. *)
Definition header (v : str) : list str :=
  [("model" : str); "  schema " ++ v; []].

(** The text of a parameter, and the step of the loop that reads one. *)
Definition param_text (e : str * ConditionParamTypeRef) : str :=
  fst e ++ ": " ++ type_name (snd e).

Definition param_ok (e : str * ConditionParamTypeRef) : Prop :=
  Re.wordTest (fst e) = true /\ Re.wordTest (type_name (snd e)) = true.

Definition read_param (result : Obj.t ConditionParamTypeRef) (piece : str)
  : Obj.t ConditionParamTypeRef :=
  match Re.paramMatch piece with
  | Some (n, ty) => Obj.set n (mkConditionParamTypeRef ty) result
  | None => result
  end.

(** What the loop of the parser keeps of a condition. *)
Definition parsedCond (e : str * Condition) : ParsedCondition :=
  mkParsedCondition (fst e) (formatConditionParams (cond_parameters (snd e)))
    (cond_expression (snd e)).

Definition add_cond (res : ParseResult) (c : ParsedCondition) : ParseResult :=
  mkParseResult (schemaVersion res) (types res) (res_conditions res ++ [c]).

Definition cond_entry_ok (e : str * Condition) : Prop :=
  Simple.name_ok (fst e) = true /\ Simple.condition_ok (snd e) = true.

Definition add_conds (res : ParseResult) (l : list ParsedCondition)
  : ParseResult :=
  mkParseResult (schemaVersion res) (types res) (res_conditions res ++ l).

(** The condition that [convertToJSON] makes of a parsed condition. *)
Definition reconverted (e : str * Condition) : str * Condition :=
  (fst e,
   mkCondition (fst e) (cond_expression (snd e))
     (parseConditionParams (formatConditionParams (cond_parameters (snd e))))).

(** * The other utilities, stores and components *)

(** ** Letter case and numbers in texts *)

Module Case.

(** The lower-case form of a code unit below 256: A to Z and the capital
    letters of Latin-1 (192 to 222 but the multiplication sign) move up
    by 32. *)
Definition lower (c : ascii) : ascii :=
  let n := Char.code c in
  if ((65 <=? n) && (n <=? 90))
     || ((192 <=? n) && (n <=? 222) && negb (n =? 215))
  then ascii_of_nat (n + 32)
  else c.

(** [s.toLowerCase()] *)
Definition toLowerCase (s : str) : str := map lower s.

(** The code units of the upper-case form of a code unit below 256: the
    sharp s becomes two letters S, the micro sign and the y with diaeresis
    leave the range. *)
Definition upper_units (c : ascii) : list N :=
  let n := N_of_ascii c in
  if ((97 <=? n) && (n <=? 122))%N then [n - 32]%N
  else if (n =? 181)%N then [924%N]
  else if (n =? 223)%N then [83%N; 83%N]
  else if ((224 <=? n) && (n <=? 254) && negb (n =? 247))%N then [n - 32]%N
  else if (n =? 255)%N then [376%N]
  else [n].

(** [s.toUpperCase()], as code units. *)
Definition toUpperCase (s : str) : list N := flat_map upper_units s.

End Case.

Module Num.

(** [String(n)] for an integer [n], as a template writes it. *)
Definition toString (n : Z) : str :=
  list_ascii_of_string (NilZero.string_of_int (Z.to_int n)).

End Num.

(** ** The identifiers with a time stamp ([utils/ulid.ts]) *)

Module Ulid.

Definition ENCODING : str := "0123456789ABCDEFGHJKMNPQRSTVWXYZ".

(** [s.indexOf(u)] for one code unit [u]; [None] is -1. *)
Fixpoint indexOf_from (i : nat) (s : str) (u : N) : option nat :=
  match s with
  | [] => None
  | c :: r => if (N_of_ascii c =? u)%N then Some i else indexOf_from (S i) r u
  end.

Definition indexOf (s : str) (u : N) : option nat := indexOf_from 0 s u.

(** [new Date('2020-01-01').getTime()] and [new Date('2100-01-01').getTime()]:
    a date without a time is read as midnight UTC. *)
Definition minTime : N := 1577836800000.
Definition maxTime : N := 4102444800000.

(** The loop [for (let i = 0; i < 10; i++)], with [n] iterations left over
    the code units from [timestampPart[i]] on; a code unit that is missing
    is not in [ENCODING] either. *)
Fixpoint decode (n : nat) (units : list N) (timestamp : N) : option N :=
  match n with
  | O => Some timestamp
  | S n =>
      match units with
      | [] => None
      | u :: r =>
          match indexOf ENCODING u with
          | None => None
          | Some charIndex => decode n r (timestamp * 32 + N.of_nat charIndex)
          end
      end
  end.

(** The time value of the date returned, in milliseconds; [None] is [null]. *)
Definition extractTimestampFromULID (ulid : str) : option N :=
  if negb (length ulid =? 26) then None
  else
    let timestampPart := Case.toUpperCase (firstn 10 ulid) in
    match decode 10 timestampPart 0 with
    | None => None
    | Some timestamp =>
        if (timestamp <? minTime)%N || (maxTime <? timestamp)%N then None
        else Some timestamp
    end.

(** [formatDateTime] and [formatRelativeTime] on a date object: [None] is a
    date that is absent or invalid, [Some t] a date of time value [t];
    [toLocaleString] is the rendering of the host for the options of
    [formatDateTime], [now] the time value of [new Date()].  Time values are
    whole numbers of milliseconds; the quotients are taken on integers, which
    is what the floating-point divisions of the code followed by [Math.floor]
    give on them. *)
Definition formatDateTime (toLocaleString : Z -> str) (date : option Z) : str :=
  match date with
  | None => "Unknown"
  | Some t => toLocaleString t
  end.

(** [`${n} unit${n !== 1 ? 's' : ''} ago`] *)
Definition ago (n : Z) (unit : str) : str :=
  Num.toString n ++ " " ++ unit ++ (if (n =? 1)%Z then "" else "s") ++ " ago".

Definition formatRelativeTime (toLocaleString : Z -> str) (now : Z)
    (date : option Z) : str :=
  match date with
  | None => "Unknown"
  | Some t =>
      let diffMs := (now - t)%Z in
      let diffSecs := (diffMs / 1000)%Z in
      let diffMins := (diffSecs / 60)%Z in
      let diffHours := (diffMins / 60)%Z in
      let diffDays := (diffHours / 24)%Z in
      if (diffSecs <? 60)%Z then "Just now"
      else if (diffMins <? 60)%Z then ago diffMins "minute"
      else if (diffHours <? 24)%Z then ago diffHours "hour"
      else if (diffDays <? 7)%Z then ago diffDays "day"
      else formatDateTime toLocaleString (Some t)
  end.

End Ulid.

(** The order of strings ([a < b], and the order of [sort()] without a
    comparator): by code units, a proper prefix first. *)
Module Order.

Fixpoint ltb (a b : str) : bool :=
  match a, b with
  | _, [] => false
  | [], _ :: _ => true
  | x :: a', y :: b' =>
      (Char.code x <? Char.code y)
      || ((Char.code x =? Char.code y) && ltb a' b')
  end.

Definition leb (a b : str) : bool := negb (ltb b a).

End Order.

(** The identifier that carries a time stamp, for the round trip: the ten
    digits of [t] in base 32, the most significant first, written with
    [Ulid.ENCODING]. *)
Module UlidText.

Definition digit (k : N) : ascii := nth (N.to_nat k) Ulid.ENCODING "0"%char.

Fixpoint encode (n : nat) (t : N) : str :=
  match n with
  | O => []
  | S n =>
      digit (t / 32 ^ N.of_nat n)%N :: encode n (t mod 32 ^ N.of_nat n)%N
  end.

Definition encodeTime (t : N) : str := encode 10 t.

(** The first ten characters are digits of [Ulid.ENCODING], as written. *)
Definition canonical (ulid : str) : bool :=
  forallb (fun c => existsb (Char.eqb c) Ulid.ENCODING) (firstn 10 ulid).

(** Two digits of [Ulid.ENCODING] are in the order of their code units. *)
Definition digits_in_order (x y : ascii) : bool :=
  match Ulid.indexOf Ulid.ENCODING (N_of_ascii x),
        Ulid.indexOf Ulid.ENCODING (N_of_ascii y) with
  | Some i, Some j =>
      if i <? j then Char.code x <? Char.code y
      else if i =? j then Char.eqb x y
      else true
  | _, _ => true
  end.

End UlidText.

(** ** Sets, maps and sorted arrays of strings *)

(** A [Set] of strings, in the order of insertion. *)
Module JSSet.

Definition has (x : str) (s : list str) : bool := existsb (JS.eqb x) s.

Definition add (x : str) (s : list str) : list str :=
  if has x s then s else JS.push s x.

End JSSet.

(** A [Map] with string keys, in the order of insertion of the keys. *)
Module JSMap.

Definition set {A : Type} (k : str) (v : A) (m : list (str * A))
  : list (str * A) :=
  if Obj.has k m then Obj.replace k v m else JS.push m (k, v).

End JSMap.

(** [l.sort()] on strings: the stable sorting by [Order.ltb], written as the
    insertion of each element after the elements that are not greater. *)
Module Sort.

Fixpoint insert (x : str) (l : list str) : list str :=
  match l with
  | [] => [x]
  | y :: r => if Order.ltb x y then x :: l else y :: insert x r
  end.

Definition sort (l : list str) : list str :=
  fold_left (fun sorted x => insert x sorted) l [].

End Sort.

(** ** Relationship tuples ([types/openfga.ts]) *)

Record TupleKey := mkTupleKey {
  tk_user : str;
  tk_relation : str;
  tk_object : str }.

(** The patterns that read [type:id] and [type:id#relation]. *)
Module TupleRe.

Definition not_colon (c : ascii) : bool := negb (Char.eqb c ":").
Definition not_hash (c : ascii) : bool := negb (Char.eqb c "#").

Definition nonempty (s : str) : bool :=
  match s with
  | [] => false
  | _ :: _ => true
  end.

(** "^([^:]+):" with the first group and the text after the colon: the
    group stops at the first colon, and no shorter one is followed by a
    colon. *)
Definition typePrefix (s : str) : option (str * str) :=
  match JS.takeWhile not_colon s, JS.dropWhile not_colon s with
  | (_ :: _) as t, _ :: rest => Some (t, rest)
  | _, _ => None
  end.

(** "^([^:]+):(.+)$" *)
Definition typedName (s : str) : option (str * str) :=
  match typePrefix s with
  | Some (t, rest) =>
      if nonempty rest && forallb Char.is_dot rest then Some (t, rest)
      else None
  | None => None
  end.

(** As [typedName], with an id that can be empty (a star in place of the
    plus of the second group). *)
Definition typedValue (s : str) : option (str * str) :=
  match typePrefix s with
  | Some (t, rest) => if forallb Char.is_dot rest then Some (t, rest) else None
  | None => None
  end.

(** "^([^:]+):([^#]+)#(.+)$" *)
Definition usersetName (s : str) : option (str * str * str) :=
  match typePrefix s with
  | Some (t, rest) =>
      match JS.takeWhile not_hash rest, JS.dropWhile not_hash rest with
      | (_ :: _) as n, _ :: r =>
          if nonempty r && forallb Char.is_dot r then Some (t, n, r) else None
      | _, _ => None
      end
  | None => None
  end.

End TupleRe.

(** ** The graph of the tuples ([components/RelationshipTree.tsx]) *)

Module RelationshipTree.

(** [s.match(pattern)?.[1]] for the pattern of a type. *)
Definition typeOf (s : str) : option str :=
  option_map fst (TupleRe.typePrefix s).

Definition addTypeOf (s : str) (types : list str) : list str :=
  match s with
  | [] => types
  | _ :: _ =>
      match TupleRe.typePrefix s with
      | Some (t, _) => JSSet.add t types
      | None => types
      end
  end.

Definition availableTypes (tuples : list TupleKey) : list str :=
  Sort.sort
    (fold_left
       (fun types tuple =>
          addTypeOf (tk_user tuple) (addTypeOf (tk_object tuple) types))
       tuples []).

Definition availableRelations (tuples : list TupleKey) : list str :=
  Sort.sort
    (fold_left
       (fun relations tuple =>
          match tk_relation tuple with
          | [] => relations
          | _ :: _ => JSSet.add (tk_relation tuple) relations
          end)
       tuples []).

(** [a !== b] for the type read from a name, [None] being [undefined]. *)
Definition differs (t : option str) (selectedType : str) : bool :=
  match t with
  | Some t => negb (JS.eqb t selectedType)
  | None => true
  end.

(** The test of [tuples.filter]. *)
Definition shown (selectedType selectedRelation : str) (tuple : TupleKey)
  : bool :=
  let parent := tk_object tuple in
  let child := tk_user tuple in
  let relation := tk_relation tuple in
  if negb (TupleRe.nonempty parent) || negb (TupleRe.nonempty child)
     || negb (TupleRe.nonempty relation)
  then false
  else if TupleRe.nonempty selectedRelation
          && negb (JS.eqb relation selectedRelation)
  then false
  else if TupleRe.nonempty selectedType
          && (differs (typeOf parent) selectedType
              && differs (typeOf child) selectedType)
  then false
  else true.

(** A node of the graph before the layout gives it a position; [node_dark]
    is the [darkMode] its colours are taken from. *)
Record GraphNode := mkGraphNode {
  node_id : str;
  node_label : str;
  node_type : str;
  node_dark : bool }.

(** An edge of the graph; its style is a constant but for the colours, which
    [edge_dark] selects. *)
Record GraphEdge := mkGraphEdge {
  edge_id : str;
  edge_source : str;
  edge_target : str;
  edge_label : str;
  edge_dark : bool }.

(** The variables of the loop over the tuples to show. *)
Record GraphState := mkGraphState {
  nodesMap : list (str * (str * str));
  edgesArray : list GraphEdge;
  addedEdges : list str }.

Definition edgeKey (tuple : TupleKey) : str :=
  tk_object tuple ++ "-" ++ tk_relation tuple ++ "-" ++ tk_user tuple.

(** One iteration of [for (const tuple of filteredTuples)]. *)
Definition addTuple (darkMode : bool) (st : GraphState) (tuple : TupleKey)
  : GraphState :=
  let parent := tk_object tuple in
  let child := tk_user tuple in
  let relation := tk_relation tuple in
  if negb (TupleRe.nonempty parent) || negb (TupleRe.nonempty child)
     || negb (TupleRe.nonempty relation)
  then st
  else
    let nodes :=
      match TupleRe.typedName parent with
      | Some (t, n) => JSMap.set parent (t, n) (nodesMap st)
      | None => nodesMap st
      end in
    let nodes :=
      match TupleRe.usersetName child with
      | Some (t, n, r) => JSMap.set child (t, n ++ "#" ++ r) nodes
      | None =>
          match TupleRe.typedName child with
          | Some (t, n) => JSMap.set child (t, n) nodes
          | None => nodes
          end
      end in
    if JSSet.has (edgeKey tuple) (addedEdges st)
    then mkGraphState nodes (edgesArray st) (addedEdges st)
    else
      mkGraphState nodes
        (JS.push (edgesArray st)
           (mkGraphEdge ("e-" ++ edgeKey tuple) parent child relation darkMode))
        (JSSet.add (edgeKey tuple) (addedEdges st)).

(** The loop [for (const tuple of filteredTuples)]. *)
Definition build (darkMode : bool) (filteredTuples : list TupleKey)
  : GraphState :=
  fold_left (addTuple darkMode) filteredTuples (mkGraphState [] [] []).

(** [Array.from(nodesMap.entries()).map(...)] *)
Definition nodesOf (darkMode : bool) (st : GraphState) : list GraphNode :=
  map (fun entry =>
         mkGraphNode (fst entry) (snd (snd entry)) (fst (snd entry)) darkMode)
      (nodesMap st).

(** The nodes and the edges handed to the layout, which places the nodes
    and returns the edges as they are; both are empty when there is no
    tuple or no node. *)
Definition elements (tuples : list TupleKey)
    (selectedType selectedRelation : str) (darkMode : bool)
  : list GraphNode * list GraphEdge :=
  match tuples with
  | [] => ([], [])
  | _ :: _ =>
      let filteredTuples := filter (shown selectedType selectedRelation) tuples in
      let st := build darkMode filteredTuples in
      match nodesOf darkMode st with
      | [] => ([], [])
      | (_ :: _) as nodes => (nodes, edgesArray st)
      end
  end.

End RelationshipTree.

(** ** The table of the tuples ([components/TupleManager.tsx]) *)

Module TupleManager.

(** [!filter || field.toLowerCase().includes(filter)] *)
Definition matchesFilter (filter field : str) : bool :=
  negb (TupleRe.nonempty filter)
  || JS.includes filter (Case.toLowerCase field).

Definition filteredTuples (tuples : list TupleKey)
    (filterUser filterRelation filterObject : str) : list TupleKey :=
  let userFilter := JS.trim (Case.toLowerCase filterUser) in
  let relationFilter := JS.trim (Case.toLowerCase filterRelation) in
  let objectFilter := JS.trim (Case.toLowerCase filterObject) in
  if negb (TupleRe.nonempty userFilter)
     && negb (TupleRe.nonempty relationFilter)
     && negb (TupleRe.nonempty objectFilter)
  then tuples
  else
    filter
      (fun tuple =>
         matchesFilter userFilter (tk_user tuple)
         && matchesFilter relationFilter (tk_relation tuple)
         && matchesFilter objectFilter (tk_object tuple))
      tuples.

End TupleManager.

(** ** The fields of a query ([components/QueryPanel.tsx]) *)

Module UserInput.

(** [parseValue]: the type and the id of a value. *)
Definition parseValue (val : str) : str * str :=
  match TupleRe.typedValue val with
  | Some (t, id) => (t, id)
  | None => ([], val)
  end.

(** The value that [handleIdChange] hands to [onChange]. *)
Definition handleIdChange (selectedType id : str) : str :=
  match selectedType with
  | [] => id
  | _ :: _ => selectedType ++ ":" ++ id
  end.

(** The value that [handleTypeChange] hands to [onChange]; [None] when it
    does not call it. *)
Definition handleTypeChange (type userId : str) : option str :=
  match type, userId with
  | _ :: _, _ :: _ => Some (type ++ ":" ++ userId)
  | _ :: _, [] => Some (type ++ ":")
  | [], _ => None
  end.

End UserInput.

(** ** The saved queries ([store/saved-queries-store.ts]) *)

Module ObjectPrototype.

(** The names that every object inherits from [Object.prototype]; each
    names a function, but [__proto__], which names the prototype itself. *)
Definition names : list str :=
  [ "constructor" : str; "hasOwnProperty" : str; "isPrototypeOf" : str;
    "propertyIsEnumerable" : str; "toLocaleString" : str; "toString" : str;
    "valueOf" : str; "__proto__" : str; "__defineGetter__" : str;
    "__defineSetter__" : str; "__lookupGetter__" : str;
    "__lookupSetter__" : str ].

Definition inherited (k : str) : bool := existsb (JS.eqb k) names.

(** [{...o, [k]: v}]: the own properties of [o] with [k] defined as [v], in
    place when [o] has it, else at the place of a new key. *)
Definition define {A : Type} (k : str) (v : A) (o : Obj.t A) : Obj.t A :=
  if Obj.has k o then Obj.replace k v o
  else if Obj.is_array_index k then Obj.insert_index k v o
  else o ++ [(k, v)].

End ObjectPrototype.

Section SavedQueries.

(** The fields of a saved query that the store copies (its name, the
    parameters of the query, the expected result) and the result of its
    last run.  The action [updateSavedQuery], which no component calls, is
    not part of the development. *)
Variables (Fields Result : Type).

Record SavedQuery := mkSavedQuery {
  sq_id : str;
  sq_type : str;
  sq_createdAt : str;
  sq_lastResult : option Result;
  sq_fields : Fields }.

(** [state.queriesByStore] *)
Definition QueriesByStore : Type := Obj.t (list SavedQuery).

(** [state.queriesByStore[storeId] || []]; [None] is a member of
    [Object.prototype], which is no array. *)
Definition storedQueries (storeId : str) (queriesByStore : QueriesByStore)
  : option (list SavedQuery) :=
  match Obj.get storeId queriesByStore with
  | Some queries => Some queries
  | None => if ObjectPrototype.inherited storeId then None else Some []
  end.

Definition getSavedQueries (queriesByStore : QueriesByStore) (storeId : str)
  : option (list SavedQuery) :=
  storedQueries storeId queriesByStore.

(** An action reads the queries of the store and defines the new ones; the
    spread, [map] or [filter] of a value that is no array throws. *)
Definition withQueries (storeId : str)
    (f : list SavedQuery -> list SavedQuery)
    (queriesByStore : QueriesByStore) : outcome QueriesByStore :=
  match storedQueries storeId queriesByStore with
  | Some existingQueries =>
      Returns (ObjectPrototype.define storeId (f existingQueries)
                 queriesByStore)
  | None => Throws
  end.

(** [id] is the identifier made from the clock and a random number,
    [createdAt] the date of the clock. *)
Definition addSavedQuery (storeId : str) (query : SavedQuery)
    (id createdAt : str) : QueriesByStore -> outcome QueriesByStore :=
  withQueries storeId
    (fun existingQueries =>
       JS.push existingQueries
         (mkSavedQuery id (sq_type query) createdAt (sq_lastResult query)
            (sq_fields query))).

Definition deleteSavedQuery (storeId queryId : str)
  : QueriesByStore -> outcome QueriesByStore :=
  withQueries storeId
    (fun existingQueries =>
       filter (fun q => negb (JS.eqb (sq_id q) queryId)) existingQueries).

Definition updateLastResult (storeId queryId : str) (result : option Result)
  : QueriesByStore -> outcome QueriesByStore :=
  withQueries storeId
    (fun existingQueries =>
       map (fun q =>
              if JS.eqb (sq_id q) queryId
              then mkSavedQuery (sq_id q) (sq_type q) (sq_createdAt q) result
                     (sq_fields q)
              else q)
           existingQueries).

Definition reorderQueries (storeId : str) (queries : list SavedQuery)
    (queriesByStore : QueriesByStore) : QueriesByStore :=
  ObjectPrototype.define storeId queries queriesByStore.

(** The imported queries from the [i]-th on, [newId i] being the identifier
    made for the [i]-th. *)
Fixpoint importedQueries (newId : nat -> str) (i : nat)
    (queries : list SavedQuery) : list SavedQuery :=
  match queries with
  | [] => []
  | q :: rest =>
      mkSavedQuery (newId i) (sq_type q) (sq_createdAt q) None (sq_fields q)
      :: importedQueries newId (S i) rest
  end.

Inductive ImportMode := Replace | Merge.

(** In the mode [Replace] the queries of the store are read and not used. *)
Definition importQueries (storeId : str) (queries : list SavedQuery)
    (mode : ImportMode) (newId : nat -> str)
    (queriesByStore : QueriesByStore) : outcome QueriesByStore :=
  match mode with
  | Replace =>
      Returns (ObjectPrototype.define storeId
                 (importedQueries newId 0 queries) queriesByStore)
  | Merge =>
      withQueries storeId
        (fun existingQueries =>
           existingQueries ++ importedQueries newId 0 queries)
        queriesByStore
  end.

Definition clearAllQueries (storeId : str) (queriesByStore : QueriesByStore)
  : QueriesByStore :=
  ObjectPrototype.define storeId [] queriesByStore.

(** *** The list of the saved queries ([SavedQueriesPanel] in
    [components/QueryPanel.tsx]) *)

(** [l.splice(i, 1)]: the element removed, if there is one, and the rest. *)
Definition spliceOut {X : Type} (i : nat) (l : list X) : option X * list X :=
  (nth_error l i, firstn i l ++ skipn (S i) l).

(** [l.splice(i, 0, x)] *)
Definition spliceIn {X : Type} (i : nat) (x : X) (l : list X) : list X :=
  firstn i l ++ x :: skipn i l.

(** The list that [handleDrop] hands to [reorderQueries], [None] in it
    being [undefined]; [None] when it returns before. *)
Definition handleDrop (allSavedQueries : list SavedQuery)
    (activeQueryType : str) (draggedIndex : option nat) (dropIndex : nat)
  : option (list (option SavedQuery)) :=
  match draggedIndex with
  | None => None
  | Some draggedIndex =>
      if draggedIndex =? dropIndex then None
      else
        let savedQueries :=
          filter (fun q => JS.eqb (sq_type q) activeQueryType)
            allSavedQueries in
        let taken := spliceOut draggedIndex (map Some savedQueries) in
        let draggedItem :=
          match fst taken with
          | Some item => item
          | None => None
          end in
        let newFilteredQueries := spliceIn dropIndex draggedItem (snd taken) in
        let otherQueries :=
          filter (fun q => negb (JS.eqb (sq_type q) activeQueryType))
            allSavedQueries in
        Some (map Some otherQueries ++ newFilteredQueries)
  end.

End SavedQueries.

Arguments mkSavedQuery {Fields Result}.
Arguments sq_id {Fields Result}.
Arguments sq_type {Fields Result}.
Arguments sq_createdAt {Fields Result}.
Arguments sq_lastResult {Fields Result}.
Arguments sq_fields {Fields Result}.
Arguments storedQueries {Fields Result}.
Arguments getSavedQueries {Fields Result}.
Arguments withQueries {Fields Result}.
Arguments addSavedQuery {Fields Result}.
Arguments deleteSavedQuery {Fields Result}.
Arguments updateLastResult {Fields Result}.
Arguments reorderQueries {Fields Result}.
Arguments importedQueries {Fields Result}.
Arguments importQueries {Fields Result}.
Arguments clearAllQueries {Fields Result}.
Arguments handleDrop {Fields Result}.

(** The state after an action: the one it returns, or the one before when
    it throws. *)
Definition stateAfter {A : Type} (r : outcome A) (before : A) : A :=
  match r with
  | Returns after => after
  | Throws => before
  | OutOfFuel => before
  end.

(** ** Saving the edited text ([handleSaveModel] in
    [components/ModelViewer.tsx]) *)

Definition msg_schema_required : str :=
  "schema_version is required (add " ++ dq ++ "schema 1.1" ++ dq ++ " after "
  ++ dq ++ "model" ++ dq ++ ")".
Definition msg_type_required : str :=
  "At least one type definition is required".

(** What [handleSaveModel] does with the text before it calls the service:
    the model it submits, or the error it throws to its own handler. *)
Inductive SaveRequest :=
| Submit (modelData : AuthorizationModel)
| SaveError (message : str).

Definition handleSaveModel (fuel : nat) (editContent : str)
  : outcome SaveRequest :=
  modelData <-- parseDSL fuel editContent ;;
  match schema_version modelData with
  | [] => Returns (SaveError msg_schema_required)
  | _ :: _ =>
      match type_definitions modelData with
      | [] => Returns (SaveError msg_type_required)
      | _ :: _ => Returns (Submit modelData)
      end
  end.

(** ** The lines of a text, for the properties of the parser *)

(** The names of the type lines, in the order of the lines. *)
Definition typeNames (lines : list str) : list str :=
  flat_map
    (fun ln =>
       match Re.typeMatch (JS.trim ln) with
       | Some name => [name]
       | None => []
       end)
    lines.

(** The versions of the schema lines, in the order of the lines. *)
Definition schemaVersions (lines : list str) : list str :=
  flat_map
    (fun ln =>
       match Re.schemaMatch (JS.trim ln) with
       | Some v => [v]
       | None => []
       end)
    lines.

(** A line that is blank, a comment or the [model] line. *)
Definition skipped (ln : str) : bool :=
  match JS.trim ln with
  | [] => true
  | (_ :: _) as trimmed =>
      JS.startsWith "#" trimmed || JS.startsWith "//" trimmed
      || JS.eqb trimmed "model"
  end.

(** * Properties *)

(** ** More fuel does not change a returned value *)

Section Fuel.

Lemma bind_Returns {A B : Type} (x : outcome A) (k : A -> outcome B) (b : B) :
  bind x k = Returns b -> exists a, x = Returns a /\ k a = Returns b.
Proof.
  destruct x as [a| |]; simpl; intros H; try discriminate.
  exists a; split; [reflexivity | exact H].
Qed.

Lemma mapO_ext_Returns {A B : Type} (f g : A -> outcome B) (l : list A) :
  (forall x y, In x l -> f x = Returns y -> g x = Returns y) ->
  forall ys, mapO f l = Returns ys -> mapO g l = Returns ys.
Proof.
  induction l as [|x r IH]; intros Hfg ys H; simpl in *.
  - exact H.
  - apply bind_Returns in H. destruct H as [y [Hy H]].
    apply bind_Returns in H. destruct H as [ys' [Hys H]].
    rewrite (Hfg x y (or_introl eq_refl) Hy). simpl.
    rewrite (IH (fun x' y' Hin => Hfg x' y' (or_intror Hin)) ys' Hys).
    exact H.
Qed.

Lemma parseRelationDefinition_S (fuel : nat) (definition : str) :
  parseRelationDefinition (S fuel) definition =
  let trimmed := JS.trim definition in
  if JS.startsWith "[" trimmed && JS.endsWith "]" trimmed
  then Returns userset_this
  else if JS.includes " or " trimmed
  then
    l <-- mapO (parseRelationDefinition fuel) (splitByOperator trimmed " or ") ;;
    Returns (userset_union l)
  else if JS.includes " and " trimmed
  then
    l <-- mapO (parseRelationDefinition fuel) (splitByOperator trimmed " and ") ;;
    Returns (userset_intersection l)
  else if JS.includes " but not " trimmed
  then
    p0 <-- at_index (JS.split " but not " trimmed) 0 ;;
    b <-- parseRelationDefinition fuel p0 ;;
    p1 <-- at_index (JS.split " but not " trimmed) 1 ;;
    s <-- parseRelationDefinition fuel p1 ;;
    Returns (userset_difference b s)
  else if JS.includes "->" trimmed
  then
    p0 <-- at_index (JS.split "->" trimmed) 0 ;;
    p1 <-- at_index (JS.split "->" trimmed) 1 ;;
    Returns (userset_ttu (JS.trim p0) (JS.trim p1))
  else if Re.wordTest trimmed
  then Returns (userset_computed trimmed)
  else
    match Re.bracketHead trimmed with
    | Some (_, rest0) =>
        match JS.trim rest0 with
        | [] => Returns userset_this
        | _ :: _ =>
            if JS.startsWith "or " (JS.trim rest0)
            then
              o <-- parseRelationDefinition fuel
                      (JS.trim (JS.slice_from 3 (JS.trim rest0))) ;;
              Returns (userset_union [userset_this; o])
            else Returns userset_this
        end
    | None => Returns userset_this
    end.
Proof. reflexivity. Qed.

Lemma parseRelationDefinition_mono (n : nat) :
  forall (m : nat) (s : str) (u : Userset),
    n <= m ->
    parseRelationDefinition n s = Returns u ->
    parseRelationDefinition m s = Returns u.
Proof.
  induction n as [|n IH]; intros m s u Hle H; [discriminate|].
  destruct m as [|m]; [lia|].
  assert (Hnm : n <= m) by lia.
  assert (IH' : forall x y, parseRelationDefinition n x = Returns y ->
                            parseRelationDefinition m x = Returns y)
    by (intros x y; apply IH; exact Hnm).
  rewrite parseRelationDefinition_S in *. cbv zeta in *.
  destruct (JS.startsWith "[" (JS.trim s) && JS.endsWith "]" (JS.trim s));
    [exact H|].
  destruct (JS.includes " or " (JS.trim s)).
  { apply bind_Returns in H. destruct H as [l [Hl H]].
    rewrite (mapO_ext_Returns _ (parseRelationDefinition m) _
               (fun x y _ => IH' x y) l Hl). exact H. }
  destruct (JS.includes " and " (JS.trim s)).
  { apply bind_Returns in H. destruct H as [l [Hl H]].
    rewrite (mapO_ext_Returns _ (parseRelationDefinition m) _
               (fun x y _ => IH' x y) l Hl). exact H. }
  destruct (JS.includes " but not " (JS.trim s)).
  { apply bind_Returns in H. destruct H as [p0 [Hp0 H]]. rewrite Hp0. cbn [bind].
    apply bind_Returns in H. destruct H as [b [Hb H]].
    rewrite (IH' _ _ Hb). cbn [bind].
    apply bind_Returns in H. destruct H as [p1 [Hp1 H]]. rewrite Hp1. cbn [bind].
    apply bind_Returns in H. destruct H as [d [Hd H]].
    rewrite (IH' _ _ Hd). exact H. }
  destruct (JS.includes "->" (JS.trim s)); [exact H|].
  destruct (Re.wordTest (JS.trim s)); [exact H|].
  destruct (Re.bracketHead (JS.trim s)) as [[body rest0]|]; [|exact H].
  destruct (JS.trim rest0) as [|c r] eqn:Hrest; [exact H|].
  destruct (JS.startsWith "or " (c :: r)); [|exact H].
  apply bind_Returns in H. destruct H as [o [Ho H]].
  rewrite (IH' _ _ Ho). exact H.
Qed.

Lemma convertRelations_mono (n m : nat) (Hle : n <= m) :
  forall rels relations metadata r,
    convertRelations n rels relations metadata = Returns r ->
    convertRelations m rels relations metadata = Returns r.
Proof.
  induction rels as [|rel rest IH]; intros relations metadata r H; simpl in *.
  - exact H.
  - apply bind_Returns in H. destruct H as [u [Hu H]].
    rewrite (parseRelationDefinition_mono n m _ _ Hle Hu). simpl.
    apply IH. exact H.
Qed.

Lemma convertType_mono (n m : nat) (Hle : n <= m) (ty : ParsedType)
    (td : TypeDefinition) :
  convertType n ty = Returns td -> convertType m ty = Returns td.
Proof.
  unfold convertType. destruct (0 <? length (pt_relations ty)); [|exact id].
  intros H. apply bind_Returns in H. destruct H as [rm [Hrm H]].
  rewrite (convertRelations_mono n m Hle _ _ _ _ Hrm). exact H.
Qed.

Lemma convertToJSON_mono (n m : nat) (Hle : n <= m) (parsed : ParseResult)
    (model : AuthorizationModel) :
  convertToJSON n parsed = Returns model ->
  convertToJSON m parsed = Returns model.
Proof.
  unfold convertToJSON. intros H.
  apply bind_Returns in H. destruct H as [tds [Htds H]].
  rewrite (mapO_ext_Returns _ (convertType m) _
             (fun x y _ => convertType_mono n m Hle x y) tds Htds).
  exact H.
Qed.

Lemma parseDSL_mono (n m : nat) (dsl : str) (model : AuthorizationModel) :
  n <= m ->
  parseDSL n dsl = Returns model -> parseDSL m dsl = Returns model.
Proof.
  intros Hle. unfold parseDSL. apply convertToJSON_mono. exact Hle.
Qed.

End Fuel.

(** ** The template model and the bracket list *)

(** C6.  The template text parses, at every recursion depth from 2 on, to the
    model with schema version 1.1 and the two types [user], without
    relations, and [document], whose relation [owner] is a direct assignment
    with the direct type [user] and whose relation [viewer] is the union of a
    direct assignment, with the direct type [user], and the computed relation
    [owner]. *)
Theorem parseDSL_template (fuel : nat) :
  parseDSL (2 + fuel) template_text = Returns template_model.
Proof.
  apply (parseDSL_mono 2); [lia|]. vm_compute. reflexivity.
Qed.

(** C5.  The expression [[user, group#member] or owner] is split into the
    two parts [[user, group#member]] and [owner] only; it parses to the union
    of a direct assignment and the computed relation [owner], and the define
    line records the two references [user] and [group#member] as its direct
    types. *)
Theorem bracket_list_union (fuel : nat) :
  splitByOperator "[user, group#member] or owner" " or "
    = ["[user, group#member]" : str; "owner" : str]
  /\ parseRelationDefinition (2 + fuel) "[user, group#member] or owner"
     = Returns (userset_union [userset_this; userset_computed "owner"])
  /\ map parseTypeReference (directTypesOf "[user, group#member] or owner")
     = [plain_ref "user"; sub_ref "group" "member"]
  /\ parseDSL (2 + fuel) bracket_union_text = Returns bracket_union_model.
Proof.
  split; [vm_compute; reflexivity|].
  split; [apply (parseRelationDefinition_mono 2); [lia|]; vm_compute; reflexivity|].
  split; [vm_compute; reflexivity|].
  apply (parseDSL_mono 2); [lia|]. vm_compute. reflexivity.
Qed.

(** ** Conditions *)

(** C8, as stated, fails: the whole condition on one line is not a condition
    declaration (the pattern ends after the opening brace), so the text
    parses to a model without conditions, at every recursion depth. *)
Lemma condition_one_line_not_parsed :
  parseDSL 1 condition_one_line = Returns (mkAuthorizationModel "1.1" [] None)
  /\ ~ (exists fuel, parseDSL fuel condition_one_line = Returns valid_time_model).
Proof.
  split; [vm_compute; reflexivity|].
  intros [fuel H]. vm_compute in H. discriminate H.
Qed.

(** C8, amended.  The condition written on three lines (the declaration up to
    the opening brace, the expression, the closing brace) parses to the
    condition [valid_time] with the expression [current < expiry] and the
    parameters [current] and [expiry], in that order, each of type [string];
    the serializer writes that condition as the same three lines, followed by
    an empty line. *)
Theorem condition_block_roundtrip (fuel : nat) :
  parseDSL fuel condition_block = Returns valid_time_model
  /\ conditionLines (entry "valid_time" valid_time)
     = JS.split JS.newline condition_block ++ [[]]
  /\ modelToDSLForEdit valid_time_model
     = "model" ++ JS.newline ++ "  schema 1.1" ++ JS.newline ++ JS.newline
       ++ condition_block ++ JS.newline.
Proof.
  split; [vm_compute; reflexivity|].
  split; vm_compute; reflexivity.
Qed.

(** ** Chained exclusion *)

(** C2.  In [a but not b but not c] the text is split at every [ but not ]
    and only the first two pieces are used: the result is the difference of
    [a] and [b], and [c] is lost.  The subtracted side is not the parse of
    [b but not c], which is the difference of [b] and [c]. *)
Theorem chained_but_not (fuel : nat) :
  JS.split " but not " "a but not b but not c" = ["a" : str; "b" : str; "c" : str]
  /\ parseRelationDefinition (2 + fuel) "a but not b but not c"
     = Returns (userset_difference (userset_computed "a") (userset_computed "b"))
  /\ parseRelationDefinition (2 + fuel) "b but not c"
     = Returns (userset_difference (userset_computed "b") (userset_computed "c")).
Proof.
  split; [vm_compute; reflexivity|].
  split; (apply (parseRelationDefinition_mono 2); [lia|]; vm_compute; reflexivity).
Qed.

(** ** The order of the rules of [parseRelationDefinition] *)

Section Rules.

Variable fuel : nat.
Variable definition : str.

Let trimmed : str := JS.trim definition.

(** The first rule: a text that starts with an opening bracket and ends with
    a closing one is a direct assignment, whatever stands between. *)
Lemma rule_whole_bracket :
  JS.startsWith "[" trimmed && JS.endsWith "]" trimmed = true ->
  parseRelationDefinition (S fuel) definition = Returns userset_this.
Proof.
  intros H. rewrite parseRelationDefinition_S. cbv zeta.
  fold trimmed. rewrite H. reflexivity.
Qed.

(** The second rule: the union of the parts. *)
Lemma rule_union :
  JS.startsWith "[" trimmed && JS.endsWith "]" trimmed = false ->
  JS.includes " or " trimmed = true ->
  parseRelationDefinition (S fuel) definition =
  (l <-- mapO (parseRelationDefinition fuel) (splitByOperator trimmed " or ") ;;
   Returns (userset_union l)).
Proof.
  intros H1 H2. rewrite parseRelationDefinition_S. cbv zeta.
  fold trimmed. rewrite H1, H2. reflexivity.
Qed.

End Rules.

(** ** A definition on which the parser does not return *)

Lemma unclosed_bracket_one_part :
  JS.trim unclosed_bracket = unclosed_bracket
  /\ splitByOperator unclosed_bracket " or " = [unclosed_bracket].
Proof. split; vm_compute; reflexivity. Qed.

Lemma unclosed_bracket_diverges (fuel : nat) :
  parseRelationDefinition fuel unclosed_bracket = OutOfFuel.
Proof.
  induction fuel as [|fuel IH]; [reflexivity|].
  rewrite rule_union; try (vm_compute; reflexivity).
  destruct unclosed_bracket_one_part as [Ht Hs]. rewrite Ht, Hs.
  cbn [mapO]. rewrite IH. reflexivity.
Qed.

(** C1.  The claim fails on the code: on a define line whose expression is
    [[user or owner] the union rule finds [ or ], the bracket-aware split
    returns the expression itself as its only part, and the parser calls
    itself on it again: at no recursion depth does [parseDSL] return. *)
Theorem parseDSL_unclosed_bracket_diverges (fuel : nat) :
  parseDSL fuel unclosed_bracket_text = OutOfFuel.
Proof.
  unfold parseDSL.
  replace (parseLines (JS.split JS.newline unclosed_bracket_text))
    with (mkParseResult "1.1"
            [mkParsedType "document"
               [mkParsedRelation "viewer" unclosed_bracket []]]
            [])
    by (vm_compute; reflexivity).
  unfold convertToJSON. cbn [types mapO]. unfold convertType.
  cbn [pt_relations length Nat.ltb Nat.leb convertRelations rel_definition].
  rewrite unclosed_bracket_diverges. reflexivity.
Qed.

(** C4, as stated, fails: [[user] or [group]] has [ or ] outside the
    brackets, the split finds the two parts, and yet the parser returns a
    direct assignment, because the text starts with an opening bracket and
    ends with a closing one and that rule comes first. *)
Lemma union_rule_is_not_first :
  JS.includes " or " "[user] or [group]" = true
  /\ splitByOperator "[user] or [group]" " or " = ["[user]" : str; "[group]" : str]
  /\ parseRelationDefinition 3 "[user] or [group]" = Returns userset_this
  /\ ~ (exists fuel l,
          parseRelationDefinition fuel "[user] or [group]"
          = Returns (userset_union l)).
Proof.
  repeat split; try (vm_compute; reflexivity).
  intros [fuel [l H]]. destruct fuel as [|fuel]; [discriminate H|].
  rewrite rule_whole_bracket in H by (vm_compute; reflexivity).
  discriminate H.
Qed.

(** C4, amended.  For every definition that contains [ or ]: when its
    trimmed text starts with an opening bracket and ends with a closing one,
    the parser returns a direct assignment (the first rule); otherwise it
    returns the union of the recursively parsed parts of the bracket-aware
    split (the second rule, before every other). *)
Theorem union_rule (fuel : nat) (definition : str) :
  JS.includes " or " (JS.trim definition) = true ->
  parseRelationDefinition (S fuel) definition =
  if JS.startsWith "[" (JS.trim definition) && JS.endsWith "]" (JS.trim definition)
  then Returns userset_this
  else
    l <-- mapO (parseRelationDefinition fuel)
            (splitByOperator (JS.trim definition) " or ") ;;
    Returns (userset_union l).
Proof.
  intros H.
  destruct (JS.startsWith "[" (JS.trim definition)
            && JS.endsWith "]" (JS.trim definition)) eqn:Hb.
  - apply rule_whole_bracket. exact Hb.
  - apply rule_union; assumption.
Qed.

(** The amended C4 on a union of three parts with blanks around it. *)
Lemma union_rule_witness :
  parseRelationDefinition 2 "  owner or editor or [user] " =
  Returns (userset_union
             [userset_computed "owner"; userset_computed "editor"; userset_this]).
Proof.
  rewrite (union_rule 1 "  owner or editor or [user] " eq_refl).
  vm_compute. reflexivity.
Defined.

(** ** The serializers are defined on every node *)

Lemma buildRelationDefinition_empty_object (directTypes : list RelationReference) :
  buildRelationDefinition no_userset directTypes
  = or_else (typeStrOf directTypes) "[user]".
Proof. reflexivity. Qed.

Lemma typeStrOf_nonempty (r : RelationReference) (l : list RelationReference) :
  or_else (typeStrOf (r :: l)) "[user]"
  = "[" ++ JS.join ", " (map formatTypeRef (r :: l)) ++ "]".
Proof. reflexivity. Qed.

Lemma no_field_is_empty_object (u : Userset) :
  this u = None -> computedUserset u = None -> tupleToUserset u = None ->
  union u = None -> intersection u = None -> difference u = None ->
  u = no_userset.
Proof.
  destruct u as [th cu ttu un it df]. cbn. intros. subst. reflexivity.
Qed.


(** ** The validator: the missing model declaration comes first *)

Lemma eqb_eq (a b : str) : JS.eqb a b = true <-> a = b.
Proof.
  unfold JS.eqb. destruct (list_eq_dec ascii_dec a b); split; intros H;
    try reflexivity; try assumption; try discriminate; contradiction.
Qed.

Lemma eqb_neq (a b : str) : JS.eqb a b = false <-> a <> b.
Proof.
  unfold JS.eqb. destruct (list_eq_dec ascii_dec a b); split; intros H;
    try reflexivity; try assumption; try discriminate; contradiction.
Qed.

Lemma eqb_refl (a : str) : JS.eqb a a = true.
Proof. apply eqb_eq. reflexivity. Qed.

Lemma report_hasModel (st : ValidatorState) (c : bool) (n : nat) (m : str) :
  hasModel (report st c n m) = hasModel st.
Proof. unfold report. destruct c; reflexivity. Qed.

Lemma validateLine_hasModel (st : ValidatorState) (index : nat) (ln : str) :
  JS.trim ln <> "model" ->
  hasModel (validateLine st index ln) = hasModel st.
Proof.
  intros Hne. apply eqb_neq in Hne. unfold validateLine.
  destruct (JS.trim ln) as [|c r] eqn:Ht; [reflexivity|].
  destruct (JS.startsWith "#" (c :: r) || JS.startsWith "//" (c :: r));
    [reflexivity|].
  rewrite Hne.
  destruct (JS.startsWith "schema " (c :: r));
    [cbn [hasModel]; rewrite !report_hasModel; reflexivity|].
  destruct (JS.startsWith "type " (c :: r)).
  { cbn [hasModel].
    destruct (JS.trim (JS.remove_first "type " (c :: r)));
      rewrite !report_hasModel; reflexivity. }
  destruct (JS.eqb (c :: r) "relations");
    [cbn [hasModel]; rewrite !report_hasModel; reflexivity|].
  destruct (JS.startsWith "define " (c :: r)).
  { destruct (negb (JS.includes ":" (JS.remove_first "define " (c :: r))));
      [rewrite !report_hasModel; reflexivity|].
    destruct (JS.trim (hd [] (JS.split ":" (JS.remove_first "define " (c :: r)))));
      rewrite !report_hasModel; reflexivity. }
  destruct (JS.startsWith "condition " (c :: r)); [reflexivity|].
  apply report_hasModel.
Qed.

Lemma validateLines_hasModel (lines : list str) :
  (forall ln, In ln lines -> JS.trim ln <> "model") ->
  forall st index,
    hasModel (validateLines st index lines) = hasModel st.
Proof.
  induction lines as [|ln rest IH]; intros Hall st index; [reflexivity|].
  cbn [validateLines].
  rewrite IH by (intros l Hl; apply Hall; right; exact Hl).
  apply validateLine_hasModel. apply Hall. left. reflexivity.
Qed.

(** C7.  For every text that is not blank and has no line that is [model]
    once trimmed, the diagnostics start with the one at line 1 that asks for
    the model declaration, whatever the other diagnostics are. *)
Theorem missing_model_first (editContent : str) :
  JS.trim editContent <> [] ->
  (forall ln, In ln (JS.split JS.newline editContent) -> JS.trim ln <> "model") ->
  exists others,
    dslErrors editContent = mkDiagnostic 1 msg_missing_model :: others.
Proof.
  intros Hnb Hall. unfold dslErrors.
  destruct (JS.trim editContent) as [|c r]; [contradiction|].
  rewrite (validateLines_hasModel _ Hall). cbn [hasModel negb andb].
  eexists. reflexivity.
Qed.

(** C7 on a text that starts with the schema line. *)
Lemma missing_model_first_witness :
  exists others,
    dslErrors ("schema 1.1" ++ JS.newline ++ "type user" ++ JS.newline)
    = mkDiagnostic 1 msg_missing_model :: others.
Proof.
  apply missing_model_first.
  - vm_compute. discriminate.
  - vm_compute. intros ln H.
    repeat (destruct H as [H|H]; [subst ln; vm_compute; discriminate|]).
    contradiction.
Defined.

(** ** Lines *)

Section Lines.

Lemma char_eqb_refl (c : ascii) : Char.eqb c c = true.
Proof. apply Ascii.eqb_refl. Qed.

Lemma char_eqb_eq (a b : ascii) : Char.eqb a b = true <-> a = b.
Proof. apply Ascii.eqb_eq. Qed.

Lemma char_eqb_neq (a b : ascii) : Char.eqb a b = false <-> a <> b.
Proof. apply Ascii.eqb_neq. Qed.

Lemma startsWith_app (p r : str) : JS.startsWith p (p ++ r) = true.
Proof.
  induction p as [|a p IH]; [reflexivity|].
  cbn. rewrite char_eqb_refl. exact IH.
Qed.

Lemma startsWith_inv (p s : str) :
  JS.startsWith p s = true -> s = p ++ skipn (length p) s.
Proof.
  revert s. induction p as [|a p IH]; intros s H; [reflexivity|].
  destruct s as [|b s]; [discriminate H|].
  cbn in H. apply andb_prop in H. destruct H as [Hab H].
  apply char_eqb_eq in Hab. subst b. cbn. f_equal. apply IH. exact H.
Qed.

Lemma split_go_single_app (c : ascii) (a b : str) :
  forall cur,
    JS.split_go [c] 0 cur (a ++ c :: b)
    = JS.split_go [c] 0 cur a ++ JS.split_go [c] 0 [] b.
Proof.
  induction a as [|x a IH]; intros cur.
  - cbn. rewrite char_eqb_refl. reflexivity.
  - cbn. destruct (Char.eqb c x); cbn.
    + rewrite IH. reflexivity.
    + apply IH.
Qed.

Lemma split_single_app (c : ascii) (a b : str) :
  JS.split [c] (a ++ c :: b) = JS.split [c] a ++ JS.split [c] b.
Proof. apply split_go_single_app. Qed.

Lemma split_go_single_none (c : ascii) (a : str) :
  ~ In c a -> forall cur, JS.split_go [c] 0 cur a = [cur ++ a].
Proof.
  induction a as [|x a IH]; intros Hn cur.
  - cbn. rewrite app_nil_r. reflexivity.
  - cbn. destruct (Char.eqb c x) eqn:E.
    + apply char_eqb_eq in E. subst x. exfalso. apply Hn. left. reflexivity.
    + cbn. rewrite IH by (intros Hin; apply Hn; right; exact Hin).
      rewrite <- app_assoc. reflexivity.
Qed.

Lemma split_single_none (c : ascii) (a : str) :
  ~ In c a -> JS.split [c] a = [a].
Proof. intros H. apply (split_go_single_none c a H []). Qed.

(** Splitting the joined lines gives the lines back. *)
Lemma split_join_lines (l : list str) :
  l <> [] ->
  (forall x, In x l -> ~ In LF x) ->
  JS.split JS.newline (JS.join JS.newline l) = l.
Proof.
  induction l as [|x r IH]; intros Hne Hall; [contradiction|].
  destruct r as [|y r].
  - cbn [JS.join]. apply split_single_none. apply Hall. left. reflexivity.
  - change (JS.join JS.newline (x :: y :: r))
      with (x ++ LF :: JS.join JS.newline (y :: r)).
    unfold JS.newline. fold LF. rewrite split_single_app.
    rewrite split_single_none by (apply Hall; left; reflexivity).
    unfold JS.newline in IH. fold LF in IH.
    rewrite IH; [reflexivity|discriminate|].
    intros z Hz. apply Hall. right. exact Hz.
Qed.

Lemma parseLines_split_join (l : list str) :
  (forall x, In x l -> ~ In LF x) ->
  parseLines (JS.split JS.newline (JS.join JS.newline l)) = parseLines l.
Proof.
  intros Hall. destruct l as [|x r]; [reflexivity|].
  rewrite split_join_lines; [reflexivity|discriminate|exact Hall].
Qed.

End Lines.

(** ** A define line out of place *)

Section DefineOutOfPlace.

Lemma lit_inv (p s r : str) : Re.lit p s = Some r -> s = p ++ r.
Proof.
  unfold Re.lit. destruct (JS.startsWith p s) eqn:E; [|discriminate].
  intros H. injection H as <-. apply startsWith_inv. exact E.
Qed.

Lemma defineMatch_prefix (t : str) :
  Re.defineMatch t <> None -> exists r, t = "define" ++ r.
Proof.
  unfold Re.defineMatch. destruct (Re.lit "define" t) as [r|] eqn:E.
  - intros _. exists r. apply lit_inv. exact E.
  - intros H. contradiction.
Qed.

Lemma parseLine_define_out_of_place (st : ParseState) (ln : str) :
  Re.defineMatch (JS.trim ln) <> None ->
  out_of_place st = true ->
  capturing st = false ->
  parseLine st ln = st.
Proof.
  intros Hd Hout Hcap.
  destruct (defineMatch_prefix _ Hd) as [r Hr].
  unfold parseLine. rewrite Hr in *. clear Hr.
  set (t := "define" ++ r) in *.
  assert (E0 : JS.startsWith "#" t || JS.startsWith "//" t = false)
    by reflexivity.
  assert (E1 : JS.eqb t "model" = false)
    by (apply eqb_neq; unfold t; cbn; discriminate).
  assert (E2 : JS.eqb t "relations" = false)
    by (apply eqb_neq; unfold t; cbn; discriminate).
  assert (E3 : Re.schemaMatch t = None) by reflexivity.
  assert (E4 : Re.typeMatch t = None) by reflexivity.
  assert (E5 : Re.conditionMatch t = None) by reflexivity.
  assert (Ene : t <> []) by (unfold t; cbn; discriminate).
  clearbody t. destruct t as [|c r']; [contradiction|].
  rewrite E0, E1, E2, E3, E4, E5.
  unfold out_of_place in Hout. unfold capturing in Hcap.
  destruct (Re.defineMatch _) as [[n e]|];
    destruct (currentType st) as [ty|];
    destruct (inRelations st);
    try discriminate Hout;
    destruct (inCondition st);
    destruct (currentCondition st);
    try discriminate Hcap; reflexivity.
Qed.

Lemma parseLines_without (before after : list str) (ln : str) :
  parseLine (fold_left parseLine before initialState) ln
  = fold_left parseLine before initialState ->
  parseLines (before ++ ln :: after) = parseLines (before ++ after).
Proof.
  intros H. unfold parseLines. rewrite !fold_left_app. cbn [fold_left].
  rewrite H. reflexivity.
Qed.

(** No type line so far: no current type. *)
Lemma no_type_line_no_current_type (lines : list str) :
  (forall ln, In ln lines -> Re.typeMatch (JS.trim ln) = None) ->
  forall st,
    currentType st = None ->
    currentType (fold_left parseLine lines st) = None.
Proof.
  induction lines as [|ln rest IH]; intros Hall st Hst; [exact Hst|].
  cbn [fold_left]. apply IH; [intros l Hl; apply Hall; right; exact Hl|].
  assert (Hty : Re.typeMatch (JS.trim ln) = None) by (apply Hall; left; reflexivity).
  unfold parseLine.
  destruct (JS.trim ln) as [|c r]; [exact Hst|].
  destruct (JS.startsWith "#" (c :: r) || JS.startsWith "//" (c :: r)); [exact Hst|].
  destruct (JS.eqb (c :: r) "model"); [exact Hst|].
  destruct (Re.schemaMatch (c :: r)); [exact Hst|].
  rewrite Hty.
  destruct (JS.eqb (c :: r) "relations"); [exact Hst|].
  rewrite Hst.
  destruct (Re.defineMatch (c :: r)) as [[n e]|];
    destruct (inRelations st);
    destruct (Re.conditionMatch (c :: r)) as [[n' p']|];
    try reflexivity;
    destruct (inCondition st); destruct (currentCondition st);
    try exact Hst;
    destruct (JS.eqb (c :: r) "}"); cbn [currentType];
    first [reflexivity | exact Hst].
Qed.

(** A define line before any type line is out of place. *)
Lemma before_any_type_out_of_place (lines : list str) :
  (forall ln, In ln lines -> Re.typeMatch (JS.trim ln) = None) ->
  out_of_place (fold_left parseLine lines initialState) = true.
Proof.
  intros H. unfold out_of_place.
  rewrite (no_type_line_no_current_type lines H initialState eq_refl).
  reflexivity.
Qed.

End DefineOutOfPlace.

(** C10, as stated, fails: a define line in the body of a condition, with no
    type line before it, is not ignored; it becomes part of the expression of
    the condition. *)
Lemma define_line_captured_by_condition :
  Re.defineMatch "define x: y" = Some ("x" : str, "y" : str)
  /\ parseDSL 1 captured_define_text
     = Returns (mkAuthorizationModel "1.1" []
                  (Some [entry "c" (mkCondition "c" "define x: y" None)]))
  /\ parseDSL 1 captured_define_text_without
     = Returns (mkAuthorizationModel "1.1" []
                  (Some [entry "c" (mkCondition "c" [] None)]))
  /\ parseDSL 1 captured_define_text <> parseDSL 1 captured_define_text_without.
Proof.
  repeat split; try (vm_compute; reflexivity).
  vm_compute. discriminate.
Qed.

(** C10, amended.  Take a text as its lines.  A define line that the loop
    meets while it has no current type (no type line so far, or a condition
    has closed the type) or is not inside a relations block, and while it is
    not capturing the body of a condition, is ignored: the text parses, at
    every recursion depth and with the same outcome, as the text without
    that line. *)
Theorem define_out_of_place_ignored (fuel : nat) (before after : list str)
    (defineLine : str) :
  (forall ln, In ln (before ++ defineLine :: after) -> ~ In LF ln) ->
  Re.defineMatch (JS.trim defineLine) <> None ->
  out_of_place (fold_left parseLine before initialState) = true ->
  capturing (fold_left parseLine before initialState) = false ->
  parseDSL fuel (JS.join JS.newline (before ++ defineLine :: after))
  = parseDSL fuel (JS.join JS.newline (before ++ after)).
Proof.
  intros Hlf Hd Hout Hcap. unfold parseDSL.
  rewrite !parseLines_split_join.
  - rewrite parseLines_without; [reflexivity|].
    apply parseLine_define_out_of_place; assumption.
  - intros x Hx. apply Hlf. apply in_app_or in Hx. apply in_or_app.
    destruct Hx as [Hx|Hx]; [left; exact Hx|right; right; exact Hx].
  - exact Hlf.
Qed.

Lemma is_line_spec (x : str) : is_line x = true -> ~ In LF x.
Proof.
  unfold is_line. intros H Hin.
  assert (E : existsb (Char.eqb LF) x = true).
  { apply existsb_exists. exists LF. split; [exact Hin|apply char_eqb_refl]. }
  rewrite E in H. discriminate H.
Qed.

Lemma are_lines_spec (l : list str) :
  forallb is_line l = true -> forall x, In x l -> ~ In LF x.
Proof.
  intros H x Hx. apply is_line_spec.
  rewrite forallb_forall in H. apply H. exact Hx.
Qed.

(** The amended C10 on a define line that follows a type line without a
    relations line. *)
Lemma define_out_of_place_ignored_witness :
  parseDSL 2
    (JS.join JS.newline
       (["model" : str; "  schema 1.1" : str; "type user" : str]
        ++ ("    define owner: [user]" : str) :: ["type document" : str]))
  = parseDSL 2
      (JS.join JS.newline
         (["model" : str; "  schema 1.1" : str; "type user" : str]
          ++ ["type document" : str])).
Proof.
  apply define_out_of_place_ignored.
  - apply are_lines_spec. reflexivity.
  - vm_compute. discriminate.
  - reflexivity.
  - reflexivity.
Defined.

(** ** Re-serialization *)


(** *** Characters, one by one *)

Section Characters.

Lemma in_all_ascii (c : ascii) : In c all_ascii.
Proof.
  unfold all_ascii. apply in_map_iff. exists (nat_of_ascii c). split.
  - apply ascii_nat_embedding.
  - apply in_seq. pose proof (nat_ascii_bounded c). lia.
Qed.

(** A property of characters that holds on the 256 of them. *)
Lemma for_all_ascii (P : ascii -> bool) :
  forallb P all_ascii = true -> forall c, P c = true.
Proof.
  intros H c. rewrite forallb_forall in H. apply H. apply in_all_ascii.
Qed.

Lemma word_piece (c : ascii) : Char.is_word c = true -> piece_char c = true.
Proof. intros H. unfold piece_char. rewrite H. reflexivity. Qed.

Lemma word_not_space (c : ascii) :
  Char.is_word c = true -> Char.is_space c = false.
Proof.
  intros H.
  pose proof (for_all_ascii
                (fun c => implb (Char.is_word c) (negb (Char.is_space c)))
                eq_refl c) as F.
  cbv beta in F. rewrite H in F. cbn in F. apply negb_true_iff. exact F.
Qed.

Lemma digit_word (c : ascii) : Char.is_digit c = true -> Char.is_word c = true.
Proof.
  intros H.
  pose proof (for_all_ascii
                (fun c => implb (Char.is_digit c) (Char.is_word c))
                eq_refl c) as F.
  cbv beta in F. rewrite H in F. exact F.
Qed.

Lemma ident_start_word (c : ascii) :
  Char.is_ident_start c = true -> Char.is_word c = true.
Proof.
  intros H.
  pose proof (for_all_ascii
                (fun c => implb (Char.is_ident_start c) (Char.is_word c))
                eq_refl c) as F.
  cbv beta in F. rewrite H in F. exact F.
Qed.

Lemma ident_start_not_digit (c : ascii) :
  Char.is_ident_start c = true -> Char.is_digit c = false.
Proof.
  intros H.
  pose proof (for_all_ascii
                (fun c => implb (Char.is_ident_start c) (negb (Char.is_digit c)))
                eq_refl c) as F.
  cbv beta in F. rewrite H in F. cbn in F. apply negb_true_iff. exact F.
Qed.

Lemma piece_not_bracket (c : ascii) : piece_char c = true -> not_bracket c = true.
Proof.
  intros H.
  pose proof (for_all_ascii (fun c => implb (piece_char c) (not_bracket c))
                eq_refl c) as F.
  cbv beta in F. rewrite H in F. exact F.
Qed.

Lemma piece_not_comma (c : ascii) : piece_char c = true -> not_comma c = true.
Proof.
  intros H.
  pose proof (for_all_ascii (fun c => implb (piece_char c) (not_comma c))
                eq_refl c) as F.
  cbv beta in F. rewrite H in F. exact F.
Qed.

Lemma piece_dot (c : ascii) : piece_char c = true -> Char.is_dot c = true.
Proof.
  intros H.
  pose proof (for_all_ascii (fun c => implb (piece_char c) (Char.is_dot c))
                eq_refl c) as F.
  cbv beta in F. rewrite H in F. exact F.
Qed.

(** What a word character is not. *)
Lemma word_not (c d : ascii) :
  Char.is_word d = false -> Char.is_word c = true -> Char.eqb c d = false.
Proof.
  intros Hd Hc. apply char_eqb_neq. intros ->. rewrite Hd in Hc. discriminate Hc.
Qed.

End Characters.

(** *** Lists of characters *)

Section Texts.

Lemma forallb_app_true {A : Type} (p : A -> bool) (a b : list A) :
  forallb p a = true -> forallb p b = true -> forallb p (a ++ b) = true.
Proof. intros Ha Hb. rewrite forallb_app, Ha, Hb. reflexivity. Qed.

Lemma forallb_impl {A : Type} (p q : A -> bool) (l : list A) :
  (forall x, p x = true -> q x = true) ->
  forallb p l = true -> forallb q l = true.
Proof.
  intros Hpq H. rewrite forallb_forall in *. intros x Hx. apply Hpq, H, Hx.
Qed.

Lemma takeWhile_app (p : ascii -> bool) (a b : str) :
  forallb p a = true -> stops p b = true -> JS.takeWhile p (a ++ b) = a.
Proof.
  intros Ha Hb. induction a as [|x a IH].
  - destruct b as [|c b]; [reflexivity|]. cbn in *.
    apply negb_true_iff in Hb. rewrite Hb. reflexivity.
  - cbn in *. apply andb_prop in Ha. destruct Ha as [Hx Ha].
    rewrite Hx, (IH Ha). reflexivity.
Qed.

Lemma dropWhile_app (p : ascii -> bool) (a b : str) :
  forallb p a = true -> stops p b = true -> JS.dropWhile p (a ++ b) = b.
Proof.
  intros Ha Hb. induction a as [|x a IH].
  - destruct b as [|c b]; [reflexivity|]. cbn in *.
    apply negb_true_iff in Hb. rewrite Hb. reflexivity.
  - cbn in *. apply andb_prop in Ha. destruct Ha as [Hx Ha].
    rewrite Hx. apply IH. exact Ha.
Qed.

Lemma plus_app (p : ascii -> bool) (a b : str) :
  a <> [] -> forallb p a = true -> stops p b = true ->
  Re.plus p (a ++ b) = Some (a, b).
Proof.
  intros Hne Ha Hb. unfold Re.plus.
  rewrite (takeWhile_app p a b Ha Hb), (dropWhile_app p a b Ha Hb).
  destruct a; [contradiction|reflexivity].
Qed.

Lemma plus_all (p : ascii -> bool) (a : str) :
  a <> [] -> forallb p a = true -> Re.plus p a = Some (a, []).
Proof.
  intros Hne Ha. rewrite <- (app_nil_r a) at 1.
  apply plus_app; [exact Hne|exact Ha|reflexivity].
Qed.

Lemma star_app (p : ascii -> bool) (a b : str) :
  forallb p a = true -> stops p b = true -> Re.star p (a ++ b) = b.
Proof. apply dropWhile_app. Qed.

Lemma lit_app (p r : str) : Re.lit p (p ++ r) = Some r.
Proof.
  unfold Re.lit. rewrite startsWith_app.
  rewrite skipn_app, skipn_all, Nat.sub_diag. reflexivity.
Qed.

Lemma trim_tight (s : str) : tight s = true -> JS.trim s = s.
Proof.
  destruct s as [|a s]; [reflexivity|].
  unfold tight. intros H. apply andb_prop in H. destruct H as [Ha Hl].
  apply negb_true_iff in Ha. apply negb_true_iff in Hl.
  unfold JS.trim, JS.trimStart, JS.trimEnd.
  cbn [JS.dropWhile]. rewrite Ha.
  assert (Hne : a :: s <> []) by discriminate.
  rewrite (app_removelast_last a Hne) at 1.
  rewrite rev_app_distr. cbn [rev app JS.dropWhile]. rewrite Hl.
  change (last (a :: s) a :: rev (removelast (a :: s)))
    with (rev [last (a :: s) a] ++ rev (removelast (a :: s))).
  rewrite <- rev_app_distr, rev_involutive.
  symmetry. apply app_removelast_last. exact Hne.
Qed.

Lemma trimStart_spaces (ws s : str) :
  forallb Char.is_space ws = true ->
  JS.trimStart (ws ++ s) = JS.trimStart s.
Proof.
  intros H. induction ws as [|x ws IH]; [reflexivity|].
  cbn in *. apply andb_prop in H. destruct H as [Hx H].
  unfold JS.trimStart in *. cbn. rewrite Hx. apply IH. exact H.
Qed.

(** Leading blanks before a tight text are all that [trim] removes. *)
Lemma trim_indent (ws s : str) :
  forallb Char.is_space ws = true -> tight s = true -> JS.trim (ws ++ s) = s.
Proof.
  intros Hws Hs. unfold JS.trim. rewrite (trimStart_spaces ws s Hws).
  apply trim_tight. exact Hs.
Qed.

Lemma last_app_nonempty {A : Type} (a b : list A) (d d' : A) :
  b <> [] -> last (a ++ b) d = last b d'.
Proof.
  intros Hb. induction a as [|x a IH].
  - cbn. destruct b as [|y b]; [contradiction|].
    clear Hb. revert y. induction b as [|z b IHb]; intros y; [reflexivity|].
    cbn in *. apply IHb.
  - cbn [app last]. destruct (a ++ b) eqn:E.
    + destruct a; destruct b; try discriminate E. contradiction.
    + exact IH.
Qed.

(** A text from its first character and its last. *)
Lemma tight_ends (a z : ascii) (mid : str) :
  Char.is_space a = false -> Char.is_space z = false ->
  tight (a :: mid ++ [z]) = true.
Proof.
  intros Ha Hz. unfold tight. rewrite Ha.
  change (a :: mid ++ [z]) with ((a :: mid) ++ [z]).
  rewrite (last_app_nonempty (a :: mid) [z] a z) by discriminate.
  cbn. rewrite Hz. reflexivity.
Qed.

Lemma tight_app (s t : str) :
  s <> [] -> t <> [] -> tight s = true -> tight t = true -> tight (s ++ t) = true.
Proof.
  intros Hs Ht Ts Tt. destruct s as [|a s]; [contradiction|].
  destruct t as [|b t]; [contradiction|].
  unfold tight in *. apply andb_prop in Ts. destruct Ts as [Ha _].
  apply andb_prop in Tt. destruct Tt as [_ Hl].
  cbn [app]. rewrite Ha.
  change (a :: s ++ b :: t) with ((a :: s) ++ b :: t).
  rewrite (last_app_nonempty (a :: s) (b :: t) a b) by discriminate.
  rewrite Hl. reflexivity.
Qed.

Lemma tight_app3 (s m t : str) :
  s <> [] -> t <> [] -> tight s = true -> tight t = true ->
  tight (s ++ m ++ t) = true.
Proof.
  intros Hs Ht Ts Tt. destruct s as [|a s]; [contradiction|].
  destruct t as [|b t]; [contradiction|].
  unfold tight in *. apply andb_prop in Ts. destruct Ts as [Ha _].
  apply andb_prop in Tt. destruct Tt as [_ Hl].
  cbn [app]. rewrite Ha. rewrite app_assoc.
  change (a :: (s ++ m) ++ b :: t) with ((a :: s ++ m) ++ b :: t).
  rewrite (last_app_nonempty (a :: s ++ m) (b :: t) a b) by discriminate.
  rewrite Hl. reflexivity.
Qed.

Lemma word_tight (w : str) : forallb Char.is_word w = true -> tight w = true.
Proof.
  intros H. destruct w as [|a w]; [reflexivity|].
  unfold tight. rewrite forallb_forall in H.
  rewrite (word_not_space a) by (apply H; left; reflexivity).
  rewrite (word_not_space (last (a :: w) a)).
  - reflexivity.
  - apply H. destruct (exists_last (l := a :: w)) as [l' [z E]]; [discriminate|].
    rewrite E. rewrite (last_app_nonempty l' [z] a z) by discriminate.
    cbn. apply in_or_app. right. left. reflexivity.
Qed.

End Texts.

(** *** Searching a text *)

Section Searching.

Lemma includes_first_char (c : ascii) (p s : str) :
  JS.includes (c :: p) s = true -> In c s.
Proof.
  induction s as [|x s IH]; cbn; intros H; [discriminate H|].
  apply orb_prop in H. destruct H as [H|H].
  - apply andb_prop in H. destruct H as [H _].
    apply char_eqb_eq in H. left. symmetry. exact H.
  - right. apply IH. exact H.
Qed.

Lemma not_in_forallb (c : ascii) (q : ascii -> bool) (s : str) :
  q c = false -> forallb q s = true -> ~ In c s.
Proof.
  intros Hc Hs Hin. rewrite forallb_forall in Hs.
  rewrite (Hs c Hin) in Hc. discriminate Hc.
Qed.

(** A text of word characters includes no text that starts otherwise. *)
Lemma word_includes (c : ascii) (p w : str) :
  Char.is_word c = false -> forallb Char.is_word w = true ->
  JS.includes (c :: p) w = false.
Proof.
  intros Hc Hw. destruct (JS.includes (c :: p) w) eqn:E; [|reflexivity].
  exfalso. apply (not_in_forallb c Char.is_word w Hc Hw).
  apply (includes_first_char c p w E).
Qed.

Lemma includes_unfold (p s : str) :
  JS.includes p s
  = JS.startsWith p s || match s with [] => false | _ :: r => JS.includes p r end.
Proof. destruct s; reflexivity. Qed.

Lemma includes_app (p a b : str) : JS.includes p (a ++ p ++ b) = true.
Proof.
  induction a as [|x a IH].
  - cbn [app]. rewrite includes_unfold, startsWith_app. reflexivity.
  - cbn [app JS.includes]. rewrite IH. apply orb_true_r.
Qed.

Lemma endsWith_app (p a : str) : JS.endsWith p (a ++ p) = true.
Proof. unfold JS.endsWith. rewrite rev_app_distr. apply startsWith_app. Qed.

Lemma endsWith_char (c z : ascii) (a : str) :
  JS.endsWith [c] (a ++ [z]) = Char.eqb c z.
Proof.
  unfold JS.endsWith. rewrite rev_app_distr. cbn. apply andb_true_r.
Qed.

(** The last character decides [endsWith] of a longer pattern too. *)
Lemma endsWith_last (p : str) (c z : ascii) (a : str) :
  Char.eqb c z = false -> JS.endsWith (p ++ [c]) (a ++ [z]) = false.
Proof.
  intros H. unfold JS.endsWith. rewrite !rev_app_distr. cbn. rewrite H.
  reflexivity.
Qed.

Lemma bracketSearch_head (body rest : str) :
  body <> [] -> forallb Re.not_rbracket body = true ->
  Re.bracketSearch ("[" ++ body ++ "]" ++ rest) = Some body.
Proof.
  intros Hne Hb.
  change ("[" ++ body ++ "]" ++ rest) with ("["%char :: body ++ "]"%char :: rest).
  cbn [Re.bracketSearch]. rewrite char_eqb_refl.
  rewrite takeWhile_app, dropWhile_app by (exact Hb || reflexivity).
  destruct body; [contradiction|reflexivity].
Qed.

Lemma bracketSearch_none (s : str) :
  forallb not_bracket s = true -> Re.bracketSearch s = None.
Proof.
  induction s as [|c s IH]; intros H; [reflexivity|].
  cbn in H. apply andb_prop in H. destruct H as [Hc H].
  cbn [Re.bracketSearch]. unfold not_bracket in Hc.
  apply andb_prop in Hc. destruct Hc as [Hc _].
  apply negb_true_iff in Hc. rewrite Hc. apply IH. exact H.
Qed.

(** The pieces of a comma-separated list, trimmed. *)
Lemma split_comma_join (ps : list str) :
  ps <> [] ->
  (forall p, In p ps -> forallb not_comma p = true /\ tight p = true) ->
  forall ws,
    forallb Char.is_space ws = true -> forallb not_comma ws = true ->
    map JS.trim (JS.split "," (ws ++ JS.join ", " ps)) = ps.
Proof.
  induction ps as [|p ps IH]; intros Hne Hall ws Hws Hwc; [contradiction|].
  destruct (Hall p (or_introl eq_refl)) as [Hpc Hpt].
  assert (Hno : ~ In ","%char (ws ++ p)).
  { apply (not_in_forallb _ not_comma); [reflexivity|].
    apply forallb_app_true; assumption. }
  destruct ps as [|q ps].
  - cbn [JS.join]. change (list_ascii_of_string ",") with [","%char].
    rewrite (split_single_none _ _ Hno). cbn [map].
    rewrite trim_indent by assumption. reflexivity.
  - change (JS.join ", " (p :: q :: ps))
      with (p ++ ","%char :: (" " ++ JS.join ", " (q :: ps))).
    change (list_ascii_of_string ",") with [","%char] in *.
    rewrite app_assoc, split_single_app, (split_single_none _ _ Hno).
    cbn [map app]. rewrite trim_indent by assumption. f_equal.
    apply IH; [discriminate| |reflexivity|reflexivity].
    intros x Hx. apply Hall. right. exact Hx.
Qed.

End Searching.

(** *** The bracket-aware scan *)

Section Scanning.

Variable operator : str.

Lemma scan_skip (x : str) :
  forall rest depth cur parts,
    splitByOperator_loop operator (length x) depth cur parts (x ++ rest)
    = splitByOperator_loop operator 0 depth cur parts rest.
Proof.
  induction x as [|c x IH]; intros rest depth cur parts; [reflexivity|].
  cbn [length app splitByOperator_loop]. apply IH.
Qed.

(** Inside brackets every character but a bracket is kept. *)
Lemma scan_inside (body : str) :
  forallb not_bracket body = true ->
  forall rest depth cur parts,
    (depth =? 0)%Z = false ->
    splitByOperator_loop operator 0 depth cur parts (body ++ rest)
    = splitByOperator_loop operator 0 depth (cur ++ body) parts rest.
Proof.
  induction body as [|c body IH]; intros Hb rest depth cur parts Hd.
  - rewrite app_nil_r. reflexivity.
  - cbn in Hb. apply andb_prop in Hb. destruct Hb as [Hc Hb].
    unfold not_bracket in Hc. apply andb_prop in Hc. destruct Hc as [Hc1 Hc2].
    apply negb_true_iff in Hc1. apply negb_true_iff in Hc2.
    cbn [app splitByOperator_loop]. rewrite Hc1, Hc2, Hd. cbn [andb].
    rewrite (IH Hb rest depth (cur ++ [c]) parts Hd).
    rewrite <- app_assoc. reflexivity.
Qed.

(** Outside brackets a text is kept when it has no bracket and the operator
    starts with a character that is not in it. *)
Lemma scan_plain (o : ascii) (op' : str) (w : str) :
  operator = o :: op' ->
  forallb (fun c => not_bracket c && negb (Char.eqb o c)) w = true ->
  forall rest depth cur parts,
    splitByOperator_loop operator 0 depth cur parts (w ++ rest)
    = splitByOperator_loop operator 0 depth (cur ++ w) parts rest.
Proof.
  intros Eop. induction w as [|c w IH]; intros Hw rest depth cur parts.
  - rewrite app_nil_r. reflexivity.
  - cbn in Hw. apply andb_prop in Hw. destruct Hw as [Hc Hw].
    apply andb_prop in Hc. destruct Hc as [Hb Ho].
    unfold not_bracket in Hb. apply andb_prop in Hb. destruct Hb as [Hb1 Hb2].
    apply negb_true_iff in Hb1. apply negb_true_iff in Hb2.
    apply negb_true_iff in Ho.
    cbn [app splitByOperator_loop]. rewrite Hb1, Hb2.
    assert (Hs : JS.startsWith operator (c :: w ++ rest) = false)
      by (rewrite Eop; cbn; rewrite Ho; reflexivity).
    rewrite Hs, andb_false_r.
    rewrite (IH Hw rest depth (cur ++ [c]) parts).
    rewrite <- app_assoc. reflexivity.
Qed.

End Scanning.

(** *** References *)

Section References.

Lemma wordTest_inv (w : str) :
  Re.wordTest w = true -> w <> [] /\ forallb Char.is_word w = true.
Proof.
  destruct w as [|a w]; [discriminate|]. intros H. split; [discriminate|exact H].
Qed.

Lemma word_last (w : str) :
  Re.wordTest w = true ->
  exists w' z, w = w' ++ [z] /\ Char.is_word z = true.
Proof.
  intros H. destruct (wordTest_inv w H) as [Hne Hw].
  destruct (exists_last Hne) as [w' [z E]]. exists w', z. split; [exact E|].
  rewrite forallb_forall in Hw. apply Hw. rewrite E.
  apply in_or_app. right. left. reflexivity.
Qed.

Lemma word_stops_space (w rest : str) :
  Re.wordTest w = true -> stops Char.is_space (w ++ rest) = true.
Proof.
  intros H. destruct w as [|a w]; [discriminate H|].
  cbn in *. apply andb_prop in H. destruct H as [Ha _].
  rewrite (word_not_space a Ha). reflexivity.
Qed.

Lemma word_pieces (w : str) :
  forallb Char.is_word w = true -> forallb piece_char w = true.
Proof. apply forallb_impl. exact word_piece. Qed.

(** A text that ends with a word does not end with [:*] or a bracket. *)
Lemma endsWith_word (p : str) (c : ascii) (pre w : str) :
  Char.is_word c = false -> Re.wordTest w = true ->
  JS.endsWith (p ++ [c]) (pre ++ w) = false.
Proof.
  intros Hc Hw. destruct (word_last w Hw) as [w' [z [E Hz]]].
  rewrite E, app_assoc. apply endsWith_last.
  apply char_eqb_neq. intros ->. rewrite Hz in Hc. discriminate Hc.
Qed.

Lemma endsWith_wildcard_word (pre w : str) :
  Re.wordTest w = true -> JS.endsWith ":*" (pre ++ w) = false.
Proof. intros Hw. exact (endsWith_word ":" "*" pre w eq_refl Hw). Qed.

Lemma endsWith_bracket_word (pre w : str) :
  Re.wordTest w = true -> JS.endsWith "]" (pre ++ w) = false.
Proof. intros Hw. exact (endsWith_word [] "]" pre w eq_refl Hw). Qed.

Lemma word_plain_text (w : str) : Re.wordTest w = true -> plain_text w.
Proof.
  intros H. destruct (wordTest_inv w H) as [Hne Hw].
  split; [exact Hne|]. split; [apply word_tight; exact Hw|].
  apply word_pieces. exact Hw.
Qed.

Lemma slice_off (t x : str) :
  JS.slice_to_end_minus (length x) (t ++ x) = t.
Proof.
  unfold JS.slice_to_end_minus. rewrite length_app.
  replace (length t + length x - length x) with (length t + 0) by lia.
  rewrite firstn_app_2. cbn. apply app_nil_r.
Qed.

Lemma parse_wildcard (t : str) :
  Re.wordTest t = true ->
  parseTypeReference (t ++ ":*") = mkRelationReference t None (Some tt) None.
Proof.
  intros Ht. destruct (word_plain_text t Ht) as [Hne [Htt _]].
  unfold parseTypeReference.
  rewrite trim_tight by (apply tight_app; try assumption; try discriminate; reflexivity).
  rewrite endsWith_app.
  replace (JS.slice_to_end_minus 2 (t ++ ":*")) with t
    by (symmetry; apply (slice_off t ":*")).
  reflexivity.
Qed.

Lemma parse_sub_relation (t x : str) :
  Re.wordTest t = true -> Re.wordTest x = true ->
  parseTypeReference (t ++ "#" ++ x) = mkRelationReference t (Some x) None None.
Proof.
  intros Ht Hx.
  destruct (word_plain_text t Ht) as [Hne [Htt _]].
  destruct (word_plain_text x Hx) as [Hxne [Hxt _]].
  destruct (wordTest_inv t Ht) as [_ Htw].
  destruct (wordTest_inv x Hx) as [_ Hxw].
  unfold parseTypeReference.
  rewrite trim_tight by (apply tight_app3; assumption).
  rewrite app_assoc.
  rewrite (endsWith_wildcard_word (t ++ "#") x) by assumption.
  rewrite <- app_assoc.
  unfold Re.hashMatch.
  rewrite (plus_app Char.is_word t ("#" ++ x)) by (assumption || reflexivity).
  rewrite lit_app.
  rewrite (plus_all Char.is_word x) by assumption.
  reflexivity.
Qed.

Lemma parse_with_condition (t c : str) :
  Re.wordTest t = true -> Re.wordTest c = true ->
  parseTypeReference (t ++ " with " ++ c)
  = mkRelationReference t None None (Some c).
Proof.
  intros Ht Hc.
  destruct (word_plain_text t Ht) as [Hne [Htt _]].
  destruct (word_plain_text c Hc) as [Hcne [Hct _]].
  destruct (wordTest_inv t Ht) as [_ Htw].
  destruct (wordTest_inv c Hc) as [_ Hcw].
  unfold parseTypeReference.
  rewrite trim_tight by (apply tight_app3; assumption).
  rewrite app_assoc.
  rewrite (endsWith_wildcard_word (t ++ " with ") c) by assumption.
  rewrite <- app_assoc.
  unfold Re.hashMatch, Re.condMatch.
  rewrite (plus_app Char.is_word t (" with " ++ c)) by (assumption || reflexivity).
  change (Re.lit "#" (" with " ++ c)) with (@None str).
  change (" with " ++ c) with (" " ++ "with" ++ " " ++ c).
  rewrite (plus_app Char.is_space " " ("with" ++ " " ++ c))
    by (discriminate || reflexivity).
  rewrite lit_app.
  rewrite (plus_app Char.is_space " " c)
    by (discriminate || reflexivity || (rewrite <- (app_nil_r c); apply word_stops_space; assumption)).
  rewrite (plus_all Char.is_word c) by assumption.
  reflexivity.
Qed.

Lemma parse_plain (t : str) :
  Re.wordTest t = true ->
  parseTypeReference t = mkRelationReference t None None None.
Proof.
  intros Ht.
  destruct (word_plain_text t Ht) as [Hne [Htt _]].
  destruct (wordTest_inv t Ht) as [_ Htw].
  unfold parseTypeReference.
  rewrite trim_tight by assumption.
  rewrite <- (app_nil_l t) at 1.
  rewrite (endsWith_wildcard_word [] t) by assumption.
  unfold Re.hashMatch, Re.condMatch.
  rewrite (plus_all Char.is_word t) by assumption.
  reflexivity.
Qed.

(** The text of a reference is read back as a reference with that text. *)
Lemma formatTypeRef_stable (r : RelationReference) :
  Simple.ref_ok r = true ->
  plain_text (formatTypeRef r)
  /\ formatTypeRef (parseTypeReference (formatTypeRef r)) = formatTypeRef r.
Proof.
  unfold Simple.ref_ok, Simple.word, formatTypeRef. intros H.
  apply andb_prop in H. destruct H as [Ht H].
  destruct (word_plain_text _ Ht) as [Hne [Htt Htp]].
  destruct (ref_wildcard r).
  { split.
    - split; [destruct (ref_type r); [contradiction|discriminate]|].
      split; [apply tight_app; try assumption; try discriminate; reflexivity|].
      apply forallb_app_true; [assumption|reflexivity].
    - rewrite parse_wildcard by assumption. reflexivity. }
  destruct (truthy (ref_relation r)) as [x|] eqn:Ex.
  { destruct (word_plain_text _ H) as [Hxne [Hxt Hxp]]. split.
    - split; [destruct (ref_type r); [contradiction|discriminate]|].
      split; [apply tight_app3; assumption|].
      apply forallb_app_true; [assumption|].
      apply forallb_app_true; [reflexivity|assumption].
    - rewrite parse_sub_relation by assumption. cbn.
      destruct x; [contradiction|reflexivity]. }
  destruct (truthy (ref_condition r)) as [c|] eqn:Ec.
  { destruct (word_plain_text _ H) as [Hcne [Hct Hcp]]. split.
    - split; [destruct (ref_type r); [contradiction|discriminate]|].
      split; [apply tight_app3; assumption|].
      apply forallb_app_true; [assumption|].
      apply forallb_app_true; [reflexivity|assumption].
    - rewrite parse_with_condition by assumption. cbn.
      destruct c; [contradiction|reflexivity]. }
  split; [split; [|split]; assumption|].
  rewrite parse_plain by assumption. reflexivity.
Qed.

End References.

(** *** The bracket list *)

Section BracketList.

Lemma body_not_bracket (c : ascii) : body_char c = true -> not_bracket c = true.
Proof.
  intros H.
  pose proof (for_all_ascii (fun c => implb (body_char c) (not_bracket c))
                eq_refl c) as F.
  cbv beta in F. rewrite H in F. exact F.
Qed.

Lemma body_not_rbracket (c : ascii) :
  body_char c = true -> Re.not_rbracket c = true.
Proof.
  intros H.
  pose proof (for_all_ascii (fun c => implb (body_char c) (Re.not_rbracket c))
                eq_refl c) as F.
  cbv beta in F. rewrite H in F. exact F.
Qed.

Lemma expr_dot (c : ascii) : expr_char c = true -> Char.is_dot c = true.
Proof.
  intros H.
  pose proof (for_all_ascii (fun c => implb (expr_char c) (Char.is_dot c))
                eq_refl c) as F.
  cbv beta in F. rewrite H in F. exact F.
Qed.

Lemma body_expr (c : ascii) : body_char c = true -> expr_char c = true.
Proof. intros H. unfold expr_char. rewrite H. reflexivity. Qed.

Lemma piece_body (c : ascii) : piece_char c = true -> body_char c = true.
Proof. intros H. unfold body_char. rewrite H. reflexivity. Qed.

Lemma join_chars (q : ascii -> bool) (sep : str) (ps : list str) :
  forallb q sep = true ->
  (forall p, In p ps -> forallb q p = true) ->
  forallb q (JS.join sep ps) = true.
Proof.
  intros Hsep. induction ps as [|p ps IH]; intros Hall; [reflexivity|].
  destruct ps as [|p' ps]; [apply Hall; left; reflexivity|].
  change (JS.join sep (p :: p' :: ps)) with (p ++ sep ++ JS.join sep (p' :: ps)).
  apply forallb_app_true; [apply Hall; left; reflexivity|].
  apply forallb_app_true; [exact Hsep|].
  apply IH. intros x Hx. apply Hall. right. exact Hx.
Qed.

Lemma join_nonempty (sep p : str) (ps : list str) :
  p <> [] -> JS.join sep (p :: ps) <> [].
Proof.
  intros Hp. destruct ps as [|q ps]; [exact Hp|].
  change (JS.join sep (p :: q :: ps)) with (p ++ sep ++ JS.join sep (q :: ps)).
  destruct p; [contradiction|discriminate].
Qed.

Lemma pieces_plain (refs : list RelationReference) (p : str) :
  refs_ok refs -> In p (pieces refs) -> plain_text p.
Proof.
  intros [Hok _] H. unfold pieces in H.
  apply in_map_iff in H. destruct H as [r [<- Hr]].
  rewrite forallb_forall in Hok.
  apply (formatTypeRef_stable r (Hok r Hr)).
Qed.

Lemma typeStrOf_body (refs : list RelationReference) :
  refs_ok refs -> typeStrOf refs = "[" ++ body refs ++ "]".
Proof.
  intros [_ Hne]. unfold typeStrOf. destruct refs; [contradiction|reflexivity].
Qed.

Lemma body_nonempty (refs : list RelationReference) :
  refs_ok refs -> body refs <> [].
Proof.
  intros Hok. pose proof (pieces_plain refs) as Hp.
  unfold body, pieces in *. destruct Hok as [Hok Hne].
  destruct refs as [|r rs]; [contradiction|].
  cbn [map]. apply join_nonempty.
  apply (Hp (formatTypeRef r)); [split; assumption|left; reflexivity].
Qed.

Lemma body_chars (refs : list RelationReference) :
  refs_ok refs -> forallb body_char (body refs) = true.
Proof.
  intros Hok. apply join_chars; [reflexivity|].
  intros p Hp. destruct (pieces_plain refs p Hok Hp) as [_ [_ H]].
  revert H. apply forallb_impl. exact piece_body.
Qed.

(** The direct types read from a text that starts with the bracket list. *)
Lemma directTypesOf_bracket (refs : list RelationReference) (rest : str) :
  refs_ok refs -> directTypesOf (typeStrOf refs ++ rest) = pieces refs.
Proof.
  intros Hok. rewrite (typeStrOf_body refs Hok). unfold directTypesOf.
  rewrite <- !app_assoc.
  rewrite bracketSearch_head;
    [|exact (body_nonempty refs Hok)
     |exact (forallb_impl _ _ _ body_not_rbracket (body_chars refs Hok))].
  apply (split_comma_join (pieces refs)) with (ws := []); try reflexivity.
  - destruct Hok as [_ Hne]. unfold pieces.
    destruct refs; [contradiction|discriminate].
  - intros p Hp. destruct (pieces_plain refs p Hok Hp) as [_ [Ht Hc]].
    split; [|exact Ht].
    revert Hc. apply forallb_impl. exact piece_not_comma.
Qed.

Lemma reformat_pieces (refs : list RelationReference) :
  refs_ok refs ->
  map formatTypeRef (map parseTypeReference (pieces refs)) = pieces refs.
Proof.
  intros [Hok _]. unfold pieces. rewrite !map_map. apply map_ext_in.
  intros r Hr. rewrite forallb_forall in Hok.
  apply (formatTypeRef_stable r (Hok r Hr)).
Qed.

(** The bracket list is written again from the references read from it. *)
Lemma typeStrOf_stable (refs : list RelationReference) (rest : str) :
  refs_ok refs ->
  typeStrOf (map parseTypeReference (directTypesOf (typeStrOf refs ++ rest)))
  = typeStrOf refs.
Proof.
  intros Hok. rewrite (directTypesOf_bracket refs rest Hok).
  unfold typeStrOf at 1. rewrite (reformat_pieces refs Hok).
  rewrite length_map. unfold pieces at 1. rewrite length_map.
  destruct Hok as [_ Hne]. destruct refs; [contradiction|reflexivity].
Qed.

Lemma typeStrOf_tight (refs : list RelationReference) :
  refs_ok refs -> tight (typeStrOf refs) = true.
Proof.
  intros Hok. rewrite (typeStrOf_body refs Hok).
  change ("[" ++ body refs ++ "]") with ("["%char :: body refs ++ ["]"%char]).
  apply tight_ends; reflexivity.
Qed.

Lemma typeStrOf_chars (refs : list RelationReference) :
  refs_ok refs -> forallb expr_char (typeStrOf refs) = true.
Proof.
  intros Hok. rewrite (typeStrOf_body refs Hok).
  apply forallb_app_true; [reflexivity|].
  apply forallb_app_true; [|reflexivity].
  exact (forallb_impl _ _ _ body_expr (body_chars refs Hok)).
Qed.

Lemma typeStrOf_brackets (refs : list RelationReference) :
  refs_ok refs ->
  JS.startsWith "[" (typeStrOf refs) && JS.endsWith "]" (typeStrOf refs) = true.
Proof.
  intros Hok. rewrite (typeStrOf_body refs Hok). rewrite startsWith_app.
  rewrite app_assoc, endsWith_app. reflexivity.
Qed.

End BracketList.

(** *** One relation *)

Section OneRelation.

Lemma word_no_operator (w : str) :
  forallb Char.is_word w = true ->
  JS.includes " or " w = false /\ JS.includes " and " w = false
  /\ JS.includes " but not " w = false /\ JS.includes "->" w = false.
Proof.
  intros H. repeat split.
  - exact (word_includes " " "or " w eq_refl H).
  - exact (word_includes " " "and " w eq_refl H).
  - exact (word_includes " " "but not " w eq_refl H).
  - exact (word_includes "-" ">" w eq_refl H).
Qed.

Lemma word_chars (w : str) :
  forallb Char.is_word w = true -> forallb expr_char w = true.
Proof.
  apply forallb_impl. intros c H. apply body_expr, piece_body, word_piece, H.
Qed.

(** A word is a computed reference. *)
Lemma parse_word (fuel : nat) (w : str) :
  Re.wordTest w = true ->
  parseRelationDefinition (S fuel) w = Returns (userset_computed w).
Proof.
  intros Hw. destruct (wordTest_inv w Hw) as [Hne Hww].
  destruct (word_no_operator w Hww) as [H1 [H2 [H3 H4]]].
  rewrite parseRelationDefinition_S. cbv zeta.
  rewrite (trim_tight w (word_tight w Hww)).
  rewrite <- (app_nil_l w) at 2.
  rewrite (endsWith_bracket_word [] w Hw), andb_false_r.
  rewrite H1, H2, H3, H4, Hw; reflexivity.
Qed.

Lemma written_refs_ok (refs : list RelationReference) :
  forallb Simple.ref_ok refs = true -> refs_ok (written_refs refs).
Proof.
  intros H. destruct refs as [|r rs]; split;
    first [discriminate | exact H | reflexivity].
Qed.

Lemma bracket_text (refs : list RelationReference) :
  or_else (typeStrOf refs) "[user]" = typeStrOf (written_refs refs).
Proof. destruct refs; reflexivity. Qed.

Lemma typeStrOf_cons (L : list RelationReference) :
  refs_ok L -> exists c r, typeStrOf L = c :: r.
Proof.
  intros Hok. rewrite (typeStrOf_body L Hok). eexists. eexists. reflexivity.
Qed.

Variable fuel : nat.

Lemma stable_direct (L : list RelationReference) :
  refs_ok L -> stable_text fuel (typeStrOf L).
Proof.
  intros Hok. destruct (typeStrOf_cons L Hok) as [c [r Ecr]].
  split; [rewrite Ecr; discriminate|].
  split; [apply typeStrOf_tight; exact Hok|].
  split; [exact (forallb_impl _ _ _ expr_dot (typeStrOf_chars L Hok))|].
  exists userset_this. split.
  - apply rule_whole_bracket.
    rewrite (trim_tight _ (typeStrOf_tight L Hok)).
    apply typeStrOf_brackets. exact Hok.
  - rewrite <- (app_nil_r (typeStrOf L)) at 1.
    cbn [buildRelationDefinition userset_this].
    rewrite (typeStrOf_stable L [] Hok). rewrite Ecr. reflexivity.
Qed.

Lemma stable_computed (w : str) :
  Re.wordTest w = true -> stable_text fuel w.
Proof.
  intros Hw. destruct (wordTest_inv w Hw) as [Hne Hww].
  split; [exact Hne|].
  split; [exact (word_tight w Hww)|].
  split; [exact (forallb_impl _ _ _ expr_dot (word_chars w Hww))|].
  exists (userset_computed w). split.
  - apply parse_word. exact Hw.
  - reflexivity.
Qed.

End OneRelation.

(** *** Computed references and tuple-to-usersets *)

Section Atoms.

Lemma word_atom_char (c : ascii) : Char.is_word c = true -> atom_char c = true.
Proof. intros H. unfold atom_char. rewrite H. reflexivity. Qed.

Lemma atom_char_plain (c : ascii) :
  atom_char c = true -> not_bracket c && negb (Char.eqb " " c) = true.
Proof.
  intros H.
  pose proof (for_all_ascii
                (fun c => implb (atom_char c)
                            (not_bracket c && negb (Char.eqb " " c)))
                eq_refl c) as F.
  cbv beta in F. rewrite H in F. exact F.
Qed.

Lemma atom_char_dot (c : ascii) : atom_char c = true -> Char.is_dot c = true.
Proof.
  intros H.
  pose proof (for_all_ascii (fun c => implb (atom_char c) (Char.is_dot c))
                eq_refl c) as F.
  cbv beta in F. rewrite H in F. exact F.
Qed.

Lemma atom_char_not_bracket (c : ascii) :
  atom_char c = true -> not_bracket c = true.
Proof.
  intros H. apply atom_char_plain in H. apply andb_prop in H. apply H.
Qed.

Lemma atom_text_chars (a : str) : atom_text a -> forallb atom_char a = true.
Proof.
  intros [Hw|[x [y [Hx [Hy ->]]]]].
  - destruct (wordTest_inv a Hw) as [_ H]. revert H.
    apply forallb_impl. exact word_atom_char.
  - destruct (wordTest_inv x Hx) as [_ Hxw].
    destruct (wordTest_inv y Hy) as [_ Hyw].
    apply forallb_app_true;
      [revert Hxw; apply forallb_impl; exact word_atom_char|].
    apply forallb_app_true; [reflexivity|].
    revert Hyw. apply forallb_impl. exact word_atom_char.
Qed.

Lemma atom_text_tight (a : str) : atom_text a -> a <> [] /\ tight a = true.
Proof.
  intros [Hw|[x [y [Hx [Hy ->]]]]].
  - destruct (wordTest_inv a Hw) as [Hne H]. split; [exact Hne|].
    apply word_tight. exact H.
  - destruct (wordTest_inv x Hx) as [Hxne Hxw].
    destruct (wordTest_inv y Hy) as [Hyne Hyw].
    split; [destruct x; [contradiction|discriminate]|].
    apply tight_app3; try assumption; apply word_tight; assumption.
Qed.

(** An atom ends with a word. *)
Lemma atom_text_end (a : str) :
  atom_text a -> exists pre w, a = pre ++ w /\ Re.wordTest w = true.
Proof.
  intros [Hw|[x [y [Hx [Hy ->]]]]].
  - exists [], a. split; [reflexivity|exact Hw].
  - exists (x ++ "->"), y. split; [rewrite <- app_assoc; reflexivity|exact Hy].
Qed.

Lemma atom_text_start (a : str) :
  atom_text a -> JS.startsWith "[" a = false.
Proof.
  intros H. pose proof (atom_text_chars a H) as Hc.
  destruct (atom_text_tight a H) as [Hne _].
  destruct a as [|c r]; [contradiction|].
  cbn in Hc. apply andb_prop in Hc. destruct Hc as [Hc _].
  apply atom_char_not_bracket in Hc. unfold not_bracket in Hc.
  apply andb_prop in Hc. destruct Hc as [Hc _]. apply negb_true_iff in Hc.
  change (list_ascii_of_string "[") with ["["%char].
  cbn [JS.startsWith]. rewrite andb_true_r.
  apply char_eqb_neq. intros E. apply char_eqb_neq in Hc. apply Hc.
  symmetry. exact E.
Qed.

(** A text without blanks includes no operator. *)
Lemma atom_no_operator (a : str) :
  forallb atom_char a = true ->
  JS.includes " or " a = false /\ JS.includes " and " a = false
  /\ JS.includes " but not " a = false.
Proof.
  intros H.
  assert (Hn : ~ In " "%char a) by (apply (not_in_forallb _ atom_char); [reflexivity|exact H]).
  repeat split.
  - destruct (JS.includes " or " a) eqn:E; [|reflexivity].
    exfalso. apply Hn. apply (includes_first_char " " "or " a E).
  - destruct (JS.includes " and " a) eqn:E; [|reflexivity].
    exfalso. apply Hn. apply (includes_first_char " " "and " a E).
  - destruct (JS.includes " but not " a) eqn:E; [|reflexivity].
    exfalso. apply Hn. apply (includes_first_char " " "but not " a E).
Qed.

Lemma split_go_plain (o : ascii) (sep' : str) (w : str) :
  forallb (fun c => negb (Char.eqb o c)) w = true ->
  forall rest cur,
    JS.split_go (o :: sep') 0 cur (w ++ rest)
    = JS.split_go (o :: sep') 0 (cur ++ w) rest.
Proof.
  induction w as [|c w IH]; intros Hw rest cur.
  - rewrite app_nil_r. reflexivity.
  - cbn in Hw. apply andb_prop in Hw. destruct Hw as [Hc Hw].
    apply negb_true_iff in Hc.
    cbn [app JS.split_go JS.startsWith]. rewrite Hc. cbn [andb].
    rewrite (IH Hw rest (cur ++ [c])). rewrite <- app_assoc. reflexivity.
Qed.

Lemma split_go_plain_end (o : ascii) (sep' : str) (w cur : str) :
  forallb (fun c => negb (Char.eqb o c)) w = true ->
  JS.split_go (o :: sep') 0 cur w = [cur ++ w].
Proof.
  intros Hw. pose proof (split_go_plain o sep' w Hw [] cur) as E.
  rewrite app_nil_r in E. exact E.
Qed.

Lemma word_no_dash (w : str) :
  forallb Char.is_word w = true ->
  forallb (fun c => negb (Char.eqb "-" c)) w = true.
Proof.
  apply forallb_impl. intros c H. apply negb_true_iff.
  apply char_eqb_neq. intros <-. discriminate H.
Qed.

Lemma split_arrow (x y : str) :
  forallb Char.is_word x = true -> forallb Char.is_word y = true ->
  JS.split "->" (x ++ "->" ++ y) = [x; y].
Proof.
  intros Hx Hy. unfold JS.split.
  change (list_ascii_of_string "->") with ["-"%char; ">"%char].
  rewrite (split_go_plain "-" [">"%char] x (word_no_dash x Hx)).
  cbn [app JS.split_go JS.startsWith Char.eqb Ascii.eqb Bool.eqb andb length
         Nat.sub].
  rewrite (split_go_plain_end "-" [">"%char] y [] (word_no_dash y Hy)).
  reflexivity.
Qed.

(** Two words around an arrow are a tuple-to-userset. *)
Lemma parse_arrow (fuel : nat) (x y : str) :
  Re.wordTest x = true -> Re.wordTest y = true ->
  parseRelationDefinition (S fuel) (x ++ "->" ++ y) = Returns (userset_ttu x y).
Proof.
  intros Hx Hy.
  assert (Ha : atom_text (x ++ "->" ++ y))
    by (right; exists x, y; repeat split; assumption).
  destruct (wordTest_inv x Hx) as [_ Hxw].
  destruct (wordTest_inv y Hy) as [_ Hyw].
  destruct (atom_text_tight _ Ha) as [_ Ht].
  destruct (atom_no_operator _ (atom_text_chars _ Ha)) as [H1 [H2 H3]].
  rewrite parseRelationDefinition_S. cbv zeta.
  rewrite (trim_tight _ Ht).
  rewrite (atom_text_start _ Ha). cbn [andb].
  rewrite H1, H2, H3.
  rewrite (includes_app "->" x y).
  rewrite (split_arrow x y Hxw Hyw). cbn [at_index nth_error bind].
  rewrite (trim_tight x (word_tight x Hxw)), (trim_tight y (word_tight y Hyw)).
  reflexivity.
Qed.

(** An atom is parsed to a node that is written as the atom. *)
Lemma parse_atom (fuel : nat) (a : str) :
  atom_text a ->
  exists u,
    parseRelationDefinition (S fuel) a = Returns u
    /\ this u = None
    /\ forall refs, buildRelationDefinition u refs = a.
Proof.
  intros [Hw|[x [y [Hx [Hy ->]]]]].
  - exists (userset_computed a). split; [apply parse_word; exact Hw|].
    split; reflexivity.
  - exists (userset_ttu x y). split; [apply parse_arrow; assumption|].
    split; reflexivity.
Qed.

Lemma parse_atoms (fuel : nat) (l : list str) :
  (forall a, In a l -> atom_text a) ->
  exists us,
    mapO (parseRelationDefinition (S fuel)) l = Returns us
    /\ map (fun c => buildRelationDefinition c []) us = l.
Proof.
  induction l as [|a l IH]; intros Hall.
  - exists []. split; reflexivity.
  - destruct (parse_atom fuel a (Hall a (or_introl eq_refl))) as [u [Hp [_ Hb]]].
    destruct (IH (fun x Hx => Hall x (or_intror Hx))) as [us [Hps Hbs]].
    exists (u :: us). split.
    + cbn [mapO]. rewrite Hp. cbn [bind]. rewrite Hps. reflexivity.
    + cbn [map]. rewrite Hb, Hbs. reflexivity.
Qed.

(** The nodes that are written as atoms. *)
Lemma atom_written (u : Userset) :
  Simple.atom u = true ->
  this u = None
  /\ exists a, atom_text a /\ forall refs, buildRelationDefinition u refs = a.
Proof.
  unfold Simple.atom, Simple.computed, Simple.tuple_to_userset, Simple.word.
  destruct u as [th cu ttu un it df].
  cbn [this computedUserset tupleToUserset].
  destruct th as [t|]; [discriminate|]. intros H. split; [reflexivity|].
  destruct cu as [c|].
  - destruct c as [ob rl]. cbn [relation] in H.
    destruct rl as [r|]; [|discriminate H]. rewrite orb_false_r in H.
    exists r. split; [left; exact H|reflexivity].
  - cbn [orb] in H. destruct ttu as [t|]; [|discriminate H].
    apply andb_prop in H. destruct H as [Hx Hy].
    exists (relation_or_empty (tupleset t) ++ "->"
            ++ relation_or_empty (ttu_computedUserset t)).
    split; [|reflexivity].
    right. eexists. eexists. repeat split; eassumption.
Qed.

End Atoms.

(** *** Unions *)

Section Unions.

Lemma atom_scans (a : str) : atom_text a -> scans_through a.
Proof.
  intros Ha rest cur parts.
  apply (scan_plain " or " " " "or " a eq_refl).
  exact (forallb_impl _ _ _ atom_char_plain (atom_text_chars a Ha)).
Qed.

Lemma bracket_scans (L : list RelationReference) :
  refs_ok L -> scans_through (typeStrOf L).
Proof.
  intros Hok rest cur parts. rewrite (typeStrOf_body L Hok).
  rewrite <- !app_assoc.
  change ("[" ++ body L ++ "]" ++ rest) with ("["%char :: (body L ++ "]"%char :: rest)).
  cbn [splitByOperator_loop]. rewrite char_eqb_refl.
  rewrite scan_inside;
    [|exact (forallb_impl _ _ _ body_not_bracket (body_chars L Hok))
     |reflexivity].
  cbn [splitByOperator_loop Char.eqb Ascii.eqb Bool.eqb andb].
  change (0 + 1 - 1)%Z with 0%Z.
  f_equal. rewrite <- !app_assoc. reflexivity.
Qed.

Lemma operand_text_facts (F : str) :
  operand_text F ->
  F <> [] /\ tight F = true /\ forallb Char.is_dot F = true /\ scans_through F.
Proof.
  intros [[L [Hok ->]]|Ha].
  - destruct (typeStrOf_cons L Hok) as [c [r E]].
    split; [rewrite E; discriminate|].
    split; [apply typeStrOf_tight; exact Hok|].
    split; [exact (forallb_impl _ _ _ expr_dot (typeStrOf_chars L Hok))|].
    apply bracket_scans. exact Hok.
  - destruct (atom_text_tight F Ha) as [Hne Ht].
    split; [exact Hne|]. split; [exact Ht|].
    split; [exact (forallb_impl _ _ _ atom_char_dot (atom_text_chars F Ha))|].
    apply atom_scans. exact Ha.
Qed.

Lemma join_cons (sep a b : str) (l : list str) :
  JS.join sep (a :: b :: l) = a ++ sep ++ JS.join sep (b :: l).
Proof. reflexivity. Qed.

(** The scan finds the operands of a joined union. *)
Lemma split_join_or (l : list str) :
  l <> [] ->
  (forall s, In s l -> s <> [] /\ tight s = true /\ scans_through s) ->
  forall parts,
    splitByOperator_loop " or " 0 0%Z [] parts (JS.join " or " l) = parts ++ l.
Proof.
  induction l as [|s l IH]; intros Hne Hall parts; [contradiction|].
  destruct (Hall s (or_introl eq_refl)) as [Hs [Ht Hscan]].
  destruct l as [|s2 l].
  - cbn [JS.join]. pose proof (Hscan [] [] parts) as E.
    rewrite app_nil_r in E. rewrite E.
    cbn [splitByOperator_loop app]. rewrite (trim_tight s Ht).
    destruct s; [contradiction|reflexivity].
  - rewrite join_cons, Hscan.
    change (" or " ++ JS.join " or " (s2 :: l))
      with (" "%char :: ("or " ++ JS.join " or " (s2 :: l))).
    cbn [splitByOperator_loop Char.eqb Ascii.eqb Bool.eqb andb].
    change ((0 =? 0)%Z) with true.
    change (JS.startsWith " or " (" "%char :: "or " ++ JS.join " or " (s2 :: l)))
      with true.
    cbn [andb length list_ascii_of_string Nat.sub app].
    rewrite (scan_skip " or " "or " (JS.join " or " (s2 :: l))).
    rewrite (trim_tight s Ht).
    rewrite IH; [|discriminate|intros x Hx; apply Hall; right; exact Hx].
    unfold JS.push. rewrite <- app_assoc. reflexivity.
Qed.

Lemma join_tight (sep : str) (l : list str) :
  (forall s, In s l -> s <> [] /\ tight s = true) ->
  tight (JS.join sep l) = true.
Proof.
  induction l as [|s l IH]; intros Hall; [reflexivity|].
  destruct (Hall s (or_introl eq_refl)) as [Hs Ht].
  destruct l as [|s2 l]; [exact Ht|].
  rewrite join_cons. apply tight_app3; try assumption.
  - apply join_nonempty. apply (Hall s2). right. left. reflexivity.
  - apply IH. intros x Hx. apply Hall. right. exact Hx.
Qed.

(** A joined list ends with its last element. *)
Lemma join_end (sep : str) (l : list str) (s : str) :
  l <> [] -> exists pre a, In a l /\ JS.join sep (s :: l) = pre ++ a.
Proof.
  revert s. induction l as [|b l IH]; intros s Hne; [contradiction|].
  destruct l as [|c l].
  - exists (s ++ sep), b. split; [left; reflexivity|].
    rewrite join_cons. cbn [JS.join]. rewrite <- app_assoc. reflexivity.
  - destruct (IH b) as [pre [a [Hin E]]]; [discriminate|].
    exists (s ++ sep ++ pre), a. split; [right; exact Hin|].
    rewrite join_cons, E, <- !app_assoc. reflexivity.
Qed.

Variable fuel : nat.

Lemma stable_atom (a : str) : atom_text a -> stable_text fuel a.
Proof.
  intros Ha. destruct (atom_text_tight a Ha) as [Hne Ht].
  split; [exact Hne|]. split; [exact Ht|].
  split; [exact (forallb_impl _ _ _ atom_char_dot (atom_text_chars a Ha))|].
  destruct (parse_atom (S fuel) a Ha) as [u [Hp [_ Hb]]].
  exists u. split; [exact Hp|apply Hb].
Qed.

(** The union of an operand and atoms. *)
Lemma stable_union (F : str) (atoms : list str) :
  operand_text F -> atoms <> [] ->
  (forall a, In a atoms -> atom_text a) ->
  stable_text fuel (JS.join " or " (F :: atoms)).
Proof.
  intros HF Hne Hatoms.
  destruct (operand_text_facts F HF) as [HFne [HFt [HFd HFs]]].
  assert (Hall : forall s, In s (F :: atoms) ->
                 s <> [] /\ tight s = true /\ scans_through s).
  { intros s [<-|Hs]; [repeat split; assumption|].
    destruct (atom_text_tight s (Hatoms s Hs)) as [H1 H2].
    repeat split; try assumption. apply atom_scans, Hatoms, Hs. }
  assert (Ht : tight (JS.join " or " (F :: atoms)) = true).
  { apply join_tight. intros s Hs. destruct (Hall s Hs) as [H1 [H2 _]].
    split; assumption. }
  split; [apply join_nonempty; exact HFne|].
  split; [exact Ht|].
  split.
  { apply join_chars; [reflexivity|].
    intros s [<-|Hs]; [exact HFd|].
    exact (forallb_impl _ _ _ atom_char_dot (atom_text_chars s (Hatoms s Hs))). }
  destruct (parse_atoms fuel atoms Hatoms) as [us [Hps Hbs]].
  assert (Hrule : forall uF,
    parseRelationDefinition (S fuel) F = Returns uF ->
    parseRelationDefinition (2 + fuel) (JS.join " or " (F :: atoms))
    = Returns (userset_union (uF :: us))).
  { intros uF HuF. change (2 + fuel) with (S (S fuel)).
    rewrite rule_union.
    - rewrite (trim_tight _ Ht). unfold splitByOperator.
      rewrite (split_join_or (F :: atoms)) by (discriminate || exact Hall).
      cbn [app mapO]. rewrite HuF. cbn [bind]. rewrite Hps. reflexivity.
    - rewrite (trim_tight _ Ht).
      destruct (join_end " or " atoms F Hne) as [pre [a [Hin E]]].
      destruct (atom_text_end a (Hatoms a Hin)) as [pre' [w [-> Hw]]].
      rewrite E, app_assoc.
      rewrite (endsWith_bracket_word (pre ++ pre') w Hw).
      apply andb_false_r.
    - rewrite (trim_tight _ Ht).
      destruct atoms as [|a atoms']; [contradiction|].
      rewrite join_cons. apply includes_app. }
  destruct HF as [[L [Hok ->]]|Ha].
  - exists (userset_union (userset_this :: us)). split.
    + apply Hrule. apply rule_whole_bracket.
      rewrite (trim_tight _ (typeStrOf_tight L Hok)).
      apply typeStrOf_brackets. exact Hok.
    + destruct atoms as [|a atoms']; [contradiction|].
      destruct (typeStrOf_cons L Hok) as [c [r Ecr]].
      cbn [buildRelationDefinition userset_union userset_this child this].
      rewrite (join_cons " or " (typeStrOf L) a atoms').
      rewrite (typeStrOf_stable L _ Hok).
      rewrite Hbs, Ecr. reflexivity.
  - destruct (parse_atom fuel F Ha) as [uF [HuF [Hthis HbF]]].
    exists (userset_union (uF :: us)). split; [apply Hrule; exact HuF|].
    cbn [buildRelationDefinition userset_union child].
    rewrite Hthis, Hbs, HbF. reflexivity.
Qed.

(** Every relation of the common cases has a stable text. *)
Lemma relation_stable (u : Userset) (refs : list RelationReference) :
  Simple.relation_ok u = true ->
  forallb Simple.ref_ok refs = true ->
  stable_text fuel (buildRelationDefinition u refs).
Proof.
  intros Hu Hrefs. pose proof (written_refs_ok refs Hrefs) as Hok.
  unfold Simple.relation_ok in Hu. apply orb_prop in Hu.
  destruct Hu as [Hu|Hu].
  { unfold Simple.operand in Hu. apply orb_prop in Hu. destruct Hu as [Hu|Hu].
    - unfold Simple.direct in Hu. destruct u as [[t|] cu ttu un it df];
        [|discriminate Hu].
      cbn [buildRelationDefinition]. rewrite bracket_text.
      apply stable_direct. exact Hok.
    - destruct (atom_written u Hu) as [_ [a [Ha Hb]]]. rewrite Hb.
      apply stable_atom. exact Ha. }
  unfold Simple.union_of_operands in Hu.
  destruct u as [th cu ttu un it df].
  cbn [this computedUserset tupleToUserset union] in Hu.
  destruct th as [t|]; [discriminate Hu|].
  destruct cu as [c|]; [discriminate Hu|].
  destruct ttu as [x|]; [discriminate Hu|].
  destruct un as [[[[|f rest]|]]|]; try discriminate Hu.
  cbn [child] in Hu. apply andb_prop in Hu. destruct Hu as [Hf Hrest].
  assert (Hrest' : exists atoms,
             (forall a, In a atoms -> atom_text a)
             /\ map (fun c => buildRelationDefinition c []) rest = atoms).
  { clear Hf. induction rest as [|r rest IH].
    - exists []. split; [intros a []|reflexivity].
    - cbn in Hrest. apply andb_prop in Hrest. destruct Hrest as [Hr Hrest].
      destruct (IH Hrest) as [atoms [Hatoms E]].
      destruct (atom_written r Hr) as [_ [a [Ha Hb]]].
      exists (a :: atoms). split.
      + intros y [<-|Hy]; [exact Ha|apply Hatoms; exact Hy].
      + cbn [map]. rewrite Hb, E. reflexivity. }
  destruct Hrest' as [atoms [Hatoms Eatoms]].
  assert (HF : exists F,
             operand_text F
             /\ match this f, typeStrOf refs with
                | Some _, _ :: _ => typeStrOf refs
                | _, _ => buildRelationDefinition f []
                end = F).
  { unfold Simple.operand in Hf. apply orb_prop in Hf. destruct Hf as [Hf|Hf].
    - unfold Simple.direct in Hf.
      destruct f as [[ft|] fcu fttu fun_ fit fdf]; [|discriminate Hf].
      exists (typeStrOf (written_refs refs)). split.
      + left. exists (written_refs refs). split; [exact Hok|reflexivity].
      + rewrite <- bracket_text. cbn [this buildRelationDefinition].
        destruct (typeStrOf refs); reflexivity.
    - destruct (atom_written f Hf) as [Hthis [a [Ha Hb]]].
      exists a. split; [right; exact Ha|].
      rewrite Hthis. apply Hb. }
  destruct HF as [F [HF EF]].
  replace (buildRelationDefinition
             (mkUserset None None None (Some (mkUsersets (Some (f :: rest))))
                it df) refs)
    with (JS.join " or " (F :: atoms))
    by (cbn [buildRelationDefinition child]; rewrite EF, Eatoms; reflexivity).
  destruct atoms as [|a atoms'].
  - cbn [JS.join]. destruct HF as [[L [HL ->]]|Ha].
    + apply stable_direct. exact HL.
    + apply stable_atom. exact Ha.
  - apply stable_union; [exact HF|discriminate|exact Hatoms].
Qed.

End Unions.

(** *** The lines of the serializer, parsed *)

Section ParsedLines.

Variable st : ParseState.

Lemma parseLine_model : parseLine st "model" = st.
Proof. reflexivity. Qed.

Lemma parseLine_blank : parseLine st [] = st.
Proof. reflexivity. Qed.

Lemma parseLine_relations :
  parseLine st "  relations"
  = mkParseState (result st) (currentType st) true (inCondition st)
      (currentCondition st) (conditionBody st).
Proof. reflexivity. Qed.

Lemma span_takeWhile (p : ascii -> bool) (s : str) :
  s = JS.takeWhile p s ++ JS.dropWhile p s
  /\ forallb p (JS.takeWhile p s) = true.
Proof.
  induction s as [|c s [IH1 IH2]]; [split; reflexivity|].
  cbn. destruct (p c) eqn:E; [|split; reflexivity].
  split; [cbn; f_equal; exact IH1|cbn; rewrite E; exact IH2].
Qed.

Lemma version_shape (v : str) :
  Simple.version_ok v = true ->
  exists a b,
    v = a ++ "." ++ b /\ a <> [] /\ b <> []
    /\ forallb Char.is_digit a = true /\ forallb Char.is_digit b = true.
Proof.
  unfold Simple.version_ok. intros H.
  destruct (span_takeWhile Char.is_digit v) as [E Ha].
  destruct (JS.takeWhile Char.is_digit v) as [|a0 a]; [discriminate H|].
  destruct (JS.dropWhile Char.is_digit v) as [|dot [|b0 b]]; try discriminate H.
  apply andb_prop in H. destruct H as [Hdot Hb].
  apply char_eqb_eq in Hdot. subst dot.
  exists (a0 :: a), (b0 :: b). repeat split; try discriminate; assumption.
Qed.

Lemma digits_tight (a : str) : forallb Char.is_digit a = true -> tight a = true.
Proof.
  intros H. apply word_tight. revert H. apply forallb_impl. exact digit_word.
Qed.

Lemma parseLine_schema (v : str) :
  Simple.version_ok v = true ->
  parseLine st ("  schema " ++ v)
  = mkParseState
      (mkParseResult v (types (result st)) (res_conditions (result st)))
      (currentType st) (inRelations st) (inCondition st)
      (currentCondition st) (conditionBody st).
Proof.
  intros Hv. destruct (version_shape v Hv) as [a [b [E [Ha [Hb [Hda Hdb]]]]]].
  unfold parseLine.
  change ("  schema " ++ v) with ("  " ++ "schema" ++ " " ++ v).
  assert (Ht : tight ("schema" ++ " " ++ v) = true).
  { apply tight_app3; try discriminate; try reflexivity.
    - rewrite E. destruct a; [contradiction|discriminate].
    - rewrite E. apply tight_app3; try assumption; apply digits_tight; assumption. }
  rewrite trim_indent by (reflexivity || exact Ht).
  set (t := "schema" ++ " " ++ v).
  assert (E0 : JS.startsWith "#" t || JS.startsWith "//" t = false) by reflexivity.
  assert (E1 : JS.eqb t "model" = false)
    by (apply eqb_neq; unfold t; cbn; discriminate).
  assert (E2 : Re.schemaMatch t = Some v).
  { unfold t, Re.schemaMatch. rewrite lit_app.
    rewrite (plus_app Char.is_space " " v);
      [|discriminate|reflexivity
       |rewrite E; destruct a as [|a0 a]; [contradiction|];
        cbn in Hda; apply andb_prop in Hda; destruct Hda as [Hd _];
        cbn; rewrite (word_not_space a0 (digit_word a0 Hd)); reflexivity].
    rewrite E.
    rewrite (plus_app Char.is_digit a ("." ++ b)) by (assumption || reflexivity).
    rewrite lit_app.
    rewrite (plus_all Char.is_digit b) by assumption.
    reflexivity. }
  assert (Ene : t <> []) by (unfold t; cbn; discriminate).
  clearbody t. destruct t as [|c r]; [contradiction|].
  rewrite E0, E1, E2. reflexivity.
Qed.

Lemma parseLine_type (name : str) :
  Re.wordTest name = true ->
  parseLine st ("type " ++ name)
  = mkParseState (flushType (result st) (currentType st))
      (Some (mkParsedType name [])) false (inCondition st)
      (currentCondition st) (conditionBody st).
Proof.
  intros Hn. destruct (wordTest_inv name Hn) as [Hne Hw].
  unfold parseLine.
  change ("type " ++ name) with ("type" ++ " " ++ name).
  assert (Ht : tight ("type" ++ " " ++ name) = true).
  { apply tight_app3; try discriminate; try reflexivity; try assumption.
    apply word_tight. exact Hw. }
  rewrite (trim_tight _ Ht).
  set (t := "type" ++ " " ++ name).
  assert (E0 : JS.startsWith "#" t || JS.startsWith "//" t = false) by reflexivity.
  assert (E1 : JS.eqb t "model" = false)
    by (apply eqb_neq; unfold t; cbn; discriminate).
  assert (E2 : Re.schemaMatch t = None) by reflexivity.
  assert (E3 : Re.typeMatch t = Some name).
  { unfold t, Re.typeMatch. rewrite lit_app.
    rewrite (plus_app Char.is_space " " name);
      [|discriminate|reflexivity
       |rewrite <- (app_nil_r name); apply word_stops_space; exact Hn].
    rewrite (plus_all Char.is_word name) by assumption.
    reflexivity. }
  assert (Ene : t <> []) by (unfold t; cbn; discriminate).
  clearbody t. destruct t as [|c r]; [contradiction|].
  rewrite E0, E1, E2, E3. reflexivity.
Qed.

Lemma parseLine_define (name E : str) (ty : ParsedType) :
  Re.wordTest name = true ->
  E <> [] -> tight E = true -> forallb Char.is_dot E = true ->
  currentType st = Some ty -> inRelations st = true ->
  parseLine st ("    define " ++ name ++ ": " ++ E)
  = mkParseState (result st)
      (Some (mkParsedType (pt_name ty)
               (JS.push (pt_relations ty)
                  (mkParsedRelation name E (directTypesOf E)))))
      (inRelations st) (inCondition st) (currentCondition st)
      (conditionBody st).
Proof.
  intros Hn HEne HEt HEd Hty Hrel.
  destruct (wordTest_inv name Hn) as [Hne Hw].
  unfold parseLine.
  change ("    define " ++ name ++ ": " ++ E)
    with ("    " ++ "define" ++ " " ++ name ++ ":" ++ " " ++ E).
  assert (Ht : tight ("define" ++ " " ++ name ++ ":" ++ " " ++ E) = true).
  { replace ("define" ++ " " ++ name ++ ":" ++ " " ++ E)
      with ("define" ++ (" " ++ name ++ ": ") ++ E)
      by (cbn; rewrite <- !app_assoc; reflexivity).
    apply tight_app3; try discriminate; try reflexivity; assumption. }
  rewrite trim_indent by (reflexivity || exact Ht).
  set (t := "define" ++ " " ++ name ++ ":" ++ " " ++ E).
  assert (E0 : JS.startsWith "#" t || JS.startsWith "//" t = false) by reflexivity.
  assert (E1 : JS.eqb t "model" = false)
    by (apply eqb_neq; unfold t; cbn; discriminate).
  assert (E2 : Re.schemaMatch t = None) by reflexivity.
  assert (E3 : Re.typeMatch t = None) by reflexivity.
  assert (E4 : JS.eqb t "relations" = false)
    by (apply eqb_neq; unfold t; cbn; discriminate).
  assert (E5 : Re.defineMatch t = Some (name, E)).
  { unfold t, Re.defineMatch. rewrite lit_app.
    rewrite (plus_app Char.is_space " " (name ++ ":" ++ " " ++ E));
      [|discriminate|reflexivity|apply word_stops_space; exact Hn].
    rewrite (plus_app Char.is_word name (":" ++ " " ++ E))
      by (assumption || reflexivity).
    change (Re.star Char.is_space (":" ++ " " ++ E)) with (":" ++ " " ++ E).
    rewrite lit_app.
    assert (Hs : Re.star Char.is_space (" " ++ E) = E).
    { apply star_app; [reflexivity|].
      destruct E as [|e0 E']; [reflexivity|].
      cbn in HEt. apply andb_prop in HEt. destruct HEt as [He0 _]. exact He0. }
    rewrite Hs. destruct E as [|e0 E']; [contradiction|].
    rewrite HEd. reflexivity. }
  assert (Ene : t <> []) by (unfold t; cbn; discriminate).
  clearbody t. destruct t as [|c r]; [contradiction|].
  rewrite E0, E1, E2, E3, E4, E5, Hty, Hrel.
  rewrite (trim_tight E HEt). reflexivity.
Qed.

End ParsedLines.

(** *** Objects built key by key *)

Section Objects.

Context {A : Type}.

Lemma has_keys (k : str) (o : Obj.t A) :
  Obj.has k o = existsb (JS.eqb k) (Obj.keys o).
Proof.
  induction o as [|[k' v] o IH]; [reflexivity|]. cbn. rewrite IH. reflexivity.
Qed.

Lemma has_app (k : str) (a b : Obj.t A) :
  Obj.has k (a ++ b) = Obj.has k a || Obj.has k b.
Proof.
  induction a as [|[k' v] a IH]; [reflexivity|].
  cbn. rewrite IH. apply orb_assoc.
Qed.

Lemma name_ok_facts (k : str) :
  Simple.name_ok k = true ->
  JS.eqb k "__proto__" = false /\ Obj.is_array_index k = false
  /\ Re.wordTest k = true.
Proof.
  unfold Simple.name_ok. intros H. apply andb_prop in H. destruct H as [Hi Hp].
  apply negb_true_iff in Hp. split; [exact Hp|].
  destruct k as [|c r]; [discriminate Hi|].
  cbn in Hi. apply andb_prop in Hi. destruct Hi as [Hc Hr]. split.
  - cbn. rewrite (ident_start_not_digit c Hc). reflexivity.
  - cbn. rewrite (ident_start_word c Hc). exact Hr.
Qed.

(** A new name is added at the end. *)
Lemma set_new (k : str) (v : A) (o : Obj.t A) :
  Simple.name_ok k = true -> Obj.has k o = false ->
  Obj.set k v o = o ++ [(k, v)].
Proof.
  intros Hk Hh. destruct (name_ok_facts k Hk) as [Hp [Hi _]].
  unfold Obj.set. rewrite Hp, Hh, Hi. reflexivity.
Qed.

Lemma get_absent (k : str) (o : Obj.t A) :
  Obj.has k o = false -> Obj.get k o = None.
Proof.
  induction o as [|[k' v] o IH]; [reflexivity|].
  cbn. intros H. apply orb_false_elim in H. destruct H as [H1 H2].
  rewrite H1. apply IH. exact H2.
Qed.

Lemma distinct_cons (k : str) (ks : list str) :
  Simple.distinct (k :: ks) = true ->
  existsb (JS.eqb k) ks = false /\ Simple.distinct ks = true.
Proof.
  cbn. intros H. apply andb_prop in H. destruct H as [H1 H2].
  apply negb_true_iff in H1. split; assumption.
Qed.

Lemma existsb_eqb_in (k : str) (ks : list str) :
  existsb (JS.eqb k) ks = false -> forall k', In k' ks -> JS.eqb k' k = false.
Proof.
  intros H k' Hin. apply eqb_neq. intros ->.
  assert (E : existsb (JS.eqb k) ks = true).
  { apply existsb_exists. exists k. split; [exact Hin|apply eqb_refl]. }
  rewrite E in H. discriminate H.
Qed.

End Objects.

(** *** One type *)

Section OneType.

Variable fuel : nat.
Variable td : TypeDefinition.

Hypothesis td_ok : Simple.type_ok td = true.

Lemma td_type_word : Re.wordTest (td_type td) = true.
Proof.
  unfold Simple.type_ok in td_ok. apply andb_prop in td_ok. apply td_ok.
Qed.

Lemma relations_distinct : Simple.distinct (map fst (relations_of td)) = true.
Proof.
  unfold Simple.type_ok in td_ok. apply andb_prop in td_ok.
  destruct td_ok as [_ H]. unfold relations_of.
  destruct (td_relations td) as [rels|]; [|reflexivity].
  apply andb_prop in H. destruct H as [H _].
  apply andb_prop in H. destruct H as [_ H]. exact H.
Qed.

Lemma relations_ok (e : str * Userset) : In e (relations_of td) -> entry_ok fuel td e.
Proof.
  unfold Simple.type_ok in td_ok. apply andb_prop in td_ok.
  destruct td_ok as [_ H]. unfold relations_of.
  destruct (td_relations td) as [rels|]; [|contradiction].
  apply andb_prop in H. destruct H as [H Hall].
  apply andb_prop in H. destruct H as [Hnames _].
  intros Hin.
  rewrite forallb_forall in Hall. specialize (Hall e Hin).
  apply andb_prop in Hall. destruct Hall as [Hu Hrefs].
  rewrite forallb_forall in Hnames.
  assert (Hn : Simple.name_ok (fst e) = true)
    by (apply Hnames; unfold Obj.keys; apply in_map; exact Hin).
  destruct (relation_stable fuel (snd e) (directTypesFor td (fst e)) Hu Hrefs)
    as [Hne [Ht [Hd [u' [Hp Hb]]]]].
  unfold entry_ok, reparse, reread, text_of.
  rewrite Hp. repeat split; assumption.
Qed.

(** The define lines of a type, read one after the other. *)
Lemma fold_define_lines (rels : list (str * Userset)) :
  (forall e, In e rels -> entry_ok fuel td e) ->
  forall st ty,
    currentType st = Some ty -> inRelations st = true ->
    fold_left parseLine (map (define_line td) rels) st
    = mkParseState (result st)
        (Some (mkParsedType (pt_name ty)
                 (pt_relations ty ++ map (parsedRel td) rels)))
        true (inCondition st) (currentCondition st) (conditionBody st).
Proof.
  induction rels as [|e rels IH]; intros Hall st ty Hty Hrel.
  - cbn. rewrite app_nil_r. destruct st as [res cur inr inc cc cb].
    cbn in *. subst. destruct ty. reflexivity.
  - cbn [map fold_left].
    destruct (Hall e (or_introl eq_refl)) as [Hn [Hne [Ht [Hd _]]]].
    destruct (name_ok_facts _ Hn) as [_ [_ Hw]].
    unfold define_line at 2.
    rewrite (parseLine_define st (fst e) (text_of td e) ty Hw Hne Ht Hd Hty Hrel).
    erewrite IH;
      [|intros x Hx; apply Hall; right; exact Hx|reflexivity|exact Hrel].
    cbn [result currentType inRelations inCondition currentCondition
           conditionBody pt_name pt_relations].
    unfold JS.push. rewrite <- app_assoc. reflexivity.
Qed.

Lemma typeLines_shape :
  typeLinesForEdit td
  = ("type " ++ td_type td)
    :: match (relations_of td) with
       | [] => []
       | _ :: _ => ("  relations" : str) :: map (define_line td) (relations_of td)
       end
    ++ [[]].
Proof.
  unfold typeLinesForEdit, relations_of.
  destruct (td_relations td) as [[|e rels]|]; reflexivity.
Qed.

(** The lines of a type: the type that was open is added to the result and
    the parsed type is the open one. *)
Lemma fold_type_lines (st : ParseState) :
  exists inRel,
    fold_left parseLine (typeLinesForEdit td) st
    = mkParseState (flushType (result st) (currentType st)) (Some (parsedType td))
        inRel (inCondition st) (currentCondition st) (conditionBody st).
Proof.
  rewrite typeLines_shape. cbn [fold_left].
  rewrite (parseLine_type st (td_type td) td_type_word).
  unfold parsedType.
  pose proof relations_ok as Hall.
  destruct (relations_of td) as [|e rels].
  - exists false. reflexivity.
  - exists true. cbn [app fold_left]. rewrite parseLine_relations.
    rewrite fold_left_app.
    rewrite (fold_define_lines (e :: rels) Hall _ (mkParsedType (td_type td) []))
      by reflexivity.
    reflexivity.
Qed.

End OneType.

Section ConvertedType.

Variable fuel : nat.
Variable td : TypeDefinition.
Hypothesis td_ok : Simple.type_ok td = true.

Lemma has_metadata_entry (k : str) (e : str * Userset) :
  JS.eqb k (fst e) = false -> Obj.has k (metadata_entry td e) = false.
Proof.
  intros H. unfold metadata_entry.
  destruct (0 <? length (directTypesOf (text_of td e))); [|reflexivity].
  cbn. rewrite H. reflexivity.
Qed.

Lemma has_converted_metadata (k : str) (rels : list (str * Userset)) :
  existsb (JS.eqb k) (map fst rels) = false ->
  Obj.has k (converted_metadata td rels) = false.
Proof.
  induction rels as [|e rels IH]; [reflexivity|].
  cbn [map existsb]. intros H. apply orb_false_elim in H. destruct H as [H1 H2].
  unfold converted_metadata. cbn [flat_map]. rewrite has_app.
  rewrite (has_metadata_entry k e H1).
  apply IH. exact H2.
Qed.

Lemma convertRelations_ok (rels : list (str * Userset)) :
  (forall e, In e rels -> entry_ok fuel td e) ->
  Simple.distinct (map fst rels) = true ->
  forall racc macc,
    (forall e, In e rels ->
               Obj.has (fst e) racc = false /\ Obj.has (fst e) macc = false) ->
    convertRelations (2 + fuel) (map (parsedRel td) rels) racc macc
    = Returns (racc ++ converted_relations fuel td rels,
               macc ++ converted_metadata td rels).
Proof.
  induction rels as [|e rels IH]; intros Hall Hd racc macc Hacc.
  - cbn. rewrite !app_nil_r. reflexivity.
  - destruct (Hall e (or_introl eq_refl)) as [Hn [_ [_ [_ [Hp _]]]]].
    destruct (Hacc e (or_introl eq_refl)) as [Hr Hm].
    destruct (distinct_cons _ _ Hd) as [Hfresh Hd'].
    cbn [map convertRelations parsedRel rel_definition rel_name rel_directTypes].
    rewrite Hp. cbn [bind].
    rewrite (set_new (fst e) _ racc Hn Hr).
    assert (Hmeta :
      (if 0 <? length (directTypesOf (text_of td e))
       then Obj.set (fst e)
              (mkRelationMetadata
                 (Some (map parseTypeReference (directTypesOf (text_of td e)))))
              macc
       else macc)
      = macc ++ metadata_entry td e).
    { unfold metadata_entry.
      destruct (0 <? length (directTypesOf (text_of td e)));
        [apply set_new; assumption|symmetry; apply app_nil_r]. }
    rewrite Hmeta.
    rewrite IH.
    + unfold converted_relations, converted_metadata. cbn [map flat_map].
      rewrite <- !app_assoc. reflexivity.
    + intros x Hx. apply Hall. right. exact Hx.
    + exact Hd'.
    + intros x Hx.
      assert (Hxe : JS.eqb (fst x) (fst e) = false)
        by (apply (existsb_eqb_in _ _ Hfresh); apply in_map; exact Hx).
      destruct (Hacc x (or_intror Hx)) as [Hxr Hxm].
      rewrite !has_app, Hxr, Hxm. cbn [Obj.has orb].
      rewrite Hxe. split; [reflexivity|].
      apply has_metadata_entry. exact Hxe.
Qed.

Lemma convertType_parsed :
  convertType (2 + fuel) (parsedType td) = Returns (converted fuel td).
Proof.
  unfold convertType, parsedType, converted. cbn [pt_relations pt_name].
  pose proof (relations_ok fuel td td_ok) as Hall.
  pose proof (relations_distinct td td_ok) as Hd.
  destruct (relations_of td) as [|e rels]; [reflexivity|].
  cbn [map length Nat.ltb Nat.leb].
  change (parsedRel td e :: map (parsedRel td) rels)
    with (map (parsedRel td) (e :: rels)).
  rewrite (convertRelations_ok (e :: rels) Hall Hd Obj.empty Obj.empty)
    by (intros; split; reflexivity).
  reflexivity.
Qed.

(** The direct types found for a relation of the (converted fuel td) type are the ones
    read from its text. *)
Lemma get_converted_metadata (rels : list (str * Userset)) (e : str * Userset) :
  Simple.distinct (map fst rels) = true -> In e rels ->
  match Obj.get (fst e) (converted_metadata td rels) with
  | Some rm =>
      match directly_related_user_types rm with
      | Some l => l
      | None => []
      end
  | None => []
  end = reread (text_of td e).
Proof.
  induction rels as [|e0 rels IH]; intros Hd Hin; [contradiction|].
  destruct (distinct_cons _ _ Hd) as [Hfresh Hd'].
  change (converted_metadata td (e0 :: rels))
    with (metadata_entry td e0 ++ converted_metadata td rels).
  destruct Hin as [->|Hin].
  - unfold metadata_entry at 1.
    destruct (0 <? length (directTypesOf (text_of td e))) eqn:El.
    + cbn [app Obj.get]. rewrite eqb_refl. reflexivity.
    + cbn [app].
      rewrite (get_absent _ _ (has_converted_metadata _ _ Hfresh)).
      unfold reread.
      destruct (directTypesOf (text_of td e)); [reflexivity|discriminate El].
  - assert (Hne : JS.eqb (fst e) (fst e0) = false)
      by (apply (existsb_eqb_in _ _ Hfresh); apply in_map; exact Hin).
    unfold metadata_entry at 1.
    destruct (0 <? length (directTypesOf (text_of td e0))).
    + cbn [app Obj.get fst]. rewrite Hne. apply IH; assumption.
    + cbn [app]. apply IH; assumption.
Qed.

(** The (converted fuel td) type is written as the type it comes from. *)
Lemma converted_lines : typeLinesForEdit (converted fuel td) = typeLinesForEdit td.
Proof.
  rewrite (typeLines_shape td).
  pose proof (relations_ok fuel td td_ok) as Hall.
  pose proof (relations_distinct td td_ok) as Hd.
  unfold converted.
  destruct (relations_of td) as [|e rels] eqn:Erels; [reflexivity|].
  rewrite <- Erels in *.
  unfold typeLinesForEdit. cbn [td_type td_relations].
  assert (Hlen : (0 <? length (Obj.keys (converted_relations fuel td (relations_of td))))
                 = true).
  { unfold Obj.keys, converted_relations. rewrite !length_map, Erels.
    reflexivity. }
  rewrite Hlen, Erels. rewrite <- Erels.
  f_equal. f_equal. f_equal.
  unfold Obj.entries, converted_relations. rewrite map_map.
  apply map_ext_in. intros x Hx. cbn [fst snd]. unfold define_line.
  f_equal. f_equal. f_equal.
  unfold directTypesFor. cbn [td_metadata md_relations].
  rewrite (get_converted_metadata (relations_of td) x Hd Hx).
  apply (Hall x Hx).
Qed.

End ConvertedType.

(** *** Conditions *)

Section Conditions.

Lemma fold_set_append {A B : Type} (k : B -> str) (v : B -> A) (l : list B) :
  forallb Simple.name_ok (map k l) = true ->
  Simple.distinct (map k l) = true ->
  forall acc,
    (forall x, In x l -> Obj.has (k x) acc = false) ->
    fold_left (fun acc x => Obj.set (k x) (v x) acc) l acc
    = acc ++ map (fun x => (k x, v x)) l.
Proof.
  induction l as [|x l IH]; intros Hn Hd acc Hacc.
  - cbn. rewrite app_nil_r. reflexivity.
  - cbn [map forallb] in Hn. apply andb_prop in Hn. destruct Hn as [Hx Hn].
    destruct (distinct_cons _ _ Hd) as [Hfresh Hd'].
    cbn [fold_left map].
    rewrite (set_new (k x) (v x) acc Hx (Hacc x (or_introl eq_refl))).
    rewrite (IH Hn Hd').
    + rewrite <- app_assoc. reflexivity.
    + intros y Hy. rewrite has_app, (Hacc y (or_intror Hy)).
      cbn [Obj.has orb]. rewrite orb_false_r.
      apply (existsb_eqb_in _ _ Hfresh). apply in_map. exact Hy.
Qed.

(** **** Parameters *)

Lemma param_text_plain (e : str * ConditionParamTypeRef) :
  param_ok e -> plain_text (param_text e).
Proof.
  intros [Hn Ht].
  destruct (word_plain_text _ Hn) as [Hne [Hnt Hnp]].
  destruct (word_plain_text _ Ht) as [Hte [Htt Htp]].
  unfold param_text. split; [destruct (fst e); [contradiction|discriminate]|].
  split; [apply tight_app3; assumption|].
  apply forallb_app_true; [assumption|].
  apply forallb_app_true; [reflexivity|assumption].
Qed.

Lemma paramMatch_text (e : str * ConditionParamTypeRef) :
  param_ok e ->
  Re.paramMatch (param_text e) = Some (fst e, type_name (snd e)).
Proof.
  intros [Hn Ht].
  destruct (wordTest_inv _ Hn) as [Hne Hnw].
  destruct (wordTest_inv _ Ht) as [Hte Htw].
  unfold Re.paramMatch, param_text.
  rewrite (plus_app Char.is_word (fst e) (": " ++ type_name (snd e)))
    by (assumption || reflexivity).
  change (Re.star Char.is_space (": " ++ type_name (snd e)))
    with (":" ++ " " ++ type_name (snd e)).
  rewrite lit_app.
  rewrite (star_app Char.is_space " " (type_name (snd e)))
    by (reflexivity
        || (rewrite <- (app_nil_r (type_name (snd e)));
            apply word_stops_space; exact Ht)).
  rewrite (plus_all Char.is_word _ Hte Htw). reflexivity.
Qed.

Lemma fold_read_params (l : list (str * ConditionParamTypeRef)) :
  (forall e, In e l -> param_ok e) ->
  forall acc,
    fold_left read_param (map param_text l) acc
    = fold_left (fun acc e =>
                   Obj.set (fst e) (mkConditionParamTypeRef (type_name (snd e)))
                     acc) l acc.
Proof.
  induction l as [|e l IH]; intros Hall acc; [reflexivity|].
  cbn [map fold_left]. unfold read_param at 2.
  rewrite (paramMatch_text e (Hall e (or_introl eq_refl))).
  apply IH. intros x Hx. apply Hall. right. exact Hx.
Qed.

Lemma fold_left_trim (f : Obj.t ConditionParamTypeRef -> str -> Obj.t ConditionParamTypeRef)
    (l : list str) :
  forall acc,
    fold_left (fun acc pair => f acc (JS.trim pair)) l acc
    = fold_left f (map JS.trim l) acc.
Proof.
  induction l as [|x l IH]; intros acc; [reflexivity|]. cbn. apply IH.
Qed.

Lemma params_shape (o : Obj.t ConditionParamTypeRef) :
  Simple.params_ok (Some o) = true ->
  forallb Simple.name_ok (map fst o) = true
  /\ Simple.distinct (map fst o) = true
  /\ forall e, In e o -> param_ok e.
Proof.
  unfold Simple.params_ok, Obj.keys, Obj.entries, Simple.word. intros H.
  apply andb_prop in H. destruct H as [H Ht].
  apply andb_prop in H. destruct H as [Hn Hd].
  split; [exact Hn|]. split; [exact Hd|].
  intros e He. split.
  - rewrite forallb_forall in Hn.
    apply (name_ok_facts (fst e)). apply Hn. apply in_map. exact He.
  - rewrite forallb_forall in Ht. apply Ht. exact He.
Qed.

Lemma eta_params (o : Obj.t ConditionParamTypeRef) :
  map (fun e => (fst e, mkConditionParamTypeRef (type_name (snd e)))) o = o.
Proof.
  induction o as [|[n [t]] o IH]; [reflexivity|]. cbn. rewrite IH. reflexivity.
Qed.

(** The parameters read from the text of the parameters. *)
Lemma parseConditionParams_written (o : Obj.t ConditionParamTypeRef) :
  Simple.params_ok (Some o) = true ->
  parseConditionParams (formatConditionParams (Some o))
  = match o with [] => None | _ :: _ => Some o end.
Proof.
  intros Hok. destruct (params_shape o Hok) as [Hn [Hd Hall]].
  destruct o as [|e o]; [reflexivity|].
  unfold formatConditionParams, Obj.entries.
  change (map (fun e0 => fst e0 ++ ": " ++ type_name (snd e0)) (e :: o))
    with (map param_text (e :: o)).
  set (P := JS.join ", " (map param_text (e :: o))).
  assert (Hplain : forall p, In p (map param_text (e :: o)) -> plain_text p).
  { intros p Hp. apply in_map_iff in Hp. destruct Hp as [x [<- Hx]].
    apply param_text_plain. apply Hall. exact Hx. }
  assert (Ht : tight P = true).
  { apply join_tight. intros p Hp. destruct (Hplain p Hp) as [H1 [H2 _]].
    split; assumption. }
  assert (Hne : P <> []).
  { unfold P. cbn [map]. apply join_nonempty.
    apply (Hplain (param_text e)). left. reflexivity. }
  unfold parseConditionParams. rewrite (trim_tight P Ht).
  destruct P as [|c r] eqn:EP; [contradiction|]. rewrite <- EP.
  change (fun result pair =>
            match Re.paramMatch (JS.trim pair) with
            | Some (n, ty) => Obj.set n (mkConditionParamTypeRef ty) result
            | None => result
            end)
    with (fun result pair => read_param result (JS.trim pair)).
  rewrite fold_left_trim.
  pose proof (split_comma_join (map param_text (e :: o))) as Hs.
  specialize (Hs ltac:(discriminate)).
  assert (Hpieces : forall p, In p (map param_text (e :: o)) ->
            forallb not_comma p = true /\ tight p = true).
  { intros p Hp. destruct (Hplain p Hp) as [_ [H2 H3]]. split; [|exact H2].
    revert H3. apply forallb_impl. exact piece_not_comma. }
  specialize (Hs Hpieces [] eq_refl eq_refl). cbn [app] in Hs.
  fold P in Hs. rewrite EP in Hs. rewrite EP. rewrite Hs.
  rewrite (fold_read_params (e :: o) Hall).
  rewrite (fold_set_append fst
             (fun x => mkConditionParamTypeRef (type_name (snd x)))
             (e :: o) Hn Hd Obj.empty (fun _ _ => eq_refl)).
  cbn [app Obj.empty]. rewrite eta_params. reflexivity.
Qed.

(** The text of the parameters is written again from what is read from it. *)
Lemma formatConditionParams_stable (p : option (Obj.t ConditionParamTypeRef)) :
  Simple.params_ok p = true ->
  formatConditionParams (parseConditionParams (formatConditionParams p))
  = formatConditionParams p.
Proof.
  intros Hok. destruct p as [o|]; [|reflexivity].
  rewrite (parseConditionParams_written o Hok).
  destruct o; reflexivity.
Qed.

Lemma piece_not_rparen (c : ascii) :
  body_char c = true -> Re.not_rparen c = true.
Proof.
  intros H.
  pose proof (for_all_ascii (fun c => implb (body_char c) (Re.not_rparen c))
                eq_refl c) as F.
  cbv beta in F. rewrite H in F. exact F.
Qed.

Lemma formatConditionParams_chars (p : option (Obj.t ConditionParamTypeRef)) :
  Simple.params_ok p = true ->
  forallb body_char (formatConditionParams p) = true.
Proof.
  intros Hok. destruct p as [o|]; [|reflexivity].
  destruct (params_shape o Hok) as [_ [_ Hall]].
  unfold formatConditionParams, Obj.entries.
  apply join_chars; [reflexivity|].
  intros x Hx. apply in_map_iff in Hx. destruct Hx as [e [<- He]].
  destruct (param_text_plain e (Hall e He)) as [_ [_ H]].
  revert H. apply forallb_impl. exact piece_body.
Qed.

End Conditions.

Lemma dot_no_LF (x : str) : forallb Char.is_dot x = true -> ~ In LF x.
Proof. apply not_in_forallb. reflexivity. Qed.

Lemma word_dots (w : str) :
  forallb Char.is_word w = true -> forallb Char.is_dot w = true.
Proof.
  apply forallb_impl. intros c H. apply piece_dot, word_piece, H.
Qed.

(** **** The lines of a condition *)

Section ConditionLines.

Variable st : ParseState.

Lemma parseLine_condition (name P : str) :
  Re.wordTest name = true -> forallb Re.not_rparen P = true ->
  parseLine st ("condition " ++ name ++ "(" ++ P ++ ") {")
  = mkParseState (flushType (result st) (currentType st)) None
      (inRelations st) true (Some (mkParsedCondition name P [])) [].
Proof.
  intros Hn HP. destruct (wordTest_inv name Hn) as [Hne Hw].
  unfold parseLine.
  change ("condition " ++ name ++ "(" ++ P ++ ") {")
    with ("condition" ++ " " ++ name ++ "(" ++ P ++ ")" ++ " " ++ "{").
  set (t := "condition" ++ " " ++ name ++ "(" ++ P ++ ")" ++ " " ++ "{").
  assert (Ht : tight t = true).
  { unfold t.
    replace ("condition" ++ " " ++ name ++ "(" ++ P ++ ")" ++ " " ++ "{")
      with ("condition" ++ (" " ++ name ++ "(" ++ P ++ ") ") ++ "{")
      by (repeat (cbn; rewrite <- ?app_assoc); reflexivity).
    apply tight_app3; try discriminate; reflexivity. }
  rewrite (trim_tight t Ht).
  assert (E0 : JS.startsWith "#" t || JS.startsWith "//" t = false) by reflexivity.
  assert (E1 : JS.eqb t "model" = false)
    by (apply eqb_neq; unfold t; cbn; discriminate).
  assert (E2 : Re.schemaMatch t = None) by reflexivity.
  assert (E3 : Re.typeMatch t = None) by reflexivity.
  assert (E4 : JS.eqb t "relations" = false)
    by (apply eqb_neq; unfold t; cbn; discriminate).
  assert (E5 : Re.defineMatch t = None) by reflexivity.
  assert (E6 : Re.conditionMatch t = Some (name, P)).
  { unfold t, Re.conditionMatch. rewrite lit_app.
    rewrite (plus_app Char.is_space " " (name ++ "(" ++ P ++ ")" ++ " " ++ "{"));
      [|discriminate|reflexivity|apply word_stops_space; exact Hn].
    rewrite (plus_app Char.is_word name ("(" ++ P ++ ")" ++ " " ++ "{"))
      by (assumption || reflexivity).
    change (Re.star Char.is_space ("(" ++ P ++ ")" ++ " " ++ "{"))
      with ("(" ++ P ++ ")" ++ " " ++ "{").
    rewrite lit_app.
    rewrite (takeWhile_app Re.not_rparen P (")" ++ " " ++ "{"))
      by (assumption || reflexivity).
    rewrite (dropWhile_app Re.not_rparen P (")" ++ " " ++ "{"))
      by (assumption || reflexivity).
    rewrite lit_app. reflexivity. }
  assert (Ene : t <> []) by (unfold t; cbn; discriminate).
  clearbody t. destruct t as [|c r]; [contradiction|].
  rewrite E0, E1, E2, E3, E4, E5, E6. reflexivity.
Qed.

Lemma is_none_inv {A : Type} (o : option A) :
  Simple.is_none o = true -> o = None.
Proof. destruct o; [discriminate|reflexivity]. Qed.

Lemma trim_indent_trimmed (ws E : str) :
  forallb Char.is_space ws = true -> JS.trim E = E -> JS.trim (ws ++ E) = E.
Proof.
  intros Hws HE. unfold JS.trim in *. rewrite (trimStart_spaces ws E Hws).
  exact HE.
Qed.

(** A line of the body is kept. *)
Lemma parseLine_body (E : str) (c : ParsedCondition) :
  Simple.body_ok E = true -> E <> [] ->
  currentType st = None -> inCondition st = true ->
  currentCondition st = Some c ->
  parseLine st ("  " ++ E)
  = mkParseState (result st) (currentType st) (inRelations st) (inCondition st)
      (currentCondition st) (JS.push (conditionBody st) E).
Proof.
  unfold Simple.body_ok. intros Hok Hne Hty Hin Hcur.
  apply andb_prop in Hok. destruct Hok as [Hok Hst].
  apply andb_prop in Hok. destruct Hok as [Htrim _].
  apply eqb_eq in Htrim.
  unfold parseLine. rewrite (trim_indent_trimmed "  " E eq_refl Htrim).
  destruct E as [|e0 E']; [contradiction|].
  repeat (apply andb_prop in Hst; destruct Hst as [Hst ?]).
  repeat match goal with
         | H : negb _ = true |- _ => apply negb_true_iff in H
         | H : Simple.is_none _ = true |- _ => apply is_none_inv in H
         end.
  repeat match goal with
         | H : _ = false |- _ => rewrite H
         | H : _ = None |- _ => rewrite H
         end.
  rewrite Hin, Hcur.
  destruct (Re.defineMatch (e0 :: E')) as [[n d]|]; reflexivity.
Qed.

Lemma parseLine_close (c : ParsedCondition) :
  inCondition st = true -> currentCondition st = Some c ->
  parseLine st "}"
  = mkParseState
      (mkParseResult (schemaVersion (result st)) (types (result st))
         (JS.push (res_conditions (result st))
            (mkParsedCondition (pc_name c) (pc_params c)
               (JS.trim (JS.join JS.newline (conditionBody st))))))
      (currentType st) (inRelations st) false None [].
Proof.
  intros Hin Hcur. unfold parseLine.
  change (JS.trim "}") with ["}"%char].
  change (JS.startsWith "#" ["}"%char] || JS.startsWith "//" ["}"%char])
    with false.
  replace (JS.eqb ["}"%char] "model") with false
    by (symmetry; apply eqb_neq; discriminate).
  change (Re.schemaMatch ["}"%char]) with (@None str).
  change (Re.typeMatch ["}"%char]) with (@None str).
  replace (JS.eqb ["}"%char] "relations") with false
    by (symmetry; apply eqb_neq; discriminate).
  change (Re.defineMatch ["}"%char]) with (@None (str * str)).
  change (Re.conditionMatch ["}"%char]) with (@None (str * str)).
  rewrite Hin, Hcur.
  replace (JS.eqb ["}"%char] "}") with true by (symmetry; apply eqb_refl).
  reflexivity.
Qed.

End ConditionLines.

Section ConditionBlocks.

Lemma cond_entry_facts (e : str * Condition) :
  cond_entry_ok e ->
  Re.wordTest (fst e) = true
  /\ Simple.params_ok (cond_parameters (snd e)) = true
  /\ Simple.body_ok (cond_expression (snd e)) = true.
Proof.
  intros [Hn Hc]. unfold Simple.condition_ok in Hc.
  apply andb_prop in Hc. destruct Hc as [Hp Hb].
  split; [apply (name_ok_facts _ Hn)|]. split; assumption.
Qed.

Lemma body_ok_trimmed (E : str) : Simple.body_ok E = true -> JS.trim E = E.
Proof.
  unfold Simple.body_ok. intros H.
  apply andb_prop in H. destruct H as [H _].
  apply andb_prop in H. destruct H as [H _].
  apply eqb_eq. exact H.
Qed.

Lemma body_ok_line (E : str) : Simple.body_ok E = true -> ~ In LF E.
Proof.
  unfold Simple.body_ok. intros H.
  apply andb_prop in H. destruct H as [H _].
  apply andb_prop in H. destruct H as [_ H].
  apply is_line_spec. exact H.
Qed.

(** The four lines of a condition: the type that was open is added to the
    result, then the condition. *)
Lemma fold_condition_lines (e : str * Condition) (st : ParseState) :
  cond_entry_ok e ->
  fold_left parseLine (conditionLines e) st
  = mkParseState
      (add_cond (flushType (result st) (currentType st)) (parsedCond e))
      None (inRelations st) false None [].
Proof.
  intros Hok. destruct (cond_entry_facts e Hok) as [Hn [Hp Hb]].
  unfold conditionLines. cbn [fold_left].
  rewrite (parseLine_condition st (fst e)
             (formatConditionParams (cond_parameters (snd e))) Hn
             (forallb_impl _ _ _ piece_not_rparen
                (formatConditionParams_chars _ Hp))).
  set (st1 := mkParseState (flushType (result st) (currentType st)) None
                (inRelations st) true
                (Some (mkParsedCondition (fst e)
                         (formatConditionParams (cond_parameters (snd e))) []))
                []).
  destruct (cond_expression (snd e)) as [|e0 E'] eqn:EE.
  - change (parseLine st1 ("  " ++ [])) with st1.
    rewrite (parseLine_close st1 _ eq_refl eq_refl).
    rewrite parseLine_blank. unfold parsedCond, add_cond, JS.push.
    rewrite EE. reflexivity.
  - rewrite (parseLine_body st1 (e0 :: E') _ Hb ltac:(discriminate)
               eq_refl eq_refl eq_refl).
    erewrite parseLine_close; [|reflexivity|reflexivity].
    rewrite parseLine_blank. unfold parsedCond, add_cond, JS.push.
    rewrite EE. cbn [conditionBody st1 app JS.join].
    rewrite (body_ok_trimmed _ Hb). reflexivity.
Qed.

Lemma fold_conditions (conds : list (str * Condition)) :
  (forall e, In e conds -> cond_entry_ok e) ->
  forall st,
    flushType (result (fold_left parseLine (flat_map conditionLines conds) st))
      (currentType (fold_left parseLine (flat_map conditionLines conds) st))
    = add_conds (flushType (result st) (currentType st)) (map parsedCond conds).
Proof.
  induction conds as [|e conds IH]; intros Hall st.
  - cbn. unfold add_conds. rewrite app_nil_r.
    destruct (flushType (result st) (currentType st)). reflexivity.
  - cbn [flat_map map]. rewrite fold_left_app.
    rewrite (fold_condition_lines e st (Hall e (or_introl eq_refl))).
    rewrite (IH (fun x Hx => Hall x (or_intror Hx))).
    cbn [result currentType flushType]. unfold add_conds, add_cond.
    cbn [schemaVersion types res_conditions]. rewrite <- app_assoc.
    reflexivity.
Qed.

Lemma convertConditions_parsed (conds : list (str * Condition)) :
  forallb Simple.name_ok (map fst conds) = true ->
  Simple.distinct (map fst conds) = true ->
  convertConditions (map parsedCond conds) = map reconverted conds.
Proof.
  intros Hn Hd. unfold convertConditions.
  rewrite (fold_set_append pc_name
             (fun cond => mkCondition (pc_name cond) (pc_expression cond)
                            (parseConditionParams (pc_params cond)))
             (map parsedCond conds)).
  - cbn [app Obj.empty]. rewrite map_map. reflexivity.
  - rewrite map_map. exact Hn.
  - rewrite map_map. exact Hd.
  - intros; reflexivity.
Qed.

Lemma reconverted_lines (e : str * Condition) :
  cond_entry_ok e -> conditionLines (reconverted e) = conditionLines e.
Proof.
  intros Hok. destruct (cond_entry_facts e Hok) as [_ [Hp _]].
  unfold conditionLines, reconverted. cbn [fst snd cond_parameters cond_expression].
  rewrite (formatConditionParams_stable _ Hp). reflexivity.
Qed.

Lemma flat_map_reconverted (conds : list (str * Condition)) :
  (forall e, In e conds -> cond_entry_ok e) ->
  flat_map conditionLines (map reconverted conds)
  = flat_map conditionLines conds.
Proof.
  induction conds as [|e conds IH]; intros Hall; [reflexivity|].
  cbn [map flat_map].
  rewrite (reconverted_lines e (Hall e (or_introl eq_refl))).
  rewrite (IH (fun x Hx => Hall x (or_intror Hx))). reflexivity.
Qed.

Lemma condition_lines_no_LF (e : str * Condition) :
  cond_entry_ok e -> forall x, In x (conditionLines e) -> ~ In LF x.
Proof.
  intros Hok x Hx. destruct (cond_entry_facts e Hok) as [Hn [Hp Hb]].
  destruct (wordTest_inv _ Hn) as [_ Hw].
  destruct Hx as [<-|[<-|[<-|[<-|[]]]]].
  - apply dot_no_LF.
    apply forallb_app_true; [reflexivity|].
    apply forallb_app_true; [apply word_dots; exact Hw|].
    apply forallb_app_true; [reflexivity|].
    apply forallb_app_true; [|reflexivity].
    exact (forallb_impl _ _ _ (fun c H => expr_dot c (body_expr c H))
             (formatConditionParams_chars _ Hp)).
  - intros Hin. apply in_app_or in Hin. destruct Hin as [Hin|Hin].
    + revert Hin. apply dot_no_LF. reflexivity.
    + exact (body_ok_line _ Hb Hin).
  - apply dot_no_LF. reflexivity.
  - intros [].
Qed.

End ConditionBlocks.

(** *** The whole model *)

Section WholeModel.

Lemma add_types_nil (res : ParseResult) : add_types res [] = res.
Proof. destruct res. unfold add_types. cbn. rewrite app_nil_r. reflexivity. Qed.

Lemma add_types_cons (res : ParseResult) (ty : ParsedType) (l : list ParsedType) :
  add_types (flushType res (Some ty)) l = add_types res (ty :: l).
Proof.
  unfold add_types, flushType, JS.push. cbn. rewrite <- app_assoc. reflexivity.
Qed.

Lemma fold_types (tds : list TypeDefinition) :
  forallb Simple.type_ok tds = true ->
  forall st,
    flushed (fold_left parseLine (flat_map typeLinesForEdit tds) st)
    = add_types (flushed st) (map parsedType tds).
Proof.
  induction tds as [|td tds IH]; intros Hall st.
  - cbn. symmetry. apply add_types_nil.
  - cbn in Hall. apply andb_prop in Hall. destruct Hall as [Htd Hall].
    cbn [flat_map map]. rewrite fold_left_app.
    destruct (fold_type_lines 0 td Htd st) as [inRel E].
    rewrite E, (IH Hall). unfold flushed at 1.
    cbn [result currentType]. apply add_types_cons.
Qed.

Lemma mapO_convertType (fuel : nat) (tds : list TypeDefinition) :
  forallb Simple.type_ok tds = true ->
  mapO (convertType (2 + fuel)) (map parsedType tds)
  = Returns (map (converted fuel) tds).
Proof.
  induction tds as [|td tds IH]; intros Hall; [reflexivity|].
  cbn in Hall. apply andb_prop in Hall. destruct Hall as [Htd Hall].
  cbn [map mapO]. rewrite (convertType_parsed fuel td Htd). cbn [bind].
  rewrite (IH Hall). reflexivity.
Qed.

Lemma flat_map_converted (fuel : nat) (tds : list TypeDefinition) :
  forallb Simple.type_ok tds = true ->
  flat_map typeLinesForEdit (map (converted fuel) tds)
  = flat_map typeLinesForEdit tds.
Proof.
  induction tds as [|td tds IH]; intros Hall; [reflexivity|].
  cbn in Hall. apply andb_prop in Hall. destruct Hall as [Htd Hall].
  cbn [map flat_map]. rewrite (converted_lines fuel td Htd), (IH Hall).
  reflexivity.
Qed.

Lemma type_lines_dots (td : TypeDefinition) :
  Simple.type_ok td = true ->
  forall x, In x (typeLinesForEdit td) -> forallb Char.is_dot x = true.
Proof.
  intros Htd x Hx. rewrite typeLines_shape in Hx.
  destruct (wordTest_inv _ (td_type_word td Htd)) as [_ Hw].
  destruct Hx as [<-|Hx].
  { apply forallb_app_true; [reflexivity|apply word_dots; exact Hw]. }
  apply in_app_or in Hx. destruct Hx as [Hx|[<-|[]]]; [|reflexivity].
  pose proof (relations_ok 0 td Htd) as Hall.
  destruct (relations_of td) as [|e rels]; [contradiction|].
  destruct Hx as [<-|Hx]; [reflexivity|].
  apply in_map_iff in Hx. destruct Hx as [r [<- Hr]].
  destruct (Hall r Hr) as [Hn [_ [_ [Hd _]]]].
  destruct (name_ok_facts _ Hn) as [_ [_ Hnw]].
  destruct (wordTest_inv _ Hnw) as [_ Hnw'].
  unfold define_line.
  apply forallb_app_true; [reflexivity|].
  apply forallb_app_true; [apply word_dots; exact Hnw'|].
  apply forallb_app_true; [reflexivity|exact Hd].
Qed.

Lemma version_dots (v : str) :
  Simple.version_ok v = true -> forallb Char.is_dot v = true.
Proof.
  intros Hv. destruct (version_shape v Hv) as [a [b [-> [_ [_ [Ha Hb]]]]]].
  apply forallb_app_true;
    [apply word_dots; revert Ha; apply forallb_impl; exact digit_word|].
  apply forallb_app_true; [reflexivity|].
  apply word_dots. revert Hb. apply forallb_impl. exact digit_word.
Qed.

Lemma linesForEdit_shape (m : AuthorizationModel) :
  linesForEdit m
  = header (schema_version m)
    ++ flat_map typeLinesForEdit (type_definitions m)
    ++ flat_map conditionLines (Simple.conditions_of m).
Proof.
  unfold linesForEdit, header, Simple.conditions_of.
  destruct (conditions m); reflexivity.
Qed.

Lemma conditions_shape (m : AuthorizationModel) :
  Simple.conditions_ok m = true ->
  forallb Simple.name_ok (map fst (Simple.conditions_of m)) = true
  /\ Simple.distinct (map fst (Simple.conditions_of m)) = true
  /\ forall e, In e (Simple.conditions_of m) -> cond_entry_ok e.
Proof.
  unfold Simple.conditions_ok. intros H.
  apply andb_prop in H. destruct H as [H Hc].
  apply andb_prop in H. destruct H as [Hn Hd].
  split; [exact Hn|]. split; [exact Hd|].
  intros e He. split.
  - rewrite forallb_forall in Hn. apply Hn. apply in_map. exact He.
  - rewrite forallb_forall in Hc. apply Hc. exact He.
Qed.

Lemma lines_no_LF (v : str) (tds : list TypeDefinition)
    (conds : list (str * Condition)) :
  Simple.version_ok v = true ->
  forallb Simple.type_ok tds = true ->
  (forall e, In e conds -> cond_entry_ok e) ->
  forall x,
    In x (header v ++ flat_map typeLinesForEdit tds
          ++ flat_map conditionLines conds) ->
    ~ In LF x.
Proof.
  intros Hv Hall Hconds x Hx.
  apply in_app_or in Hx. destruct Hx as [Hx|Hx].
  - apply dot_no_LF.
    destruct Hx as [<-|[<-|[<-|[]]]]; try reflexivity.
    apply forallb_app_true; [reflexivity|apply version_dots; exact Hv].
  - apply in_app_or in Hx. destruct Hx as [Hx|Hx].
    + apply dot_no_LF.
      apply in_flat_map in Hx. destruct Hx as [td [Htd Hx]].
      rewrite forallb_forall in Hall.
      apply (type_lines_dots td (Hall td Htd) x Hx).
    + apply in_flat_map in Hx. destruct Hx as [e [He Hx]].
      apply (condition_lines_no_LF e (Hconds e He) x Hx).
Qed.

Lemma parseLines_simple (v : str) (tds : list TypeDefinition)
    (conds : list (str * Condition)) :
  Simple.version_ok v = true ->
  forallb Simple.type_ok tds = true ->
  (forall e, In e conds -> cond_entry_ok e) ->
  parseLines (header v ++ flat_map typeLinesForEdit tds
              ++ flat_map conditionLines conds)
  = mkParseResult v (map parsedType tds) (map parsedCond conds).
Proof.
  intros Hv Hall Hconds. unfold parseLines.
  rewrite !fold_left_app. rewrite (fold_conditions conds Hconds).
  fold (flushed (fold_left parseLine (flat_map typeLinesForEdit tds)
                   (fold_left parseLine (header v) initialState))).
  rewrite (fold_types tds Hall).
  unfold header. cbn [fold_left].
  rewrite parseLine_model, (parseLine_schema _ v Hv), parseLine_blank.
  reflexivity.
Qed.

End WholeModel.



(** ** No call of the parser throws *)

Section NeverThrows.

Lemma split_go_cons (sep : str) (s : str) :
  forall skip cur, exists p rest, JS.split_go sep skip cur s = p :: rest.
Proof.
  induction s as [|c r IH]; intros skip cur; cbn [JS.split_go].
  - eauto.
  - destruct skip; [|apply IH].
    destruct (JS.startsWith sep (c :: r)); [eauto|apply IH].
Qed.

(** A text that includes a separator splits into two pieces or more, so
    [parts[0]] and [parts[1]] are strings. *)
Lemma includes_split_two (sep : str) (s : str) :
  sep <> [] -> JS.includes sep s = true ->
  forall cur, exists p0 p1 rest, JS.split_go sep 0 cur s = p0 :: p1 :: rest.
Proof.
  intros Hsep. induction s as [|c r IH]; intros H cur.
  - destruct sep; [contradiction|discriminate H].
  - rewrite includes_unfold in H. cbn [JS.split_go].
    destruct (JS.startsWith sep (c :: r)) eqn:E.
    + destruct (split_go_cons sep r (length sep - 1) []) as (p & rest & ->).
      eauto.
    + cbn [orb] in H. apply IH. exact H.
Qed.

Lemma at_index_includes (sep : str) (s : str) :
  sep <> [] -> JS.includes sep s = true ->
  exists p0 p1,
    at_index (JS.split sep s) 0 = Returns p0
    /\ at_index (JS.split sep s) 1 = Returns p1.
Proof.
  intros Hsep H. unfold JS.split.
  destruct (includes_split_two sep s Hsep H []) as (p0 & p1 & rest & ->).
  exists p0, p1. split; reflexivity.
Qed.

Lemma mapO_never_throws {A B : Type} (f : A -> outcome B) (l : list A) :
  (forall x, f x <> Throws) -> mapO f l <> Throws.
Proof.
  intros Hf. induction l as [|x r IH]; cbn [mapO]; [discriminate|].
  specialize (Hf x). destruct (f x); cbn [bind]; try congruence.
  destruct (mapO f r); cbn [bind]; congruence.
Qed.

Lemma parseRelationDefinition_never_throws (fuel : nat) :
  forall definition, parseRelationDefinition fuel definition <> Throws.
Proof.
  induction fuel as [|fuel IH]; intros definition; [discriminate|].
  cbn [parseRelationDefinition]. cbv zeta.
  set (trimmed := JS.trim definition).
  destruct (JS.startsWith "[" trimmed && JS.endsWith "]" trimmed);
    [discriminate|].
  destruct (JS.includes " or " trimmed).
  { pose proof (mapO_never_throws (parseRelationDefinition fuel)
                  (splitByOperator trimmed " or ") IH) as H.
    destruct (mapO _ _); cbn [bind]; congruence. }
  destruct (JS.includes " and " trimmed).
  { pose proof (mapO_never_throws (parseRelationDefinition fuel)
                  (splitByOperator trimmed " and ") IH) as H.
    destruct (mapO _ _); cbn [bind]; congruence. }
  destruct (JS.includes " but not " trimmed) eqn:Eb.
  { destruct (at_index_includes " but not " trimmed) as (p0 & p1 & -> & ->);
      [discriminate|exact Eb|].
    cbn [bind].
    pose proof (IH p0) as H0. pose proof (IH p1) as H1.
    destruct (parseRelationDefinition fuel p0); cbn [bind]; try congruence.
    destruct (parseRelationDefinition fuel p1); cbn [bind]; congruence. }
  destruct (JS.includes "->" trimmed) eqn:Ea.
  { destruct (at_index_includes "->" trimmed) as (p0 & p1 & -> & ->);
      [discriminate|exact Ea|].
    cbn [bind]. discriminate. }
  destruct (Re.wordTest trimmed); [discriminate|].
  destruct (Re.bracketHead trimmed) as [[? rest0]|]; [|discriminate].
  destruct (JS.trim rest0) as [|c rest]; [discriminate|].
  destruct (JS.startsWith "or " (c :: rest)); [|discriminate].
  pose proof (IH (JS.trim (JS.slice_from 3 (c :: rest)))) as H.
  destruct (parseRelationDefinition fuel _); cbn [bind]; congruence.
Qed.

Lemma convertRelations_never_throws (fuel : nat) (rels : list ParsedRelation) :
  forall relations metadata,
    convertRelations fuel rels relations metadata <> Throws.
Proof.
  induction rels as [|rel rest IH]; intros relations metadata;
    cbn [convertRelations]; [discriminate|].
  pose proof (parseRelationDefinition_never_throws fuel (rel_definition rel))
    as H.
  destruct (parseRelationDefinition fuel (rel_definition rel)); cbn [bind];
    [apply IH|congruence|discriminate].
Qed.

Lemma convertType_never_throws (fuel : nat) (ty : ParsedType) :
  convertType fuel ty <> Throws.
Proof.
  unfold convertType. destruct (0 <? length (pt_relations ty)); [|discriminate].
  pose proof (convertRelations_never_throws fuel (pt_relations ty)
                Obj.empty Obj.empty) as H.
  destruct (convertRelations _ _ _ _); cbn [bind]; congruence.
Qed.

(** X1.  The parser raises no exception of its own: at every recursion depth
    allowed, and on every text, a call of [parseDSL] either returns a model or
    exceeds the depth; [parts[0]] and [parts[1]] are always there. *)
Theorem parseDSL_never_throws (fuel : nat) (dsl : str) :
  parseDSL fuel dsl <> Throws.
Proof.
  unfold parseDSL, convertToJSON.
  match goal with |- context [mapO ?f ?l] =>
    pose proof (mapO_never_throws f l (convertType_never_throws fuel)) as H;
    destruct (mapO f l) end; cbn [bind]; congruence.
Qed.

End NeverThrows.

(** ** The validator: what a pass keeps and what it reports *)

Section ValidatorPass.

Lemma report_errors (st : ValidatorState) (c : bool) (n : nat) (m : str) :
  errors (report st c n m)
  = errors st ++ (if c then [mkDiagnostic n m] else []).
Proof. unfold report. destruct c; cbn; [reflexivity|]. now rewrite app_nil_r. Qed.

Lemma report_keeps (d : Diagnostic) (st : ValidatorState) (c : bool) (n : nat)
    (m : str) :
  In d (errors st) -> In d (errors (report st c n m)).
Proof. intros H. rewrite report_errors. apply in_or_app. left. exact H. Qed.

Lemma report_hasSchema (st : ValidatorState) (c : bool) (n : nat) (m : str) :
  hasSchema (report st c n m) = hasSchema st.
Proof. unfold report. destruct c; reflexivity. Qed.

Lemma report_currentType (st : ValidatorState) (c : bool) (n : nat) (m : str) :
  v_currentType (report st c n m) = v_currentType st.
Proof. unfold report. destruct c; reflexivity. Qed.

(** A diagnostic once reported stays in the list. *)
Lemma validateLine_keeps (d : Diagnostic) (st : ValidatorState) (index : nat)
    (ln : str) :
  In d (errors st) -> In d (errors (validateLine st index ln)).
Proof.
  intros H. unfold validateLine.
  destruct (JS.trim ln) as [|c r]; [exact H|].
  destruct (JS.startsWith "#" (c :: r) || JS.startsWith "//" (c :: r));
    [exact H|].
  destruct (JS.eqb (c :: r) "model");
    [cbn [errors]; apply report_keeps; exact H|].
  destruct (JS.startsWith "schema " (c :: r));
    [cbn [errors]; repeat apply report_keeps; exact H|].
  destruct (JS.startsWith "type " (c :: r)).
  { cbn [errors].
    destruct (JS.trim (JS.remove_first "type " (c :: r)));
      repeat apply report_keeps; exact H. }
  destruct (JS.eqb (c :: r) "relations");
    [cbn [errors]; apply report_keeps; exact H|].
  destruct (JS.startsWith "define " (c :: r)).
  { destruct (negb (JS.includes ":" (JS.remove_first "define " (c :: r))));
      [repeat apply report_keeps; exact H|].
    destruct (JS.trim (hd [] (JS.split ":" (JS.remove_first "define " (c :: r)))));
      repeat apply report_keeps; exact H. }
  destruct (JS.startsWith "condition " (c :: r)); [exact H|].
  apply report_keeps. exact H.
Qed.

Lemma validateLines_keeps (d : Diagnostic) (lines : list str) :
  forall st index,
    In d (errors st) -> In d (errors (validateLines st index lines)).
Proof.
  induction lines as [|ln rest IH]; intros st index H; [exact H|].
  cbn [validateLines]. apply IH. apply validateLine_keeps. exact H.
Qed.

Lemma validateLines_app (a b : list str) :
  forall st index,
    validateLines st index (a ++ b)
    = validateLines (validateLines st index a) (index + length a) b.
Proof.
  induction a as [|ln rest IH]; intros st index; cbn [app validateLines length].
  - rewrite Nat.add_0_r. reflexivity.
  - rewrite IH. f_equal. lia.
Qed.

(** Only a type line opens a type. *)
Lemma validateLine_no_type (st : ValidatorState) (index : nat) (ln : str) :
  JS.startsWith "type " (JS.trim ln) = false ->
  v_currentType st = None ->
  v_currentType (validateLine st index ln) = None.
Proof.
  intros Hty H. unfold validateLine.
  destruct (JS.trim ln) as [|c r]; [exact H|].
  destruct (JS.startsWith "#" (c :: r) || JS.startsWith "//" (c :: r));
    [exact H|].
  destruct (JS.eqb (c :: r) "model");
    [cbn [v_currentType]; rewrite report_currentType; exact H|].
  destruct (JS.startsWith "schema " (c :: r));
    [cbn [v_currentType]; rewrite !report_currentType; exact H|].
  rewrite Hty.
  destruct (JS.eqb (c :: r) "relations");
    [cbn [v_currentType]; rewrite report_currentType; exact H|].
  destruct (JS.startsWith "define " (c :: r)).
  { destruct (negb (JS.includes ":" (JS.remove_first "define " (c :: r))));
      [rewrite !report_currentType; exact H|].
    destruct (JS.trim (hd [] (JS.split ":" (JS.remove_first "define " (c :: r)))));
      rewrite !report_currentType; exact H. }
  destruct (JS.startsWith "condition " (c :: r)); [reflexivity|].
  rewrite report_currentType. exact H.
Qed.

Lemma validateLines_no_type (lines : list str) :
  (forall ln, In ln lines -> JS.startsWith "type " (JS.trim ln) = false) ->
  forall st index,
    v_currentType st = None ->
    v_currentType (validateLines st index lines) = None.
Proof.
  induction lines as [|ln rest IH]; intros Hall st index H; [exact H|].
  cbn [validateLines]. apply IH.
  - intros l Hl. apply Hall. right. exact Hl.
  - apply validateLine_no_type; [apply Hall; left; reflexivity|exact H].
Qed.

(** The [relations] line outside a type is reported at its own number. *)
Lemma validateLine_relations (st : ValidatorState) (index : nat) (ln : str) :
  JS.trim ln = "relations" ->
  v_currentType st = None ->
  In (mkDiagnostic (index + 1) msg_relations_inside_type)
     (errors (validateLine st index ln)).
Proof.
  intros Ht H. destruct st as [e hm hs ct ir]. cbn [v_currentType] in H.
  subst ct. unfold validateLine. rewrite Ht.
  change (In (mkDiagnostic (index + 1) msg_relations_inside_type)
            (e ++ [mkDiagnostic (index + 1) msg_relations_inside_type])).
  apply in_or_app. right. left. reflexivity.
Qed.

(** Only a schema line sets [hasSchema]. *)
Lemma validateLine_hasSchema (st : ValidatorState) (index : nat) (ln : str) :
  JS.startsWith "schema " (JS.trim ln) = false ->
  hasSchema (validateLine st index ln) = hasSchema st.
Proof.
  intros Hs. unfold validateLine.
  destruct (JS.trim ln) as [|c r]; [reflexivity|].
  destruct (JS.startsWith "#" (c :: r) || JS.startsWith "//" (c :: r));
    [reflexivity|].
  destruct (JS.eqb (c :: r) "model");
    [cbn [hasSchema]; apply report_hasSchema|].
  rewrite Hs.
  destruct (JS.startsWith "type " (c :: r)).
  { cbn [hasSchema].
    destruct (JS.trim (JS.remove_first "type " (c :: r)));
      rewrite !report_hasSchema; reflexivity. }
  destruct (JS.eqb (c :: r) "relations");
    [cbn [hasSchema]; rewrite !report_hasSchema; reflexivity|].
  destruct (JS.startsWith "define " (c :: r)).
  { destruct (negb (JS.includes ":" (JS.remove_first "define " (c :: r))));
      [rewrite !report_hasSchema; reflexivity|].
    destruct (JS.trim (hd [] (JS.split ":" (JS.remove_first "define " (c :: r)))));
      rewrite !report_hasSchema; reflexivity. }
  destruct (JS.startsWith "condition " (c :: r)); [reflexivity|].
  apply report_hasSchema.
Qed.

Lemma validateLines_hasSchema (lines : list str) :
  (forall ln, In ln lines -> JS.startsWith "schema " (JS.trim ln) = false) ->
  forall st index,
    hasSchema (validateLines st index lines) = hasSchema st.
Proof.
  induction lines as [|ln rest IH]; intros Hall st index; [reflexivity|].
  cbn [validateLines].
  rewrite IH by (intros l Hl; apply Hall; right; exact Hl).
  apply validateLine_hasSchema. apply Hall. left. reflexivity.
Qed.

(** [hasModel] is never reset. *)
Lemma validateLine_hasModel_stays (st : ValidatorState) (index : nat)
    (ln : str) :
  hasModel st = true -> hasModel (validateLine st index ln) = true.
Proof.
  intros H. destruct (list_eq_dec ascii_dec (JS.trim ln) "model") as [E|E].
  - unfold validateLine. rewrite E. reflexivity.
  - rewrite validateLine_hasModel by exact E. exact H.
Qed.

Lemma validateLines_hasModel_stays (lines : list str) :
  forall st index,
    hasModel st = true -> hasModel (validateLines st index lines) = true.
Proof.
  induction lines as [|ln rest IH]; intros st index H; [exact H|].
  cbn [validateLines]. apply IH. apply validateLine_hasModel_stays. exact H.
Qed.

Lemma validateLines_model_seen (lines : list str) :
  (exists ln, In ln lines /\ JS.trim ln = "model") ->
  forall st index, hasModel (validateLines st index lines) = true.
Proof.
  induction lines as [|ln rest IH]; intros (l & Hin & Hl) st index;
    [destruct Hin|].
  cbn [validateLines]. destruct Hin as [->|Hin].
  - apply validateLines_hasModel_stays. unfold validateLine. rewrite Hl.
    reflexivity.
  - apply IH. exists l. split; assumption.
Qed.

(** *** A text with a line that is not blank is not blank *)

Lemma dropWhile_nil (p : ascii -> bool) (s : str) :
  forallb p s = true -> JS.dropWhile p s = [].
Proof.
  induction s as [|c r IH]; cbn; [reflexivity|].
  destruct (p c); [exact IH|discriminate].
Qed.

Lemma dropWhile_all (p : ascii -> bool) (s : str) :
  forallb p (JS.dropWhile p s) = true -> JS.dropWhile p s = [].
Proof.
  induction s as [|c r IH]; cbn; [reflexivity|].
  destruct (p c) eqn:E; [exact IH|].
  cbn. rewrite E. discriminate.
Qed.

Lemma forallb_rev (p : ascii -> bool) (s : str) :
  forallb p (rev s) = forallb p s.
Proof.
  induction s as [|c r IH]; [reflexivity|].
  cbn. rewrite forallb_app, IH. cbn. rewrite andb_true_r. apply andb_comm.
Qed.

Lemma trim_blank (s : str) :
  forallb Char.is_space s = true -> JS.trim s = [].
Proof.
  intros H. unfold JS.trim, JS.trimEnd, JS.trimStart.
  rewrite (dropWhile_nil _ _ H). reflexivity.
Qed.

Lemma trim_nil_blank (s : str) :
  JS.trim s = [] -> forallb Char.is_space s = true.
Proof.
  unfold JS.trim, JS.trimEnd, JS.trimStart. intros H.
  destruct (forallb Char.is_space s) eqn:E; [reflexivity|exfalso].
  assert (Hd : JS.dropWhile Char.is_space s <> []).
  { clear H. induction s as [|c r IH]; [discriminate E|].
    cbn in E |- *. destruct (Char.is_space c); [apply IH; exact E|discriminate]. }
  apply Hd. apply dropWhile_all. rewrite <- forallb_rev.
  destruct (rev (JS.dropWhile Char.is_space s)) as [|x l] eqn:Er;
    [reflexivity|].
  cbn in H. destruct (Char.is_space x) eqn:Ex.
  - cbn. rewrite Ex. cbn.
    assert (Hl : JS.dropWhile Char.is_space l = []).
    { destruct (JS.dropWhile Char.is_space l); [reflexivity|].
      apply (f_equal (@length ascii)) in H. rewrite length_rev in H.
      discriminate H. }
    clear -Hl. induction l as [|y l IH]; [reflexivity|].
    cbn in Hl |- *. destruct (Char.is_space y); [apply IH; exact Hl|].
    discriminate Hl.
  - apply (f_equal (@length ascii)) in H. rewrite length_rev in H.
    discriminate H.
Qed.

Lemma split_go_blank (sep : str) (s : str) :
  forallb Char.is_space s = true ->
  forall skip cur p,
    forallb Char.is_space cur = true ->
    In p (JS.split_go sep skip cur s) -> forallb Char.is_space p = true.
Proof.
  induction s as [|c r IH]; intros Hs skip cur p Hcur Hin;
    cbn [JS.split_go] in Hin.
  - destruct Hin as [<-|[]]. exact Hcur.
  - cbn [forallb] in Hs. apply andb_true_iff in Hs. destruct Hs as [Hc Hr].
    destruct skip; [|apply (IH Hr _ _ _ Hcur Hin)].
    destruct (JS.startsWith sep (c :: r)).
    + destruct Hin as [<-|Hin]; [exact Hcur|].
      apply (IH Hr _ [] _ eq_refl Hin).
    + refine (IH Hr _ _ _ _ Hin). rewrite forallb_app, Hcur. cbn.
      rewrite Hc. reflexivity.
Qed.

Lemma line_not_blank (editContent : str) (ln : str) :
  In ln (JS.split JS.newline editContent) -> JS.trim ln <> [] ->
  JS.trim editContent <> [].
Proof.
  intros Hin Hne Hblank. apply Hne. apply trim_blank.
  apply (split_go_blank JS.newline editContent (trim_nil_blank _ Hblank)
           0 [] ln eq_refl Hin).
Qed.

(** The validator on the text that starts with the schema line: the missing
    model declaration at line 1, then the schema line and the type line, each
    out of order. *)
Theorem dslErrors_schema_first :
  dslErrors ("schema 1.1" ++ JS.newline ++ "type user" ++ JS.newline)
  = [ mkDiagnostic 1 msg_missing_model;
      mkDiagnostic 1 msg_schema_after_model;
      mkDiagnostic 2 msg_type_after_model ].
Proof. reflexivity. Qed.

(** X2.  A [relations] line that comes before every type line is reported at
    its own line number, whatever the rest of the text is. *)
Theorem relations_before_type_reported (editContent : str)
    (before after : list str) (relationsLine : str) :
  JS.split JS.newline editContent = before ++ relationsLine :: after ->
  JS.trim relationsLine = "relations" ->
  (forall ln, In ln before -> JS.startsWith "type " (JS.trim ln) = false) ->
  In (mkDiagnostic (length before + 1) msg_relations_inside_type)
     (dslErrors editContent).
Proof.
  intros Hsplit Hrel Hbefore.
  assert (Hnb : JS.trim editContent <> []).
  { apply (line_not_blank editContent relationsLine).
    - rewrite Hsplit. apply in_or_app. right. left. reflexivity.
    - rewrite Hrel. discriminate. }
  unfold dslErrors. destruct (JS.trim editContent) as [|c r]; [contradiction|].
  rewrite Hsplit. cbv zeta.
  set (st := validateLines _ 0 _).
  assert (Hin : In (mkDiagnostic (length before + 1) msg_relations_inside_type)
                   (errors st)).
  { subst st. rewrite validateLines_app. cbn [validateLines Nat.add].
    apply validateLines_keeps. apply validateLine_relations; [exact Hrel|].
    apply validateLines_no_type; [exact Hbefore|reflexivity]. }
  destruct (hasModel st), (hasSchema st); cbn [negb andb];
    unfold JS.push;
    first [exact Hin | right; exact Hin | apply in_or_app; left; exact Hin].
Qed.

(** The property on a text whose third line is the [relations] line. *)
Lemma relations_before_type_reported_witness :
  In (mkDiagnostic 3 msg_relations_inside_type)
     (dslErrors ("model" ++ JS.newline ++ "  schema 1.1" ++ JS.newline
                 ++ "  relations" ++ JS.newline ++ "type user")).
Proof.
  apply (relations_before_type_reported _
           (JS.push (JS.push [] ("model" : str)) ("  schema 1.1" : str))
           (JS.push [] ("type user" : str)) "  relations").
  - reflexivity.
  - reflexivity.
  - intros ln H.
    repeat (destruct H as [H|H]; [subst ln; reflexivity|]).
    contradiction.
Defined.

(** X3.  When some line is [model] and no line is a schema line, the
    diagnostics end with the one at line 2 that asks for the schema. *)
Theorem missing_schema_last (editContent : str) :
  (exists ln, In ln (JS.split JS.newline editContent) /\ JS.trim ln = "model") ->
  (forall ln, In ln (JS.split JS.newline editContent) ->
     JS.startsWith "schema " (JS.trim ln) = false) ->
  exists others,
    dslErrors editContent = others ++ [mkDiagnostic 2 msg_missing_schema].
Proof.
  intros Hmodel Hschema.
  assert (Hnb : JS.trim editContent <> []).
  { destruct Hmodel as (ln & Hin & Hl).
    apply (line_not_blank editContent ln Hin). rewrite Hl. discriminate. }
  unfold dslErrors. destruct (JS.trim editContent) as [|c r]; [contradiction|].
  rewrite (validateLines_model_seen _ Hmodel).
  rewrite (validateLines_hasSchema _ Hschema). cbn [hasSchema negb andb].
  eexists. reflexivity.
Qed.

(** The property on a text with the model line and one type. *)
Lemma missing_schema_last_witness :
  exists others,
    dslErrors ("model" ++ JS.newline ++ "type user")
    = others ++ [mkDiagnostic 2 msg_missing_schema].
Proof.
  apply missing_schema_last.
  - exists ("model" : str). split; [left|]; reflexivity.
  - intros ln H.
    repeat (destruct H as [H|H]; [subst ln; reflexivity|]).
    contradiction.
Defined.

End ValidatorPass.

(** ** The types and the schema version that the parser reads *)

Section ParsedTypes.

Lemma typeMatch_line (t name : str) :
  Re.typeMatch t = Some name ->
  exists r, t = "t"%char :: r
            /\ Re.schemaMatch t = None.
Proof.
  unfold Re.typeMatch. destruct (Re.lit "type" t) as [r|] eqn:E;
    [|discriminate].
  intros _. apply lit_inv in E. subst t. eexists. split; reflexivity.
Qed.

Lemma schemaMatch_line (t v : str) :
  Re.schemaMatch t = Some v ->
  (exists r, t = "s"%char :: r) /\ v <> [].
Proof.
  unfold Re.schemaMatch. destruct (Re.lit "schema" t) as [r|] eqn:E;
    [|discriminate].
  apply lit_inv in E. subst t.
  destruct (Re.plus Char.is_space r) as [[w r1]|]; [|discriminate].
  unfold Re.plus at 1.
  destruct (JS.takeWhile Char.is_digit r1) as [|d a] eqn:Ea; [discriminate|].
  destruct (Re.lit "." (JS.dropWhile Char.is_digit r1)) as [r2|];
    [|discriminate].
  destruct (Re.plus Char.is_digit r2) as [[b r3]|]; [|discriminate].
  destruct r3; [|discriminate]. cbn [Re.eos].
  intros H. injection H as <-. split; [eexists; reflexivity|discriminate].
Qed.

(** The names of the types read so far: the types added to the result and
    the current one. *)
Lemma parseLine_types (st : ParseState) (ln : str) :
  map pt_name (types (result (parseLine st ln)))
  ++ match currentType (parseLine st ln) with
     | Some ty => [pt_name ty]
     | None => []
     end
  = (map pt_name (types (result st))
     ++ match currentType st with
        | Some ty => [pt_name ty]
        | None => []
        end)
    ++ typeNames [ln].
Proof.
  unfold typeNames. cbn [flat_map]. rewrite app_nil_r. unfold parseLine.
  destruct (Re.typeMatch (JS.trim ln)) as [name|] eqn:Ety.
  - destruct (typeMatch_line _ _ Ety) as (r & Et & Es).
    rewrite Es, Et.
    replace (JS.eqb ("t"%char :: r) "model") with false
      by (symmetry; apply eqb_neq; discriminate).
    replace (JS.startsWith "#" ("t"%char :: r)
             || JS.startsWith "//" ("t"%char :: r)) with false
      by reflexivity.
    cbn [result currentType types pt_name].
    destruct (currentType st) as [ty|]; cbn [flushType types];
      unfold JS.push; rewrite ?map_app, <- ?app_assoc; reflexivity.
  - rewrite app_nil_r.
    destruct (JS.trim ln) as [|c r]; [reflexivity|].
    destruct (JS.startsWith "#" (c :: r) || JS.startsWith "//" (c :: r));
      [reflexivity|].
    destruct (JS.eqb (c :: r) "model"); [reflexivity|].
    destruct (Re.schemaMatch (c :: r)); [reflexivity|].
    destruct (JS.eqb (c :: r) "relations"); [reflexivity|].
    destruct (currentType st) as [ty|] eqn:Ec;
      destruct (Re.defineMatch (c :: r)) as [[n d]|];
      try destruct (inRelations st);
      try (cbn [result currentType pt_name]; rewrite ?Ec; reflexivity);
      (destruct (Re.conditionMatch (c :: r)) as [[cn cp]|];
       [cbn [result currentType flushType types]; unfold JS.push;
        rewrite ?map_app, ?app_nil_r; reflexivity|]);
      (destruct (inCondition st); [|rewrite ?Ec; reflexivity]);
      (destruct (currentCondition st); [|rewrite ?Ec; reflexivity]);
      destruct (JS.eqb (c :: r) "}"); cbn [result currentType types];
      rewrite ?Ec; reflexivity.
Qed.

Lemma typeNames_app (a b : list str) :
  typeNames (a ++ b) = typeNames a ++ typeNames b.
Proof. unfold typeNames. apply flat_map_app. Qed.

Lemma parseLines_types (lines : list str) :
  map pt_name (types (parseLines lines)) = typeNames lines.
Proof.
  unfold parseLines.
  assert (H : forall st,
             map pt_name (types (result (fold_left parseLine lines st)))
             ++ match currentType (fold_left parseLine lines st) with
                | Some ty => [pt_name ty]
                | None => []
                end
             = (map pt_name (types (result st))
                ++ match currentType st with
                   | Some ty => [pt_name ty]
                   | None => []
                   end)
               ++ typeNames lines).
  { induction lines as [|ln l IH]; intros st; cbn [fold_left].
    - unfold typeNames. cbn. rewrite app_nil_r. reflexivity.
    - rewrite IH, parseLine_types, <- app_assoc.
      rewrite <- typeNames_app. reflexivity. }
  specialize (H initialState).
  cbn [initialState result types currentType map app] in H.
  rewrite <- H.
  destruct (currentType (fold_left parseLine lines initialState));
    cbn [flushType types]; unfold JS.push;
    rewrite ?map_app, ?app_nil_r; reflexivity.
Qed.

Lemma convertType_name (fuel : nat) (ty : ParsedType) (td : TypeDefinition) :
  convertType fuel ty = Returns td -> td_type td = pt_name ty.
Proof.
  unfold convertType. destruct (0 <? length (pt_relations ty)).
  - destruct (convertRelations fuel (pt_relations ty) Obj.empty Obj.empty);
      cbn [bind]; try discriminate.
    intros H. injection H as <-. reflexivity.
  - intros H. injection H as <-. reflexivity.
Qed.

Lemma mapO_convertType_names (fuel : nat) (tys : list ParsedType) :
  forall tds,
    mapO (convertType fuel) tys = Returns tds ->
    map td_type tds = map pt_name tys.
Proof.
  induction tys as [|ty l IH]; intros tds H; cbn [mapO] in H.
  - injection H as <-. reflexivity.
  - destruct (convertType fuel ty) as [td| |] eqn:E; cbn [bind] in H;
      try discriminate H.
    destruct (mapO (convertType fuel) l) as [tds'| |]; cbn [bind] in H;
      try discriminate H.
    injection H as <-. cbn [map]. rewrite (convertType_name _ _ _ E).
    f_equal. apply IH. reflexivity.
Qed.

(** X4.  Every type line gives one type definition: the types of the model are
    the names of the type lines, in the order of the text, whatever stands
    between them. *)
Theorem parseDSL_types (fuel : nat) (dsl : str) (model : AuthorizationModel) :
  parseDSL fuel dsl = Returns model ->
  map td_type (type_definitions model) = typeNames (JS.split JS.newline dsl).
Proof.
  unfold parseDSL, convertToJSON. intros H.
  destruct (mapO (convertType fuel)
              (types (parseLines (JS.split JS.newline dsl))))
    as [tds| |] eqn:E; cbn [bind] in H; try discriminate H.
  injection H as <-. cbn [type_definitions].
  rewrite (mapO_convertType_names _ _ _ E). apply parseLines_types.
Qed.

Lemma parseDSL_types_witness :
  map td_type (type_definitions template_model)
  = typeNames (JS.split JS.newline template_text).
Proof.
  apply (parseDSL_types 2 template_text template_model).
  vm_compute. reflexivity.
Defined.

(** *** The schema version *)

Lemma flushType_schemaVersion (res : ParseResult) (cur : option ParsedType) :
  schemaVersion (flushType res cur) = schemaVersion res.
Proof. destruct cur; reflexivity. Qed.

Lemma parseLine_schemaVersion (st : ParseState) (ln : str) :
  schemaVersion (result (parseLine st ln))
  = last (schemaVersions [ln]) (schemaVersion (result st)).
Proof.
  unfold schemaVersions. cbn [flat_map]. rewrite app_nil_r. unfold parseLine.
  destruct (Re.schemaMatch (JS.trim ln)) as [v|] eqn:Es.
  - destruct (schemaMatch_line _ _ Es) as [(r & Et) _].
    rewrite Et.
    replace (JS.eqb ("s"%char :: r) "model") with false
      by (symmetry; apply eqb_neq; discriminate).
    replace (JS.startsWith "#" ("s"%char :: r)
             || JS.startsWith "//" ("s"%char :: r)) with false
      by reflexivity.
    reflexivity.
  - cbn [last].
    destruct (JS.trim ln) as [|c r]; [reflexivity|].
    destruct (JS.startsWith "#" (c :: r) || JS.startsWith "//" (c :: r));
      [reflexivity|].
    destruct (JS.eqb (c :: r) "model"); [reflexivity|].
    destruct (Re.typeMatch (c :: r));
      [cbn [result]; apply flushType_schemaVersion|].
    destruct (JS.eqb (c :: r) "relations"); [reflexivity|].
    destruct (Re.defineMatch (c :: r)) as [[n d]|];
      [destruct (currentType st) as [ty|] eqn:Ec;
       [destruct (inRelations st); [reflexivity|]|]|].
    all: destruct (Re.conditionMatch (c :: r)) as [[cn cp]|];
      [cbn [result]; apply flushType_schemaVersion|].
    all: destruct (inCondition st); [|reflexivity].
    all: destruct (currentCondition st); [|reflexivity].
    all: destruct (JS.eqb (c :: r) "}"); reflexivity.
Qed.

Lemma last_cons_default (l : list str) :
  forall x d, last (x :: l) d = last l x.
Proof.
  induction l as [|y l IH]; intros x d; [reflexivity|].
  change (last (x :: y :: l) d) with (last (y :: l) d).
  rewrite (IH y d), (IH y x). reflexivity.
Qed.

Lemma last_app_default (a b : list str) (d : str) :
  last (a ++ b) d = last b (last a d).
Proof.
  revert d. induction a as [|x a IH]; intros d; [reflexivity|].
  change ((x :: a) ++ b) with (x :: a ++ b).
  rewrite !last_cons_default. apply IH.
Qed.

Lemma schemaVersions_app (a b : list str) :
  schemaVersions (a ++ b) = schemaVersions a ++ schemaVersions b.
Proof. unfold schemaVersions. apply flat_map_app. Qed.

Lemma parseLines_schemaVersion (lines : list str) :
  schemaVersion (parseLines lines) = last (schemaVersions lines) "1.1".
Proof.
  unfold parseLines. rewrite flushType_schemaVersion.
  change ("1.1" : str) with (schemaVersion (result initialState)) at 1.
  generalize initialState.
  induction lines as [|ln l IH]; intros st; [reflexivity|].
  cbn [fold_left]. rewrite IH, parseLine_schemaVersion.
  change (ln :: l) with ([ln] ++ l).
  rewrite schemaVersions_app, last_app_default. reflexivity.
Qed.

Lemma schemaVersions_nonempty (lines : list str) :
  Forall (fun v => v <> []) (schemaVersions lines).
Proof.
  induction lines as [|ln l IH]; [constructor|].
  change (ln :: l) with ([ln] ++ l). rewrite schemaVersions_app.
  apply Forall_app. split; [|exact IH].
  unfold schemaVersions. cbn [flat_map]. rewrite app_nil_r.
  destruct (Re.schemaMatch (JS.trim ln)) as [v|] eqn:E; constructor;
    [|constructor].
  apply (schemaMatch_line _ _ E).
Qed.

(** X5.  The schema version of the model is the version of the last schema
    line, 1.1 when the text has none; it is never empty. *)
Theorem parseDSL_schema_version (fuel : nat) (dsl : str)
    (model : AuthorizationModel) :
  parseDSL fuel dsl = Returns model ->
  schema_version model = last (schemaVersions (JS.split JS.newline dsl)) "1.1"
  /\ schema_version model <> [].
Proof.
  unfold parseDSL, convertToJSON. intros H.
  destruct (mapO (convertType fuel)
              (types (parseLines (JS.split JS.newline dsl))))
    as [tds| |]; cbn [bind] in H; try discriminate H.
  injection H as <-. cbn [schema_version].
  rewrite parseLines_schemaVersion. split; [reflexivity|].
  pose proof (schemaVersions_nonempty (JS.split JS.newline dsl)) as Hall.
  destruct (schemaVersions (JS.split JS.newline dsl)) as [|v l] eqn:E;
    [discriminate|].
  rewrite Forall_forall in Hall. apply Hall.
  destruct (exists_last (l := v :: l)) as (l' & x & ->); [discriminate|].
  rewrite last_last. apply in_or_app. right. left. reflexivity.
Qed.

Lemma parseDSL_schema_version_witness :
  schema_version template_model
  = last (schemaVersions (JS.split JS.newline template_text)) "1.1"
  /\ schema_version template_model <> [].
Proof.
  apply (parseDSL_schema_version 2 template_text template_model).
  vm_compute. reflexivity.
Defined.

Lemma parseLines_schemaVersion_nonempty (lines : list str) :
  schemaVersion (parseLines lines) <> [].
Proof.
  rewrite parseLines_schemaVersion.
  pose proof (schemaVersions_nonempty lines) as Hall.
  destruct (schemaVersions lines) as [|v l] eqn:E; [discriminate|].
  rewrite Forall_forall in Hall. apply Hall.
  destruct (exists_last (l := v :: l)) as (l' & x & ->); [discriminate|].
  rewrite last_last. apply in_or_app. right. left. reflexivity.
Qed.

(** X6.  What [handleSaveModel] does with a text is decided by its type
    lines and by the parser alone.  With no type line the parser returns at
    every recursion depth and the error about the types is raised.  With a
    type line the model is submitted when the parser returns one, and nothing
    is submitted when the parser does not return.  The error about the schema
    version is never raised. *)
Theorem handleSaveModel_request (fuel : nat) (editContent : str) :
  handleSaveModel fuel editContent
  = match typeNames (JS.split JS.newline editContent) with
    | [] => Returns (SaveError msg_type_required)
    | _ :: _ =>
        modelData <-- parseDSL fuel editContent ;;
        Returns (Submit modelData)
    end.
Proof.
  unfold handleSaveModel, parseDSL, convertToJSON.
  set (lines := JS.split JS.newline editContent).
  pose proof (parseLines_schemaVersion_nonempty lines) as Hv.
  rewrite <- (parseLines_types lines).
  destruct (mapO (convertType fuel) (types (parseLines lines)))
    as [tds| |] eqn:E; cbn [bind schema_version type_definitions].
  - pose proof (mapO_convertType_names _ _ _ E) as Hn.
    destruct (schemaVersion (parseLines lines)) as [|c v]; [contradiction|].
    destruct (types (parseLines lines)) as [|ty l];
      destruct tds as [|td tds']; try discriminate Hn; reflexivity.
  - destruct (types (parseLines lines)) as [|ty l]; [discriminate E|].
    reflexivity.
  - destruct (types (parseLines lines)) as [|ty l]; [discriminate E|].
    reflexivity.
Qed.

End ParsedTypes.

(** ** The lines that the parser skips *)

Section SkippedLines.

Lemma parseLine_skipped (st : ParseState) (ln : str) :
  skipped ln = true -> parseLine st ln = st.
Proof.
  unfold skipped, parseLine. destruct (JS.trim ln) as [|c r]; [reflexivity|].
  destruct (JS.startsWith "#" (c :: r) || JS.startsWith "//" (c :: r));
    [reflexivity|].
  cbn [orb]. intros ->. reflexivity.
Qed.

(** X7.  A blank line, a comment or a [model] line can be taken out of a text,
    wherever it stands: the parser gives the same result. *)
Theorem parseDSL_skipped_line (fuel : nat) (before after : list str)
    (ln : str) :
  forallb is_line (before ++ ln :: after) = true ->
  skipped ln = true ->
  parseDSL fuel (JS.join JS.newline (before ++ ln :: after))
  = parseDSL fuel (JS.join JS.newline (before ++ after)).
Proof.
  intros Hlines Hs. unfold parseDSL.
  rewrite !parseLines_split_join.
  - rewrite parseLines_without; [reflexivity|].
    apply parseLine_skipped. exact Hs.
  - apply are_lines_spec. rewrite forallb_app in *.
    apply andb_prop in Hlines. destruct Hlines as [H1 H2].
    cbn [forallb] in H2. apply andb_prop in H2. destruct H2 as [_ H2].
    rewrite H1, H2. reflexivity.
  - apply are_lines_spec. exact Hlines.
Qed.

Lemma parseDSL_skipped_line_witness :
  parseDSL 2
    (JS.join JS.newline
       (JS.push [] ("type user" : str)
        ++ ("  # the users" : str) :: JS.push [] ("type group" : str)))
  = parseDSL 2
      (JS.join JS.newline
         (JS.push [] ("type user" : str) ++ JS.push [] ("type group" : str))).
Proof.
  apply (parseDSL_skipped_line 2 (JS.push [] ("type user" : str))
           (JS.push [] ("type group" : str)) "  # the users");
    reflexivity.
Defined.

End SkippedLines.

(** ** The identifiers with a time stamp *)

Section UlidProperties.

Lemma upper_lower (c : ascii) :
  Case.upper_units (Case.lower c) = Case.upper_units c.
Proof.
  assert (H : forall c,
             (if list_eq_dec N.eq_dec (Case.upper_units (Case.lower c))
                   (Case.upper_units c) then true else false) = true).
  { apply for_all_ascii. vm_compute. reflexivity. }
  specialize (H c).
  destruct (list_eq_dec N.eq_dec (Case.upper_units (Case.lower c))
              (Case.upper_units c)); [assumption|discriminate].
Qed.

Lemma toUpperCase_toLowerCase (s : str) :
  Case.toUpperCase (Case.toLowerCase s) = Case.toUpperCase s.
Proof.
  induction s as [|c r IH]; [reflexivity|].
  cbn [Case.toLowerCase Case.toUpperCase map flat_map].
  rewrite upper_lower. f_equal. exact IH.
Qed.


(** X9.  A date is returned only for an identifier of 26 characters, and it
    lies between the first day of 2020 and the first day of 2100. *)
Theorem extractTimestampFromULID_bounds (ulid : str) (t : N) :
  Ulid.extractTimestampFromULID ulid = Some t ->
  length ulid = 26 /\ (Ulid.minTime <= t <= Ulid.maxTime)%N.
Proof.
  unfold Ulid.extractTimestampFromULID.
  destruct (length ulid =? 26) eqn:El; [|discriminate].
  cbn [negb]. cbv zeta.
  destruct (Ulid.decode 10 _ 0) as [v|]; [|discriminate].
  destruct (v <? Ulid.minTime)%N eqn:E1; [discriminate|].
  destruct (Ulid.maxTime <? v)%N eqn:E2; [discriminate|].
  cbn [orb]. intros H. injection H as <-.
  apply Nat.eqb_eq in El. apply N.ltb_ge in E1. apply N.ltb_ge in E2.
  repeat split; assumption.
Qed.

Lemma extractTimestampFromULID_bounds_witness :
  length ("01HZZZZZZZTSV4RRFFQ69G5FAV" : str) = 26
  /\ (Ulid.minTime <= 1717986918399 <= Ulid.maxTime)%N.
Proof.
  apply (extractTimestampFromULID_bounds "01HZZZZZZZTSV4RRFFQ69G5FAV").
  vm_compute. reflexivity.
Defined.

(** *** Writing a time stamp and reading it back *)

Lemma encode_length (n : nat) :
  forall t, length (UlidText.encode n t) = n.
Proof.
  induction n as [|n IH]; intros t; [reflexivity|].
  cbn [UlidText.encode length]. rewrite IH. reflexivity.
Qed.

Lemma indexOf_digit (k : N) :
  (k < 32)%N ->
  Ulid.indexOf Ulid.ENCODING (N_of_ascii (UlidText.digit k))
  = Some (N.to_nat k).
Proof.
  intros H.
  assert (Hk : In (N.to_nat k) (seq 0 32)) by (apply in_seq; lia).
  rewrite <- (N2Nat.id k) at 1.
  revert Hk. generalize (N.to_nat k). intros i Hi.
  assert (Hall : forallb
            (fun i => match Ulid.indexOf Ulid.ENCODING
                              (N_of_ascii (UlidText.digit (N.of_nat i))) with
                      | Some j => j =? i
                      | None => false
                      end) (seq 0 32) = true) by (vm_compute; reflexivity).
  rewrite forallb_forall in Hall. specialize (Hall i Hi).
  destruct (Ulid.indexOf _ _) as [j|]; [|discriminate].
  apply Nat.eqb_eq in Hall. subst j. reflexivity.
Qed.

Lemma upper_digit (k : N) :
  (k < 32)%N ->
  Case.upper_units (UlidText.digit k) = [N_of_ascii (UlidText.digit k)].
Proof.
  intros H.
  assert (Hk : In (N.to_nat k) (seq 0 32)) by (apply in_seq; lia).
  rewrite <- (N2Nat.id k).
  revert Hk. generalize (N.to_nat k). intros i Hi.
  assert (Hall : forallb
            (fun i =>
               if list_eq_dec N.eq_dec
                    (Case.upper_units (UlidText.digit (N.of_nat i)))
                    [N_of_ascii (UlidText.digit (N.of_nat i))]
               then true else false) (seq 0 32) = true)
    by (vm_compute; reflexivity).
  rewrite forallb_forall in Hall. specialize (Hall i Hi).
  destruct (list_eq_dec _ _ _); [assumption|discriminate].
Qed.

(** Reading [n] digits after the ones that gave [timestamp]. *)
Lemma decode_encode (n : nat) :
  forall t timestamp rest,
    (t < 32 ^ N.of_nat n)%N ->
    Ulid.decode n (Case.toUpperCase (UlidText.encode n t ++ rest)) timestamp
    = Some (timestamp * 32 ^ N.of_nat n + t)%N.
Proof.
  induction n as [|n IH]; intros t timestamp rest Ht.
  - cbn in Ht |- *. f_equal. lia.
  - replace (N.of_nat (S n)) with (N.succ (N.of_nat n)) in * by lia.
    rewrite N.pow_succ_r' in *.
    set (p := (32 ^ N.of_nat n)%N) in *.
    assert (Hp : (0 < p)%N)
      by (apply N.neq_0_lt_0, N.pow_nonzero; discriminate).
    assert (Hd : (t / p < 32)%N)
      by (apply N.Div0.div_lt_upper_bound; lia).
    assert (Hm : (t mod p < p)%N) by (apply N.mod_lt; lia).
    cbn [UlidText.encode app Case.toUpperCase flat_map].
    fold p. rewrite (upper_digit _ Hd). cbn [app Ulid.decode].
    rewrite (indexOf_digit _ Hd).
    fold (Case.toUpperCase (UlidText.encode n (t mod p) ++ rest)).
    rewrite (IH _ _ _ Hm). f_equal. fold p.
    rewrite N2Nat.id.
    pose proof (N.div_mod t p ltac:(lia)) as E. nia.
Qed.

(** X10.  An identifier written from a time stamp between 2020 and 2100 and
    any sixteen further characters is read back as that time stamp. *)
Theorem extractTimestampFromULID_encodeTime (t : N) (random : str) :
  (Ulid.minTime <= t <= Ulid.maxTime)%N ->
  length random = 16 ->
  Ulid.extractTimestampFromULID (UlidText.encodeTime t ++ random) = Some t.
Proof.
  intros [Hmin Hmax] Hlen. unfold Ulid.extractTimestampFromULID.
  rewrite length_app. unfold UlidText.encodeTime.
  rewrite encode_length, Hlen. cbn [Nat.eqb negb Nat.add]. cbv zeta.
  rewrite firstn_app, encode_length.
  rewrite firstn_all2 by (rewrite encode_length; lia).
  replace (firstn (10 - 10) random) with (@nil ascii) by reflexivity.
  rewrite (decode_encode 10 t 0 []).
  - cbn [N.mul N.add].
    apply N.ltb_ge in Hmin. apply N.ltb_ge in Hmax.
    rewrite Hmin, Hmax. reflexivity.
  - unfold Ulid.maxTime in Hmax. cbn. lia.
Qed.

Lemma extractTimestampFromULID_encodeTime_witness :
  Ulid.extractTimestampFromULID
    (UlidText.encodeTime 1717986918399 ++ "TSV4RRFFQ69G5FAV")
  = Some 1717986918399%N.
Proof.
  apply (extractTimestampFromULID_encodeTime 1717986918399 "TSV4RRFFQ69G5FAV").
  - vm_compute. split; discriminate.
  - reflexivity.
Defined.

(** *** The order of identifiers and the order of their time stamps *)

Lemma indexOf_from_bound (s : str) (u : N) :
  forall i k, Ulid.indexOf_from i s u = Some k -> i <= k < i + length s.
Proof.
  induction s as [|c r IH]; intros i k H; cbn in H; [discriminate|].
  destruct (N_of_ascii c =? u)%N.
  - injection H as <-. cbn [length]. lia.
  - apply IH in H. cbn [length]. lia.
Qed.

Lemma indexOf_lt (u : N) (k : nat) :
  Ulid.indexOf Ulid.ENCODING u = Some k -> k < 32.
Proof.
  intros H. apply indexOf_from_bound in H.
  change (length Ulid.ENCODING) with 32 in H. lia.
Qed.

Lemma decode_range (n : nat) :
  forall units timestamp v,
    Ulid.decode n units timestamp = Some v ->
    (timestamp * 32 ^ N.of_nat n <= v < (timestamp + 1) * 32 ^ N.of_nat n)%N.
Proof.
  induction n as [|n IH]; intros units timestamp v H.
  - cbn in H. injection H as <-. cbn. lia.
  - cbn [Ulid.decode] in H. destruct units as [|u r]; [discriminate|].
    destruct (Ulid.indexOf Ulid.ENCODING u) as [k|] eqn:Ek; [|discriminate].
    apply indexOf_lt in Ek. apply IH in H.
    replace (N.of_nat (S n)) with (N.succ (N.of_nat n)) by lia.
    rewrite N.pow_succ_r'. nia.
Qed.

Lemma digits_order (x y : ascii) : UlidText.digits_in_order x y = true.
Proof.
  revert y. revert x.
  assert (H : forall x, forallb (UlidText.digits_in_order x) all_ascii = true).
  { apply for_all_ascii. vm_compute. reflexivity. }
  intros x y. specialize (H x). rewrite forallb_forall in H.
  apply H. apply in_all_ascii.
Qed.

Lemma upper_canonical (c : ascii) :
  existsb (Char.eqb c) Ulid.ENCODING = true ->
  Case.upper_units c = [N_of_ascii c].
Proof.
  assert (H : forall c,
             (negb (existsb (Char.eqb c) Ulid.ENCODING)
              || if list_eq_dec N.eq_dec (Case.upper_units c) [N_of_ascii c]
                 then true else false) = true).
  { apply for_all_ascii. vm_compute. reflexivity. }
  intros Hc. specialize (H c). rewrite Hc in H. cbn [negb orb] in H.
  destruct (list_eq_dec _ _ _); [assumption|discriminate].
Qed.

Lemma toUpperCase_canonical (s : str) :
  forallb (fun c => existsb (Char.eqb c) Ulid.ENCODING) s = true ->
  Case.toUpperCase s = map N_of_ascii s.
Proof.
  induction s as [|c r IH]; [reflexivity|].
  cbn [forallb]. intros H. apply andb_true_iff in H. destruct H as [Hc Hr].
  cbn [Case.toUpperCase flat_map map]. rewrite (upper_canonical _ Hc).
  cbn [app]. f_equal. apply IH. exact Hr.
Qed.

Lemma decode_order (n : nat) :
  forall a b timestamp va vb,
    Ulid.decode n (map N_of_ascii (firstn n a)) timestamp = Some va ->
    Ulid.decode n (map N_of_ascii (firstn n b)) timestamp = Some vb ->
    (va < vb)%N ->
    Order.ltb a b = true.
Proof.
  induction n as [|n IH]; intros a b ts va vb Ha Hb Hlt.
  - cbn in Ha, Hb. injection Ha as <-. injection Hb as <-. lia.
  - destruct a as [|x a]; [discriminate Ha|].
    destruct b as [|y b]; [discriminate Hb|].
    cbn [firstn map Ulid.decode] in Ha, Hb.
    pose proof (digits_order x y) as Hxy. unfold UlidText.digits_in_order in Hxy.
    destruct (Ulid.indexOf Ulid.ENCODING (N_of_ascii x)) as [i|] eqn:Ei;
      [|discriminate Ha].
    destruct (Ulid.indexOf Ulid.ENCODING (N_of_ascii y)) as [j|] eqn:Ej;
      [|discriminate Hb].
    cbn [Order.ltb].
    destruct (i <? j) eqn:Eij; [rewrite Hxy; reflexivity|].
    destruct (i =? j) eqn:Eeq.
    + apply Nat.eqb_eq in Eeq. subst j.
      apply char_eqb_eq in Hxy. subst y.
      rewrite Nat.ltb_irrefl, Nat.eqb_refl. cbn [orb andb].
      apply (IH a b _ va vb Ha Hb Hlt).
    + exfalso. apply Nat.ltb_ge in Eij. apply Nat.eqb_neq in Eeq.
      apply decode_range in Ha. apply decode_range in Hb.
      assert (Hp : (0 < 32 ^ N.of_nat n)%N)
        by (apply N.neq_0_lt_0, N.pow_nonzero; discriminate).
      assert (Hji : (N.of_nat j + 1 <= N.of_nat i)%N) by lia.
      nia.
Qed.

(** X11.  Of two identifiers written in capital letters, the one with the
    earlier time stamp comes first in the order of strings. *)
Theorem extractTimestampFromULID_order (a b : str) (ta tb : N) :
  UlidText.canonical a = true -> UlidText.canonical b = true ->
  Ulid.extractTimestampFromULID a = Some ta ->
  Ulid.extractTimestampFromULID b = Some tb ->
  (ta < tb)%N ->
  Order.ltb a b = true.
Proof.
  unfold UlidText.canonical, Ulid.extractTimestampFromULID.
  intros Ca Cb Ha Hb Hlt.
  destruct (negb (length a =? 26)); [discriminate Ha|].
  destruct (negb (length b =? 26)); [discriminate Hb|].
  cbv zeta in Ha, Hb.
  rewrite (toUpperCase_canonical _ Ca) in Ha.
  rewrite (toUpperCase_canonical _ Cb) in Hb.
  destruct (Ulid.decode 10 (map N_of_ascii (firstn 10 a)) 0) as [va|] eqn:Ea;
    [|discriminate Ha].
  destruct (Ulid.decode 10 (map N_of_ascii (firstn 10 b)) 0) as [vb|] eqn:Eb;
    [|discriminate Hb].
  destruct ((va <? Ulid.minTime)%N || (Ulid.maxTime <? va)%N);
    [discriminate Ha|].
  destruct ((vb <? Ulid.minTime)%N || (Ulid.maxTime <? vb)%N);
    [discriminate Hb|].
  injection Ha as ->. injection Hb as ->.
  apply (decode_order 10 a b 0%N ta tb Ea Eb Hlt).
Qed.

Lemma extractTimestampFromULID_order_witness :
  Order.ltb "01HZZZZZZZTSV4RRFFQ69G5FAV" "01J0000000AAAAAAAAAAAAAAAA" = true.
Proof.
  apply (extractTimestampFromULID_order
           "01HZZZZZZZTSV4RRFFQ69G5FAV" "01J0000000AAAAAAAAAAAAAAAA"
           1717986918399 1717986918400);
    vm_compute; reflexivity.
Defined.

(** *** The age of a date *)

(** X12.  The texts of [formatRelativeTime] by the age in milliseconds: a date
    in the future or less than a minute old is just now; then the whole
    minutes up to an hour, the whole hours up to a day, the whole days up to a
    week; from a week on the date itself is written. *)
Theorem formatRelativeTime_ages (toLocaleString : Z -> str) (now t : Z) :
  Ulid.formatRelativeTime toLocaleString now (Some t)
  = let age := (now - t)%Z in
    if (age <? 60000)%Z then "Just now"
    else if (age <? 3600000)%Z then Ulid.ago (age / 60000) "minute"
    else if (age <? 86400000)%Z then Ulid.ago (age / 3600000) "hour"
    else if (age <? 604800000)%Z then Ulid.ago (age / 86400000) "day"
    else toLocaleString t.
Proof.
  unfold Ulid.formatRelativeTime, Ulid.formatDateTime. cbv zeta.
  set (age := (now - t)%Z).
  rewrite !Z.div_div by lia.
  change (1000 * 60)%Z with 60000%Z.
  change (60000 * 60)%Z with 3600000%Z.
  change (3600000 * 24)%Z with 86400000%Z.
  assert (E : forall d q, (0 < d)%Z ->
                (age / d <? q)%Z = (age <? d * q)%Z).
  { intros d q Hd. destruct (age <? d * q)%Z eqn:E1.
    - apply Z.ltb_lt. apply Z.ltb_lt in E1.
      apply Z.div_lt_upper_bound; assumption.
    - apply Z.ltb_ge. apply Z.ltb_ge in E1.
      apply Z.div_le_lower_bound; assumption. }
  rewrite !E by lia.
  reflexivity.
Qed.

End UlidProperties.

(** ** Sets and maps in the order of insertion *)

Section Insertion.

Context {A : Type}.

Lemma fold_left_invariant {S X : Type} (f : S -> X -> S) (P : S -> Prop)
    (l : list X) :
  (forall st x, In x l -> P st -> P (f st x)) ->
  forall st, P st -> P (fold_left f l st).
Proof.
  induction l as [|x l IH]; intros Hstep st H; [exact H|].
  cbn [fold_left]. apply IH.
  - intros st' y Hy. apply Hstep. right. exact Hy.
  - apply Hstep; [left; reflexivity|exact H].
Qed.

Lemma fold_left_seen {S X : Type} (f : S -> X -> S)
    (P : list X -> S -> Prop) (l : list X) :
  (forall seen st x, P seen st -> P (seen ++ [x]) (f st x)) ->
  forall seen st, P seen st -> P (seen ++ l) (fold_left f l st).
Proof.
  intros Hstep. induction l as [|x l IH]; intros seen st H.
  - rewrite app_nil_r. exact H.
  - cbn [fold_left].
    replace (seen ++ x :: l) with ((seen ++ [x]) ++ l)
      by (rewrite <- app_assoc; reflexivity).
    apply IH. apply Hstep. exact H.
Qed.

Lemma has_in (k : str) (m : list (str * A)) :
  Obj.has k m = true <-> In k (map fst m).
Proof.
  induction m as [|[k' v] m IH]; cbn; [split; [discriminate|contradiction]|].
  rewrite orb_true_iff, IH, eqb_eq. split; intros [H|H]; auto.
Qed.

Lemma replace_keys (k : str) (v : A) (m : list (str * A)) :
  map fst (Obj.replace k v m) = map fst m.
Proof.
  induction m as [|[k' v'] m IH]; [reflexivity|].
  cbn. destruct (JS.eqb k k'); cbn; [reflexivity|]. f_equal. exact IH.
Qed.

Lemma replace_entry (k : str) (v : A) (m : list (str * A)) (e : str * A) :
  In e (Obj.replace k v m) -> e = (k, v) \/ In e m.
Proof.
  induction m as [|[k' v'] m IH]; [contradiction|].
  cbn. destruct (JS.eqb k k') eqn:E.
  - apply eqb_eq in E. subst k'. intros [<-|H]; auto.
  - intros [<-|H]; auto. destruct (IH H); auto.
Qed.

Lemma mapset_keys (k : str) (v : A) (m : list (str * A)) :
  map fst (JSMap.set k v m)
  = if Obj.has k m then map fst m else map fst m ++ [k].
Proof.
  unfold JSMap.set, JS.push. destruct (Obj.has k m).
  - apply replace_keys.
  - rewrite map_app. reflexivity.
Qed.

Lemma mapset_nodup (k : str) (v : A) (m : list (str * A)) :
  NoDup (map fst m) -> NoDup (map fst (JSMap.set k v m)).
Proof.
  intros H. rewrite mapset_keys. destruct (Obj.has k m) eqn:E; [exact H|].
  apply NoDup_app; [exact H|repeat constructor; intros []|].
  intros x Hx [<-|[]]. apply has_in in Hx. congruence.
Qed.

Lemma mapset_key (k : str) (v : A) (m : list (str * A)) :
  In k (map fst (JSMap.set k v m)).
Proof.
  rewrite mapset_keys. destruct (Obj.has k m) eqn:E.
  - apply has_in. exact E.
  - apply in_or_app. right. left. reflexivity.
Qed.

Lemma mapset_keeps (k k' : str) (v : A) (m : list (str * A)) :
  In k' (map fst m) -> In k' (map fst (JSMap.set k v m)).
Proof.
  intros H. rewrite mapset_keys. destruct (Obj.has k m); [exact H|].
  apply in_or_app. left. exact H.
Qed.

Lemma mapset_entry (k : str) (v : A) (m : list (str * A)) (e : str * A) :
  In e (JSMap.set k v m) -> e = (k, v) \/ In e m.
Proof.
  unfold JSMap.set, JS.push. destruct (Obj.has k m).
  - apply replace_entry.
  - intros H. apply in_app_or in H. destruct H as [H|[<-|[]]]; auto.
Qed.

End Insertion.

Lemma sethas_in (x : str) (s : list str) :
  JSSet.has x s = true <-> In x s.
Proof.
  unfold JSSet.has. rewrite existsb_exists. split.
  - intros (y & Hy & E). apply eqb_eq in E. subst y. exact Hy.
  - intros H. exists x. split; [exact H|apply eqb_refl].
Qed.

Lemma setadd_in (x y : str) (s : list str) :
  In y (JSSet.add x s) <-> y = x \/ In y s.
Proof.
  unfold JSSet.add, JS.push. destruct (JSSet.has x s) eqn:E.
  - apply sethas_in in E. split; [auto|]. intros [->|H]; assumption.
  - rewrite in_app_iff. cbn. split; intros H.
    + destruct H as [H|[<-|[]]]; auto.
    + destruct H as [->|H]; auto.
Qed.

Lemma setadd_nodup (x : str) (s : list str) :
  NoDup s -> NoDup (JSSet.add x s).
Proof.
  intros H. unfold JSSet.add, JS.push. destruct (JSSet.has x s) eqn:E;
    [exact H|].
  apply NoDup_app; [exact H|repeat constructor; intros []|].
  intros y Hy [<-|[]]. apply sethas_in in Hy. congruence.
Qed.

(** ** The names of the tuples *)

Section TupleNames.

Lemma dropWhile_head (p : ascii -> bool) (s : str) (c : ascii) (r : str) :
  JS.dropWhile p s = c :: r -> p c = false.
Proof.
  induction s as [|x s IH]; cbn; [discriminate|].
  destruct (p x) eqn:E; [exact IH|].
  intros H. injection H as <- _. exact E.
Qed.

Lemma typePrefix_inv (s t rest : str) :
  TupleRe.typePrefix s = Some (t, rest) ->
  s = t ++ ":" ++ rest /\ t <> [] /\ forallb TupleRe.not_colon t = true.
Proof.
  unfold TupleRe.typePrefix.
  destruct (span_takeWhile TupleRe.not_colon s) as [Hs Ht].
  destruct (JS.takeWhile TupleRe.not_colon s) as [|a t'] eqn:E1;
    [discriminate|].
  destruct (JS.dropWhile TupleRe.not_colon s) as [|c r] eqn:E2;
    [discriminate|].
  intros H. injection H as <- <-.
  apply dropWhile_head in E2. unfold TupleRe.not_colon in E2.
  apply negb_false_iff, char_eqb_eq in E2. subst c.
  repeat split; [exact Hs|discriminate|exact Ht].
Qed.

Lemma typedName_inv (s t n : str) :
  TupleRe.typedName s = Some (t, n) -> s = t ++ ":" ++ n.
Proof.
  unfold TupleRe.typedName.
  destruct (TupleRe.typePrefix s) as [[t' rest]|] eqn:E; [|discriminate].
  destruct (TupleRe.nonempty rest && forallb Char.is_dot rest);
    [|discriminate].
  intros H. injection H as <- <-. apply typePrefix_inv in E. apply E.
Qed.

Lemma usersetName_inv (s t n r : str) :
  TupleRe.usersetName s = Some (t, n, r) -> s = t ++ ":" ++ n ++ "#" ++ r.
Proof.
  unfold TupleRe.usersetName.
  destruct (TupleRe.typePrefix s) as [[t' rest]|] eqn:E; [|discriminate].
  destruct (span_takeWhile TupleRe.not_hash rest) as [Hs Ht].
  destruct (JS.takeWhile TupleRe.not_hash rest) as [|a n'] eqn:E1;
    [discriminate|].
  destruct (JS.dropWhile TupleRe.not_hash rest) as [|c r'] eqn:E2;
    [discriminate|].
  destruct (TupleRe.nonempty r' && forallb Char.is_dot r'); [|discriminate].
  intros H. injection H as <- <- <-.
  apply dropWhile_head in E2. unfold TupleRe.not_hash in E2.
  apply negb_false_iff, char_eqb_eq in E2. subst c.
  apply typePrefix_inv in E. destruct E as [-> _].
  rewrite Hs. reflexivity.
Qed.

End TupleNames.

(** ** The graph of the tuples *)

Section Graph.

Import RelationshipTree.

Variable darkMode : bool.

Ltac add_tuple_cases :=
  unfold addTuple; cbv zeta;
  match goal with
  | |- context [negb (TupleRe.nonempty ?a) || negb (TupleRe.nonempty ?b)
                || negb (TupleRe.nonempty ?c)] =>
      destruct (negb (TupleRe.nonempty a) || negb (TupleRe.nonempty b)
                || negb (TupleRe.nonempty c)) eqn:Efields
  end.

Lemma map_injective_nodup {X Y : Type} (f : X -> Y) (l : list X) :
  (forall x y, f x = f y -> x = y) -> NoDup l -> NoDup (map f l).
Proof.
  intros Hf H. induction H as [|x l Hx H IH]; cbn; constructor; [|exact IH].
  intros Hin. apply in_map_iff in Hin. destruct Hin as (y & E & Hy).
  apply Hf in E. subst y. contradiction.
Qed.

(** What one tuple does to the nodes: nothing, or one or two calls of
    [nodesMap.set], each with the two parts of its key. *)
Lemma addTuple_nodes (st : GraphState) (tuple : TupleKey) :
  exists sets,
    nodesMap (addTuple darkMode st tuple)
    = fold_left (fun m kv => JSMap.set (fst kv) (snd kv) m) sets (nodesMap st)
    /\ Forall (fun kv => fst kv = fst (snd kv) ++ ":" ++ snd (snd kv)) sets
    /\ (TupleRe.nonempty (tk_object tuple) = true ->
        TupleRe.nonempty (tk_user tuple) = true ->
        TupleRe.nonempty (tk_relation tuple) = true ->
        (TupleRe.typedName (tk_object tuple) = None
         \/ In (tk_object tuple) (map fst sets))
        /\ (TupleRe.typedName (tk_user tuple) = None
            \/ In (tk_user tuple) (map fst sets))).
Proof.
  add_tuple_cases.
  - exists []. split; [reflexivity|]. split; [constructor|].
    intros H1 H2 H3. rewrite H1, H2, H3 in Efields. discriminate Efields.
  - set (parent := tk_object tuple). set (child := tk_user tuple).
    assert (E : exists sets,
               (match TupleRe.usersetName child with
                | Some (t, n, r) =>
                    JSMap.set child (t, n ++ "#" ++ r)
                      match TupleRe.typedName parent with
                      | Some (t0, n0) =>
                          JSMap.set parent (t0, n0) (nodesMap st)
                      | None => nodesMap st
                      end
                | None =>
                    match TupleRe.typedName child with
                    | Some (t, n) =>
                        JSMap.set child (t, n)
                          match TupleRe.typedName parent with
                          | Some (t0, n0) =>
                              JSMap.set parent (t0, n0) (nodesMap st)
                          | None => nodesMap st
                          end
                    | None =>
                        match TupleRe.typedName parent with
                        | Some (t0, n0) =>
                            JSMap.set parent (t0, n0) (nodesMap st)
                        | None => nodesMap st
                        end
                    end
                end
                = fold_left (fun m kv => JSMap.set (fst kv) (snd kv) m) sets
                    (nodesMap st))
               /\ Forall
                    (fun kv => fst kv = fst (snd kv) ++ ":" ++ snd (snd kv))
                    sets
               /\ (TupleRe.typedName parent = None
                   \/ In parent (map fst sets))
               /\ (TupleRe.typedName child = None
                   \/ In child (map fst sets))).
    { destruct (TupleRe.typedName parent) as [[t0 n0]|] eqn:Ep;
        destruct (TupleRe.usersetName child) as [[[t n] r]|] eqn:Ec;
        try destruct (TupleRe.typedName child) as [[t1 n1]|] eqn:Ec'.
      all: repeat match goal with
             | H : TupleRe.typedName _ = Some _ |- _ =>
                 apply typedName_inv in H
             | H : TupleRe.usersetName _ = Some _ |- _ =>
                 apply usersetName_inv in H
             end.
      1,2: exists [(parent, (t0, n0)); (child, (t, n ++ "#" ++ r))].
      3: exists [(parent, (t0, n0)); (child, (t1, n1))].
      4: exists [(parent, (t0, n0))].
      5,6: exists [(child, (t, n ++ "#" ++ r))].
      7: exists [(child, (t1, n1))].
      8: exists [].
      all: cbn [fold_left fst snd map In].
      all: split; [reflexivity|].
      all: split; [repeat constructor; cbn [fst snd]; assumption|].
      all: split; auto. }
    destruct E as (sets & E1 & E2 & E3 & E4).
    exists sets.
    destruct (JSSet.has (edgeKey tuple) (addedEdges st));
      cbn [nodesMap]; (split; [exact E1|]); (split; [exact E2|]);
      intros _ _ _; split; assumption.
Qed.

Lemma sets_nodup (sets : list (str * (str * str))) :
  forall m, NoDup (map fst m) ->
    NoDup (map fst (fold_left (fun m kv => JSMap.set (fst kv) (snd kv) m)
                      sets m)).
Proof.
  induction sets as [|kv sets IH]; intros m H; [exact H|].
  cbn [fold_left]. apply IH. apply mapset_nodup. exact H.
Qed.

Lemma sets_names (sets : list (str * (str * str))) :
  Forall (fun kv => fst kv = fst (snd kv) ++ ":" ++ snd (snd kv)) sets ->
  forall m,
    Forall (fun kv => fst kv = fst (snd kv) ++ ":" ++ snd (snd kv)) m ->
    Forall (fun kv => fst kv = fst (snd kv) ++ ":" ++ snd (snd kv))
      (fold_left (fun m kv => JSMap.set (fst kv) (snd kv) m) sets m).
Proof.
  induction sets as [|kv sets IH]; intros Hs m H; [exact H|].
  cbn [fold_left]. inversion Hs as [|? ? Hkv Hs']; subst.
  apply IH; [exact Hs'|].
  apply Forall_forall. intros e He. apply mapset_entry in He.
  destruct He as [->|He].
  - destruct kv as [k v]. exact Hkv.
  - rewrite Forall_forall in H. apply H. exact He.
Qed.

Lemma sets_keys (sets : list (str * (str * str))) :
  forall m k,
    In k (map fst m) \/ In k (map fst sets) ->
    In k (map fst (fold_left (fun m kv => JSMap.set (fst kv) (snd kv) m)
                     sets m)).
Proof.
  induction sets as [|kv sets IH]; intros m k H.
  - destruct H as [H|[]]. exact H.
  - cbn [fold_left]. apply IH. cbn [map In] in H.
    destruct H as [H|[<-|H]]; auto.
    + left. apply mapset_keeps. exact H.
    + left. apply mapset_key.
Qed.

Lemma build_nodes (l : list TupleKey) :
  NoDup (map fst (nodesMap (build darkMode l)))
  /\ Forall (fun kv => fst kv = fst (snd kv) ++ ":" ++ snd (snd kv))
       (nodesMap (build darkMode l)).
Proof.
  unfold build.
  apply (fold_left_invariant (addTuple darkMode)
           (fun st =>
              NoDup (map fst (nodesMap st))
              /\ Forall (fun kv => fst kv = fst (snd kv) ++ ":" ++ snd (snd kv))
                   (nodesMap st))).
  - intros st x _ [H1 H2].
    destruct (addTuple_nodes st x) as (sets & -> & Hs & _).
    split; [apply sets_nodup; exact H1|apply sets_names; assumption].
  - split; constructor.
Qed.

Lemma addTuple_keeps_nodes (st : GraphState) (tuple : TupleKey) (k : str) :
  In k (map fst (nodesMap st)) ->
  In k (map fst (nodesMap (addTuple darkMode st tuple))).
Proof.
  intros H. destruct (addTuple_nodes st tuple) as (sets & -> & _).
  apply sets_keys. left. exact H.
Qed.

(** What one tuple does to the edges. *)
Lemma addTuple_edges (st : GraphState) (tuple : TupleKey) :
  (edgesArray (addTuple darkMode st tuple) = edgesArray st
   /\ addedEdges (addTuple darkMode st tuple) = addedEdges st
   /\ (TupleRe.nonempty (tk_object tuple) = true ->
       TupleRe.nonempty (tk_user tuple) = true ->
       TupleRe.nonempty (tk_relation tuple) = true ->
       In (edgeKey tuple) (addedEdges st)))
  \/ (edgesArray (addTuple darkMode st tuple)
      = edgesArray st
        ++ [mkGraphEdge ("e-" ++ edgeKey tuple) (tk_object tuple)
              (tk_user tuple) (tk_relation tuple) darkMode]
      /\ addedEdges (addTuple darkMode st tuple)
         = addedEdges st ++ [edgeKey tuple]
      /\ ~ In (edgeKey tuple) (addedEdges st)
      /\ TupleRe.nonempty (tk_object tuple) = true
      /\ TupleRe.nonempty (tk_user tuple) = true
      /\ TupleRe.nonempty (tk_relation tuple) = true).
Proof.
  add_tuple_cases.
  - left. repeat split. intros H1 H2 H3. rewrite H1, H2, H3 in Efields.
    discriminate Efields.
  - destruct (JSSet.has (edgeKey tuple) (addedEdges st)) eqn:Eh;
      cbn [edgesArray addedEdges].
    + left. repeat split. intros _ _ _. apply sethas_in. exact Eh.
    + right. unfold JSSet.add, JS.push. rewrite Eh.
      apply orb_false_elim in Efields. destruct Efields as [Ef E3].
      apply orb_false_elim in Ef. destruct Ef as [E1 E2].
      apply negb_false_iff in E1, E2, E3.
      repeat split; try assumption.
      intros Hin. apply sethas_in in Hin. congruence.
Qed.

Lemma build_edges (l : list TupleKey) :
  map edge_id (edgesArray (build darkMode l))
  = map (app "e-") (addedEdges (build darkMode l))
  /\ NoDup (addedEdges (build darkMode l)).
Proof.
  unfold build.
  apply (fold_left_invariant (addTuple darkMode)
           (fun st =>
              map edge_id (edgesArray st) = map (app "e-") (addedEdges st)
              /\ NoDup (addedEdges st))).
  - intros st x _ [H1 H2].
    destruct (addTuple_edges st x) as [(-> & -> & _)|(-> & -> & Hn & _)].
    + split; assumption.
    + rewrite !map_app, H1. split; [reflexivity|].
      apply NoDup_app; [exact H2|repeat constructor; intros []|].
      intros y Hy [<-|[]]. contradiction.
  - split; constructor.
Qed.

Lemma build_edges_from (l : list TupleKey) :
  Forall
    (fun e =>
       exists tuple,
         In tuple l
         /\ e = mkGraphEdge ("e-" ++ edgeKey tuple) (tk_object tuple)
                  (tk_user tuple) (tk_relation tuple) darkMode)
    (edgesArray (build darkMode l)).
Proof.
  unfold build.
  apply (fold_left_invariant (addTuple darkMode)
           (fun st =>
              Forall
                (fun e =>
                   exists tuple,
                     In tuple l
                     /\ e = mkGraphEdge ("e-" ++ edgeKey tuple)
                              (tk_object tuple) (tk_user tuple)
                              (tk_relation tuple) darkMode)
                (edgesArray st))).
  - intros st x Hx H.
    destruct (addTuple_edges st x) as [(-> & _)|(-> & _)]; [exact H|].
    apply Forall_app. split; [exact H|].
    constructor; [|constructor]. exists x. split; [exact Hx|reflexivity].
  - constructor.
Qed.

Lemma build_endpoints (l : list TupleKey) :
  Forall
    (fun e =>
       (TupleRe.typedName (edge_source e) = None
        \/ In (edge_source e) (map fst (nodesMap (build darkMode l))))
       /\ (TupleRe.typedName (edge_target e) = None
           \/ In (edge_target e) (map fst (nodesMap (build darkMode l)))))
    (edgesArray (build darkMode l)).
Proof.
  unfold build.
  apply (fold_left_invariant (addTuple darkMode)
           (fun st =>
              Forall
                (fun e =>
                   (TupleRe.typedName (edge_source e) = None
                    \/ In (edge_source e) (map fst (nodesMap st)))
                   /\ (TupleRe.typedName (edge_target e) = None
                       \/ In (edge_target e) (map fst (nodesMap st))))
                (edgesArray st))).
  - intros st x _ H.
    assert (Hold : Forall
              (fun e =>
                 (TupleRe.typedName (edge_source e) = None
                  \/ In (edge_source e)
                       (map fst (nodesMap (addTuple darkMode st x))))
                 /\ (TupleRe.typedName (edge_target e) = None
                     \/ In (edge_target e)
                          (map fst (nodesMap (addTuple darkMode st x)))))
              (edgesArray st)).
    { eapply Forall_impl; [|exact H]. intros e [[H1|H1] [H2|H2]]; split; auto;
        right; apply addTuple_keeps_nodes; assumption. }
    destruct (addTuple_edges st x)
      as [(-> & _)|(-> & _ & _ & Ho & Hu & Hr)]; [exact Hold|].
    apply Forall_app. split; [exact Hold|].
    constructor; [|constructor]. cbn [edge_source edge_target].
    destruct (addTuple_nodes st x) as (sets & -> & _ & Hs).
    destruct (Hs Ho Hu Hr) as [[H1|H1] [H2|H2]]; split; auto;
      right; apply sets_keys; right; assumption.
  - constructor.
Qed.

Lemma build_key_added (l : list TupleKey) (tuple : TupleKey) :
  In tuple l ->
  TupleRe.nonempty (tk_object tuple) = true ->
  TupleRe.nonempty (tk_user tuple) = true ->
  TupleRe.nonempty (tk_relation tuple) = true ->
  In (edgeKey tuple) (addedEdges (build darkMode l)).
Proof.
  intros Hin Ho Hu Hr. unfold build.
  assert (H : forall seen st,
             (In tuple seen -> In (edgeKey tuple) (addedEdges st)) ->
             In tuple (seen ++ l) ->
             In (edgeKey tuple)
               (addedEdges (fold_left (addTuple darkMode) l st))).
  { clear Hin. induction l as [|x l IH]; intros seen st Hseen Hin.
    - rewrite app_nil_r in Hin. apply Hseen. exact Hin.
    - cbn [fold_left]. apply (IH (seen ++ [x])).
      + intros Hx. apply in_app_or in Hx.
        destruct (addTuple_edges st x) as [(_ & -> & Hk)|(_ & -> & _)].
        * destruct Hx as [Hx|[->|[]]]; [apply Hseen; exact Hx|].
          apply Hk; assumption.
        * apply in_or_app. destruct Hx as [Hx|[->|[]]];
            [left; apply Hseen; exact Hx|right; left; reflexivity].
      + rewrite <- app_assoc. exact Hin. }
  apply (H [] _); [intros []|exact Hin].
Qed.

End Graph.

Section GraphElements.

Import RelationshipTree.

Variables (selectedType selectedRelation : str) (darkMode : bool).

Lemma elements_cases (tuples : list TupleKey) :
  elements tuples selectedType selectedRelation darkMode = ([], [])
  \/ elements tuples selectedType selectedRelation darkMode
     = (nodesOf darkMode
          (build darkMode
             (filter (shown selectedType selectedRelation) tuples)),
        edgesArray
          (build darkMode
             (filter (shown selectedType selectedRelation) tuples))).
Proof.
  unfold elements. destruct tuples as [|x l]; [left; reflexivity|].
  cbv zeta. destruct (nodesOf darkMode _); [left|right]; reflexivity.
Qed.

Lemma shown_fields (tuple : TupleKey) :
  shown selectedType selectedRelation tuple = true ->
  TupleRe.nonempty (tk_object tuple) = true
  /\ TupleRe.nonempty (tk_user tuple) = true
  /\ TupleRe.nonempty (tk_relation tuple) = true.
Proof.
  unfold shown. cbv zeta.
  destruct (TupleRe.nonempty (tk_object tuple));
    destruct (TupleRe.nonempty (tk_user tuple));
    destruct (TupleRe.nonempty (tk_relation tuple)); cbn [negb orb];
    try discriminate.
  repeat split.
Qed.

(** X13.  The graph has each node once, and the id of a node is its type, a
    colon and its label. *)
Theorem elements_nodes (tuples : list TupleKey) :
  NoDup (map node_id
           (fst (elements tuples selectedType selectedRelation darkMode)))
  /\ Forall (fun n => node_id n = node_type n ++ ":" ++ node_label n)
       (fst (elements tuples selectedType selectedRelation darkMode)).
Proof.
  destruct (elements_cases tuples) as [->| ->]; cbn [fst].
  - split; constructor.
  - destruct (build_nodes darkMode
                (filter (shown selectedType selectedRelation) tuples))
      as [H1 H2].
    unfold nodesOf. rewrite map_map. cbn [node_id]. split; [exact H1|].
    apply Forall_map. cbn [node_id node_type node_label]. exact H2.
Qed.

(** X14.  The graph has each edge id once, and every edge is the edge of a
    tuple that passes the filter: from its object to its user, with its
    relation as label. *)
Theorem elements_edges (tuples : list TupleKey) :
  NoDup (map edge_id
           (snd (elements tuples selectedType selectedRelation darkMode)))
  /\ Forall
       (fun e =>
          exists tuple,
            In tuple tuples
            /\ shown selectedType selectedRelation tuple = true
            /\ e = mkGraphEdge ("e-" ++ edgeKey tuple) (tk_object tuple)
                     (tk_user tuple) (tk_relation tuple) darkMode)
       (snd (elements tuples selectedType selectedRelation darkMode)).
Proof.
  destruct (elements_cases tuples) as [->| ->]; cbn [snd].
  - split; constructor.
  - split.
    + destruct (build_edges darkMode
                  (filter (shown selectedType selectedRelation) tuples))
        as [-> H].
      apply map_injective_nodup; [|exact H].
      intros x y E. apply app_inv_head in E. exact E.
    + eapply Forall_impl;
        [|apply (build_edges_from darkMode
                   (filter (shown selectedType selectedRelation) tuples))].
      intros e (tuple & Hin & ->). apply filter_In in Hin.
      exists tuple. repeat split; apply Hin.
Qed.

(** X15.  An end of an edge that reads as [type:id] is a node of the graph. *)
Theorem elements_endpoints (tuples : list TupleKey) :
  Forall
    (fun e =>
       (TupleRe.typedName (edge_source e) = None
        \/ In (edge_source e)
             (map node_id
                (fst (elements tuples selectedType selectedRelation darkMode))))
       /\ (TupleRe.typedName (edge_target e) = None
           \/ In (edge_target e)
                (map node_id
                   (fst (elements tuples selectedType selectedRelation
                           darkMode)))))
    (snd (elements tuples selectedType selectedRelation darkMode)).
Proof.
  destruct (elements_cases tuples) as [->| ->]; cbn [fst snd].
  - constructor.
  - unfold nodesOf. rewrite map_map. cbn [node_id].
    apply build_endpoints.
Qed.

(** X16.  When the graph is not empty, every tuple that passes the filter has
    its edge id among the edges. *)
Theorem elements_edge_of_tuple (tuples : list TupleKey) (tuple : TupleKey) :
  In tuple tuples ->
  shown selectedType selectedRelation tuple = true ->
  fst (elements tuples selectedType selectedRelation darkMode) <> [] ->
  In ("e-" ++ edgeKey tuple)
     (map edge_id
        (snd (elements tuples selectedType selectedRelation darkMode))).
Proof.
  intros Hin Hs Hne.
  destruct (elements_cases tuples) as [E|E]; rewrite E in *; cbn [fst snd] in *.
  - contradiction.
  - destruct (build_edges darkMode
                (filter (shown selectedType selectedRelation) tuples))
      as [-> _].
    apply in_map. destruct (shown_fields tuple Hs) as (Ho & Hu & Hr).
    apply build_key_added; try assumption.
    apply filter_In. split; assumption.
Qed.

End GraphElements.

Lemma elements_edge_of_tuple_witness :
  In ("e-" ++ RelationshipTree.edgeKey
                (mkTupleKey "user:anne" "viewer" "document:readme"))
     (map RelationshipTree.edge_id
        (snd (RelationshipTree.elements
                [mkTupleKey "user:anne" "viewer" "document:readme";
                 mkTupleKey "user:bob" "owner" "document:readme"]
                "" "viewer" false))).
Proof.
  apply elements_edge_of_tuple.
  - left. reflexivity.
  - reflexivity.
  - vm_compute. discriminate.
Defined.

(** ** The order of strings and the sorted arrays *)

Section Sorting.

Lemma code_injective (x y : ascii) : Char.code x = Char.code y -> x = y.
Proof.
  unfold Char.code. intros H.
  rewrite <- (ascii_nat_embedding x), <- (ascii_nat_embedding y), H.
  reflexivity.
Qed.

Lemma ltb_irrefl (a : str) : Order.ltb a a = false.
Proof.
  induction a as [|x a IH]; [reflexivity|].
  cbn [Order.ltb]. rewrite Nat.ltb_irrefl, Nat.eqb_refl, IH. reflexivity.
Qed.

Lemma ltb_trans (a : str) :
  forall b c,
    Order.ltb a b = true -> Order.ltb b c = true -> Order.ltb a c = true.
Proof.
  induction a as [|x a IH]; intros b c Hab Hbc.
  - destruct b as [|y b]; [discriminate Hab|].
    destruct c as [|z c]; [discriminate Hbc|reflexivity].
  - destruct b as [|y b]; [discriminate Hab|].
    destruct c as [|z c]; [discriminate Hbc|].
    cbn [Order.ltb] in *.
    apply orb_true_iff in Hab. apply orb_true_iff in Hbc.
    apply orb_true_iff.
    destruct Hab as [Hab|Hab], Hbc as [Hbc|Hbc].
    + left. apply Nat.ltb_lt in Hab, Hbc. apply Nat.ltb_lt. lia.
    + apply andb_true_iff in Hbc. destruct Hbc as [E _].
      apply Nat.eqb_eq in E. left. rewrite <- E. exact Hab.
    + apply andb_true_iff in Hab. destruct Hab as [E _].
      apply Nat.eqb_eq in E. left. rewrite E. exact Hbc.
    + apply andb_true_iff in Hab. destruct Hab as [E1 H1].
      apply andb_true_iff in Hbc. destruct Hbc as [E2 H2].
      apply Nat.eqb_eq in E1, E2. right. rewrite E1, E2, Nat.eqb_refl.
      apply (IH b c H1 H2).
Qed.

Lemma ltb_total (a : str) :
  forall b, Order.ltb a b = false -> Order.ltb b a = false -> a = b.
Proof.
  induction a as [|x a IH]; intros b Hab Hba.
  - destruct b; [reflexivity|discriminate Hab].
  - destruct b as [|y b]; [discriminate Hba|].
    cbn [Order.ltb] in *.
    apply orb_false_iff in Hab. destruct Hab as [L1 A1].
    apply orb_false_iff in Hba. destruct Hba as [L2 A2].
    apply Nat.ltb_ge in L1, L2.
    assert (E : Char.code x = Char.code y) by lia.
    rewrite E, Nat.eqb_refl in A1. rewrite E, Nat.eqb_refl in A2.
    cbn [andb] in A1, A2.
    apply code_injective in E. subst y. f_equal. apply IH; assumption.
Qed.

Lemma insert_in (x y : str) (l : list str) :
  In y (Sort.insert x l) <-> y = x \/ In y l.
Proof.
  induction l as [|z l IH]; cbn.
  - split; intros [H|H]; auto.
  - destruct (Order.ltb x z); cbn; [split; intros [H|H]; auto|].
    rewrite IH. split; intros H.
    + destruct H as [H|[H|H]]; auto.
    + destruct H as [H|[H|H]]; auto.
Qed.

Lemma insert_sorted (x : str) (l : list str) :
  StronglySorted (fun a b => Order.ltb a b = true) l ->
  ~ In x l ->
  StronglySorted (fun a b => Order.ltb a b = true) (Sort.insert x l).
Proof.
  intros H. induction H as [|z l Hl IH Hz]; intros Hx; cbn.
  - constructor; constructor.
  - destruct (Order.ltb x z) eqn:E.
    + constructor; [constructor; assumption|].
      constructor; [exact E|].
      rewrite Forall_forall in *. intros y Hy.
      apply (ltb_trans x z y E). apply Hz. exact Hy.
    + assert (Hzx : Order.ltb z x = true).
      { destruct (Order.ltb z x) eqn:E'; [reflexivity|exfalso].
        apply Hx. left. symmetry. apply ltb_total; assumption. }
      constructor.
      * apply IH. intros Hin. apply Hx. right. exact Hin.
      * rewrite Forall_forall in *. intros y Hy. apply insert_in in Hy.
        destruct Hy as [->|Hy]; [exact Hzx|apply Hz; exact Hy].
Qed.

Lemma sort_in (l : list str) (y : str) : In y (Sort.sort l) <-> In y l.
Proof.
  unfold Sort.sort.
  assert (H : forall acc, In y (fold_left (fun s x => Sort.insert x s) l acc)
                          <-> In y acc \/ In y l).
  { induction l as [|x l IH]; intros acc; cbn [fold_left].
    - cbn. tauto.
    - rewrite IH, insert_in. cbn [In]. intuition congruence. }
  rewrite H. cbn [In]. tauto.
Qed.

Lemma sort_sorted (l : list str) :
  NoDup l -> StronglySorted (fun a b => Order.ltb a b = true) (Sort.sort l).
Proof.
  unfold Sort.sort.
  assert (H : forall acc,
             StronglySorted (fun a b => Order.ltb a b = true) acc ->
             NoDup l -> (forall x, In x l -> ~ In x acc) ->
             StronglySorted (fun a b => Order.ltb a b = true)
               (fold_left (fun s x => Sort.insert x s) l acc)).
  { induction l as [|x l IH]; intros acc Hs Hn Hd; [exact Hs|].
    cbn [fold_left]. inversion Hn as [|? ? Hx Hn']; subst.
    apply IH; [|exact Hn'|].
    - apply insert_sorted; [exact Hs|]. apply Hd. left. reflexivity.
    - intros y Hy Hin. apply insert_in in Hin. destruct Hin as [->|Hin].
      + contradiction.
      + apply (Hd y); [right; exact Hy|exact Hin]. }
  intros Hn. apply H; [constructor|exact Hn|intros x _ []].
Qed.

Import RelationshipTree.

Lemma typeOf_typePrefix (s t : str) :
  typeOf s = Some t <-> exists rest, TupleRe.typePrefix s = Some (t, rest).
Proof.
  unfold typeOf. destruct (TupleRe.typePrefix s) as [[t' rest]|]; cbn.
  - split.
    + intros H. injection H as <-. exists rest. reflexivity.
    + intros (r & H). injection H as <- _. reflexivity.
  - split; [discriminate|]. intros (r & H). discriminate H.
Qed.

Lemma addTypeOf_in (s : str) (types : list str) (t : str) :
  In t (addTypeOf s types) <-> typeOf s = Some t \/ In t types.
Proof.
  unfold addTypeOf, typeOf. destruct s as [|c s]; [cbn; split; auto|].
  - intros [H|H]; [discriminate H|exact H].
  - destruct (TupleRe.typePrefix (c :: s)) as [[t' rest]|]; cbn.
    + rewrite setadd_in. split; intros [H|H]; auto.
      * left. f_equal. symmetry. exact H.
      * left. injection H as ->. reflexivity.
    + split; auto. intros [H|H]; [discriminate H|exact H].
Qed.

Lemma addTypeOf_nodup (s : str) (types : list str) :
  NoDup types -> NoDup (addTypeOf s types).
Proof.
  intros H. unfold addTypeOf. destruct s as [|c s]; [exact H|].
  destruct (TupleRe.typePrefix (c :: s)) as [[t' rest]|]; [|exact H].
  apply setadd_nodup. exact H.
Qed.

(** X17.  The types offered by the filter of the graph are the types read from
    the objects and the users of the tuples, each once, in the order of
    strings. *)
Theorem availableTypes_sorted (tuples : list TupleKey) :
  StronglySorted (fun a b => Order.ltb a b = true) (availableTypes tuples)
  /\ forall t,
       In t (availableTypes tuples)
       <-> exists tuple,
             In tuple tuples
             /\ (typeOf (tk_object tuple) = Some t
                 \/ typeOf (tk_user tuple) = Some t).
Proof.
  unfold availableTypes.
  set (step := fun types tuple =>
                 addTypeOf (tk_user tuple) (addTypeOf (tk_object tuple) types)).
  assert (Hn : forall acc, NoDup acc -> NoDup (fold_left step tuples acc)).
  { apply fold_left_invariant. intros st x _ H. unfold step.
    apply addTypeOf_nodup, addTypeOf_nodup, H. }
  assert (Hin : forall t acc,
             In t (fold_left step tuples acc)
             <-> In t acc
                 \/ exists tuple,
                      In tuple tuples
                      /\ (typeOf (tk_object tuple) = Some t
                          \/ typeOf (tk_user tuple) = Some t)).
  { clear Hn. intros t.
    induction tuples as [|x l IH]; intros acc; cbn [fold_left].
    - split; [auto|]. intros [H|(tuple & [] & _)]. exact H.
    - rewrite IH. unfold step. rewrite !addTypeOf_in. split.
      + intros [[H|[H|H]]|(tuple & H1 & H2)].
        * right. exists x. split; [left; reflexivity|auto].
        * right. exists x. split; [left; reflexivity|auto].
        * left. exact H.
        * right. exists tuple. split; [right; exact H1|exact H2].
      + intros [H|(tuple & [<-|H1] & H2)].
        * left. auto.
        * left. destruct H2; auto.
        * right. exists tuple. split; assumption. }
  split.
  - apply sort_sorted. apply Hn. constructor.
  - intros t. rewrite sort_in, Hin. cbn [In]. tauto.
Qed.

(** X18.  The relations offered by the filter of the graph are the relations
    of the tuples that are not empty, each once, in the order of strings. *)
Theorem availableRelations_sorted (tuples : list TupleKey) :
  StronglySorted (fun a b => Order.ltb a b = true) (availableRelations tuples)
  /\ forall r,
       In r (availableRelations tuples)
       <-> r <> [] /\ In r (map tk_relation tuples).
Proof.
  unfold availableRelations.
  set (step := fun relations tuple =>
                 match tk_relation tuple with
                 | [] => relations
                 | _ :: _ => JSSet.add (tk_relation tuple) relations
                 end).
  assert (Hn : forall acc, NoDup acc -> NoDup (fold_left step tuples acc)).
  { apply fold_left_invariant. intros st x _ H. unfold step.
    destruct (tk_relation x); [exact H|apply setadd_nodup, H]. }
  assert (Hin : forall r acc,
             In r (fold_left step tuples acc)
             <-> In r acc \/ (r <> [] /\ In r (map tk_relation tuples))).
  { clear Hn. intros r.
    induction tuples as [|x l IH]; intros acc; cbn [fold_left].
    - cbn. tauto.
    - rewrite IH. unfold step. cbn [map In].
      destruct (tk_relation x) as [|c s] eqn:E.
      + split; [tauto|]. intros [H|[H1 [H2|H2]]]; auto.
        symmetry in H2. contradiction.
      + rewrite setadd_in. split.
        * intros [[->|H]|[H1 H2]]; auto.
          right. split; [discriminate|left; reflexivity].
        * intros [H|[H1 [<-|H2]]]; auto. }
  split.
  - apply sort_sorted. apply Hn. constructor.
  - intros r. rewrite sort_in, Hin. cbn [In]. tauto.
Qed.

End Sorting.

(** ** The filter of the table of tuples *)

Section TupleFilter.

Import TupleManager.

Lemma includes_inv (p : str) (s : str) :
  JS.includes p s = true -> exists a b, s = a ++ p ++ b.
Proof.
  induction s as [|c s IH]; intros H; rewrite includes_unfold in H.
  - rewrite orb_false_r in H. apply startsWith_inv in H.
    exists [], (skipn (length p) []). exact H.
  - apply orb_prop in H. destruct H as [H|H].
    + apply startsWith_inv in H. exists [], (skipn (length p) (c :: s)).
      exact H.
    + destruct (IH H) as (a & b & ->). exists (c :: a), b. reflexivity.
Qed.

Lemma includes_trans (a b s : str) :
  JS.includes a b = true -> JS.includes b s = true -> JS.includes a s = true.
Proof.
  intros Hab Hbs.
  apply includes_inv in Hab. destruct Hab as (x & y & ->).
  apply includes_inv in Hbs. destruct Hbs as (u & v & ->).
  replace (u ++ (x ++ a ++ y) ++ v) with ((u ++ x) ++ a ++ (y ++ v))
    by (rewrite <- !app_assoc; reflexivity).
  apply includes_app.
Qed.

Lemma includes_nil_inv (a : str) :
  JS.includes a [] = true -> a = [].
Proof. destruct a; [reflexivity|discriminate]. Qed.

Lemma matchesFilter_narrow (f1 f2 field : str) :
  JS.includes f1 f2 = true ->
  matchesFilter f2 field = true -> matchesFilter f1 field = true.
Proof.
  unfold matchesFilter. intros Hinc H.
  destruct f2 as [|c f2].
  - apply includes_nil_inv in Hinc. subst f1. reflexivity.
  - cbn [TupleRe.nonempty negb orb] in H.
    rewrite (includes_trans _ _ _ Hinc H). apply orb_true_r.
Qed.

(** The table as one call of [filter]: with the three filters blank the
    test accepts every tuple. *)
Lemma filteredTuples_filter (tuples : list TupleKey) (u r o : str) :
  filteredTuples tuples u r o
  = filter
      (fun tuple =>
         matchesFilter (JS.trim (Case.toLowerCase u)) (tk_user tuple)
         && matchesFilter (JS.trim (Case.toLowerCase r)) (tk_relation tuple)
         && matchesFilter (JS.trim (Case.toLowerCase o)) (tk_object tuple))
      tuples.
Proof.
  unfold filteredTuples. cbv zeta.
  destruct (JS.trim (Case.toLowerCase u)) as [|a U];
    destruct (JS.trim (Case.toLowerCase r)) as [|b R];
    destruct (JS.trim (Case.toLowerCase o)) as [|c O];
    cbn [TupleRe.nonempty negb andb]; try reflexivity.
  induction tuples as [|x l IH]; [reflexivity|].
  cbn. f_equal. exact IH.
Qed.

Lemma filter_filter {X : Type} (p q : X -> bool) (l : list X) :
  filter p (filter q l) = filter (fun x => q x && p x) l.
Proof.
  induction l as [|x l IH]; [reflexivity|].
  cbn. destruct (q x); cbn; [destruct (p x)|]; rewrite IH; reflexivity.
Qed.

(** X19.  The three filters act one after the other: filtering by user,
    relation and object at once is filtering by user, then by relation, then
    by object. *)
Theorem filteredTuples_compose (tuples : list TupleKey) (u r o : str) :
  filteredTuples tuples u r o
  = filteredTuples (filteredTuples (filteredTuples tuples u "" "") "" r "")
      "" "" o.
Proof.
  rewrite !filteredTuples_filter, !filter_filter.
  apply filter_ext. intros tuple.
  change (JS.trim (Case.toLowerCase "")) with (@nil ascii).
  destruct (matchesFilter (JS.trim (Case.toLowerCase u)) (tk_user tuple));
    destruct (matchesFilter (JS.trim (Case.toLowerCase r))
                (tk_relation tuple));
    destruct (matchesFilter (JS.trim (Case.toLowerCase o)) (tk_object tuple));
    reflexivity.
Qed.

(** X20.  Typing more of a filter never adds a tuple to the table: when each
    filter, in lower case and trimmed, contains what it was before, every
    tuple of the new table was in the table before. *)
Theorem filteredTuples_narrow (tuples : list TupleKey)
    (u1 r1 o1 u2 r2 o2 : str) (tuple : TupleKey) :
  JS.includes (JS.trim (Case.toLowerCase u1)) (JS.trim (Case.toLowerCase u2))
  = true ->
  JS.includes (JS.trim (Case.toLowerCase r1)) (JS.trim (Case.toLowerCase r2))
  = true ->
  JS.includes (JS.trim (Case.toLowerCase o1)) (JS.trim (Case.toLowerCase o2))
  = true ->
  In tuple (filteredTuples tuples u2 r2 o2) ->
  In tuple (filteredTuples tuples u1 r1 o1).
Proof.
  intros Hu Hr Ho. rewrite !filteredTuples_filter, !filter_In.
  intros [Hin H]. split; [exact Hin|].
  apply andb_prop in H. destruct H as [H H3].
  apply andb_prop in H. destruct H as [H1 H2].
  rewrite (matchesFilter_narrow _ _ _ Hu H1),
    (matchesFilter_narrow _ _ _ Hr H2), (matchesFilter_narrow _ _ _ Ho H3).
  reflexivity.
Qed.

Lemma filteredTuples_narrow_witness :
  In (mkTupleKey "user:Anne" "viewer" "document:readme")
     (filteredTuples
        [mkTupleKey "user:Anne" "viewer" "document:readme";
         mkTupleKey "user:bob" "owner" "document:readme"]
        "an" "" " DOC").
Proof.
  apply (filteredTuples_narrow _ "an" "" " DOC" "Anne" "view" "document").
  - reflexivity.
  - reflexivity.
  - reflexivity.
  - left. reflexivity.
Defined.

End TupleFilter.

(** ** The value of a field and its two parts *)

Section FieldValue.

Import UserInput.

(** X21.  The type and the id read from a value give the value back. *)
Theorem parseValue_handleIdChange (val : str) :
  handleIdChange (fst (parseValue val)) (snd (parseValue val)) = val.
Proof.
  unfold parseValue, TupleRe.typedValue.
  destruct (TupleRe.typePrefix val) as [[t rest]|] eqn:E; [|reflexivity].
  destruct (forallb Char.is_dot rest); [|reflexivity].
  apply typePrefix_inv in E. destruct E as (-> & Hne & _).
  cbn [fst snd]. destruct t; [contradiction|reflexivity].
Qed.

(** X22.  A type without a colon and an id on one line are read back from the
    value that joins them. *)
Theorem parseValue_typed (type id : str) :
  type <> [] ->
  forallb TupleRe.not_colon type = true ->
  forallb Char.is_dot id = true ->
  parseValue (type ++ ":" ++ id) = (type, id).
Proof.
  intros Hne Ht Hid. unfold parseValue, TupleRe.typedValue, TupleRe.typePrefix.
  rewrite (takeWhile_app TupleRe.not_colon type (":" ++ id) Ht eq_refl).
  rewrite (dropWhile_app TupleRe.not_colon type (":" ++ id) Ht eq_refl).
  destruct type as [|c type]; [contradiction|].
  cbn [app list_ascii_of_string]. rewrite Hid. reflexivity.
Qed.

Lemma parseValue_typed_witness :
  parseValue ("document" ++ ":" ++ "readme")
  = ("document" : str, "readme" : str).
Proof.
  apply parseValue_typed.
  - discriminate.
  - reflexivity.
  - reflexivity.
Defined.

End FieldValue.

(** ** The saved queries *)

Section Store.

Context {Fields Result : Type}.

Section Define.

Context {A : Type}.

Lemma get_replace_same (k : str) (v : A) (o : Obj.t A) :
  Obj.has k o = true -> Obj.get k (Obj.replace k v o) = Some v.
Proof.
  induction o as [|[k' v'] o IH]; cbn; [discriminate|].
  destruct (JS.eqb k k') eqn:E; cbn; rewrite E; [reflexivity|exact IH].
Qed.

Lemma get_replace_other (k k' : str) (v : A) (o : Obj.t A) :
  k' <> k -> Obj.get k' (Obj.replace k v o) = Obj.get k' o.
Proof.
  intros Hne. induction o as [|[k0 v0] o IH]; [reflexivity|].
  cbn. destruct (JS.eqb k k0) eqn:E; cbn; [|rewrite IH; reflexivity].
  apply eqb_eq in E. subst k0. apply eqb_neq in Hne. rewrite Hne.
  reflexivity.
Qed.

Lemma get_insert_same (k : str) (v : A) (o : Obj.t A) :
  Obj.has k o = false -> Obj.get k (Obj.insert_index k v o) = Some v.
Proof.
  induction o as [|[k' v'] o IH]; cbn; intros H.
  - rewrite eqb_refl. reflexivity.
  - apply orb_false_elim in H. destruct H as [E H].
    destruct (Obj.is_array_index k' && (Obj.decimal k' <? Obj.decimal k)%N);
      cbn.
    + rewrite E. apply IH. exact H.
    + rewrite eqb_refl. reflexivity.
Qed.

Lemma get_insert_other (k k' : str) (v : A) (o : Obj.t A) :
  k' <> k -> Obj.get k' (Obj.insert_index k v o) = Obj.get k' o.
Proof.
  intros Hne. apply eqb_neq in Hne.
  induction o as [|[k0 v0] o IH]; cbn; [rewrite Hne; reflexivity|].
  destruct (Obj.is_array_index k0 && (Obj.decimal k0 <? Obj.decimal k)%N);
    cbn.
  - rewrite IH. reflexivity.
  - rewrite Hne. reflexivity.
Qed.

Lemma get_app_same (k : str) (v : A) (o : Obj.t A) :
  Obj.has k o = false -> Obj.get k (o ++ [(k, v)]) = Some v.
Proof.
  induction o as [|[k' v'] o IH]; cbn; intros H.
  - rewrite eqb_refl. reflexivity.
  - apply orb_false_elim in H. destruct H as [E H]. rewrite E. apply IH, H.
Qed.

Lemma get_app_other (k k' : str) (v : A) (o : Obj.t A) :
  k' <> k -> Obj.get k' (o ++ [(k, v)]) = Obj.get k' o.
Proof.
  intros Hne. apply eqb_neq in Hne.
  induction o as [|[k0 v0] o IH]; cbn; [rewrite Hne; reflexivity|].
  rewrite IH. reflexivity.
Qed.

Lemma get_define_same (k : str) (v : A) (o : Obj.t A) :
  Obj.get k (ObjectPrototype.define k v o) = Some v.
Proof.
  unfold ObjectPrototype.define. destruct (Obj.has k o) eqn:E.
  - apply get_replace_same. exact E.
  - destruct (Obj.is_array_index k);
      [apply get_insert_same|apply get_app_same]; exact E.
Qed.

Lemma get_define_other (k k' : str) (v : A) (o : Obj.t A) :
  k' <> k -> Obj.get k' (ObjectPrototype.define k v o) = Obj.get k' o.
Proof.
  intros Hne. unfold ObjectPrototype.define. destruct (Obj.has k o).
  - apply get_replace_other. exact Hne.
  - destruct (Obj.is_array_index k);
      [apply get_insert_other|apply get_app_other]; exact Hne.
Qed.

End Define.

Lemma stored_define_same (s : str) (l : list (SavedQuery Fields Result))
    (o : QueriesByStore Fields Result) :
  getSavedQueries (ObjectPrototype.define s l o) s = Some l.
Proof.
  unfold getSavedQueries, storedQueries. rewrite get_define_same. reflexivity.
Qed.

Lemma stored_define_other (s s' : str) (l : list (SavedQuery Fields Result))
    (o : QueriesByStore Fields Result) :
  s' <> s ->
  getSavedQueries (ObjectPrototype.define s l o) s' = getSavedQueries o s'.
Proof.
  intros Hne. unfold getSavedQueries, storedQueries.
  rewrite (get_define_other s s' l o Hne). reflexivity.
Qed.

Lemma withQueries_stored (s : str)
    (f : list (SavedQuery Fields Result) -> list (SavedQuery Fields Result))
    (o : QueriesByStore Fields Result)
    (old : list (SavedQuery Fields Result)) :
  getSavedQueries o s = Some old ->
  withQueries s f o = Returns (ObjectPrototype.define s (f old) o).
Proof.
  unfold getSavedQueries, withQueries. intros ->. reflexivity.
Qed.

Lemma withQueries_frame (s s' : str)
    (f : list (SavedQuery Fields Result) -> list (SavedQuery Fields Result))
    (o : QueriesByStore Fields Result) :
  s' <> s ->
  getSavedQueries (stateAfter (withQueries s f o) o) s' = getSavedQueries o s'.
Proof.
  intros Hne. unfold withQueries.
  destruct (storedQueries s o); cbn [stateAfter]; [|reflexivity].
  apply stored_define_other. exact Hne.
Qed.

(** X23.  No action on the queries of a store changes the queries of another. *)
Theorem savedQueries_frame (s s' : str) (o : QueriesByStore Fields Result)
    (query : SavedQuery Fields Result)
    (id createdAt queryId : str) (result : option Result)
    (queries : list (SavedQuery Fields Result)) (mode : ImportMode)
    (newId : nat -> str) :
  s' <> s ->
  getSavedQueries (stateAfter (addSavedQuery s query id createdAt o) o) s'
  = getSavedQueries o s'
  /\ getSavedQueries (stateAfter (deleteSavedQuery s queryId o) o) s'
     = getSavedQueries o s'
  /\ getSavedQueries (stateAfter (updateLastResult s queryId result o) o) s'
     = getSavedQueries o s'
  /\ getSavedQueries (stateAfter (importQueries s queries mode newId o) o) s'
     = getSavedQueries o s'
  /\ getSavedQueries (reorderQueries s queries o) s' = getSavedQueries o s'
  /\ getSavedQueries (clearAllQueries s o) s' = getSavedQueries o s'.
Proof.
  intros Hne.
  repeat split;
    try first [apply withQueries_frame; exact Hne
              |apply stored_define_other; exact Hne].
  destruct mode;
    [apply stored_define_other|apply withQueries_frame]; exact Hne.
Qed.

(** X24.  A saved query is added after the ones of its store, with the new
    identifier and date; deleting that identifier gives the list back when no
    other query has it. *)
Theorem addSavedQuery_deleteSavedQuery (s : str)
    (o : QueriesByStore Fields Result) (query : SavedQuery Fields Result)
    (id createdAt : str) (old : list (SavedQuery Fields Result)) :
  getSavedQueries o s = Some old ->
  Forall (fun q => sq_id q <> id) old ->
  exists added deleted,
    addSavedQuery s query id createdAt o = Returns added
    /\ getSavedQueries added s
       = Some (old ++ [mkSavedQuery id (sq_type query) createdAt
                         (sq_lastResult query) (sq_fields query)])
    /\ deleteSavedQuery s id added = Returns deleted
    /\ getSavedQueries deleted s = Some old.
Proof.
  intros Hold Hfresh. eexists. eexists.
  split; [apply (withQueries_stored s _ o old Hold)|].
  split; [apply stored_define_same|].
  split.
  - apply withQueries_stored. apply stored_define_same.
  - rewrite stored_define_same. f_equal. unfold JS.push.
    rewrite filter_app. cbn [filter sq_id]. rewrite eqb_refl. cbn [negb].
    rewrite app_nil_r. clear Hold.
    induction Hfresh as [|q l Hq Hl IH]; [reflexivity|].
    cbn [filter]. apply eqb_neq in Hq. rewrite Hq. cbn [negb].
    f_equal. exact IH.
Qed.

End Store.

Lemma addSavedQuery_deleteSavedQuery_witness :
  exists added deleted,
    addSavedQuery "01HZZZZZZZTSV4RRFFQ69G5FAV"
      (mkSavedQuery "" "check" "" (None : option bool) tt)
      "query_2" "2024-06-10" [] = Returns added
    /\ getSavedQueries added "01HZZZZZZZTSV4RRFFQ69G5FAV"
       = Some ([] ++ [mkSavedQuery "query_2" "check" "2024-06-10" None tt])
    /\ deleteSavedQuery "01HZZZZZZZTSV4RRFFQ69G5FAV" "query_2" added
       = Returns deleted
    /\ getSavedQueries deleted "01HZZZZZZZTSV4RRFFQ69G5FAV" = Some [].
Proof.
  apply (addSavedQuery_deleteSavedQuery "01HZZZZZZZTSV4RRFFQ69G5FAV" []
           (mkSavedQuery "" "check" "" (None : option bool) tt)
           "query_2" "2024-06-10" []).
  - reflexivity.
  - constructor.
Defined.

Lemma savedQueries_frame_witness :
  getSavedQueries
    (stateAfter
       (addSavedQuery "a" (mkSavedQuery "" "check" "" (None : option bool) tt)
          "query_2" "2024-06-10" [])
       [])
    "b"
  = getSavedQueries [] "b"
  /\ getSavedQueries
       (stateAfter
          (deleteSavedQuery (Fields := unit) (Result := bool) "a" "q" []) [])
       "b"
     = getSavedQueries [] "b"
  /\ getSavedQueries
       (stateAfter
          (updateLastResult (Fields := unit) "a" "q" (Some true) []) [])
       "b"
     = getSavedQueries [] "b"
  /\ getSavedQueries
       (stateAfter
          (importQueries (Fields := unit) (Result := bool) "a" [] Merge
             (fun _ => "query_3") [])
          [])
       "b"
     = getSavedQueries [] "b"
  /\ getSavedQueries
       (reorderQueries (Fields := unit) (Result := bool) "a" [] []) "b"
     = getSavedQueries [] "b"
  /\ getSavedQueries
       (clearAllQueries (Fields := unit) (Result := bool) "a" []) "b"
     = getSavedQueries [] "b".
Proof.
  apply (savedQueries_frame "a" "b" []
           (mkSavedQuery "" "check" "" (None : option bool) tt)
           "query_2" "2024-06-10" "q" (Some true) [] Merge
           (fun _ => "query_3")).
  discriminate.
Defined.

Section StoreActions.

Context {Fields Result : Type}.

Lemma importedQueries_facts (newId : nat -> str)
    (queries : list (SavedQuery Fields Result)) :
  forall i,
    map sq_id (importedQueries newId i queries)
    = map newId (seq i (length queries))
    /\ map sq_fields (importedQueries newId i queries) = map sq_fields queries
    /\ map sq_type (importedQueries newId i queries) = map sq_type queries
    /\ map sq_createdAt (importedQueries newId i queries)
       = map sq_createdAt queries
    /\ Forall (fun q => sq_lastResult q = None)
         (importedQueries newId i queries).
Proof.
  induction queries as [|q l IH]; intros i; cbn.
  - repeat split. constructor.
  - destruct (IH (S i)) as (H1 & H2 & H3 & H4 & H5).
    rewrite H1, H2, H3, H4. repeat split.
    constructor; [reflexivity|exact H5].
Qed.

(** X25.  An import gives every imported query a new identifier and no last
    result and keeps its three other fields, the type, the date of creation
    and the fields of the query; merged, the imported queries come after the
    ones of the store, which stay; replacing, they are alone. *)
Theorem importQueries_stored (s : str) (o : QueriesByStore Fields Result)
    (queries old : list (SavedQuery Fields Result)) (newId : nat -> str) :
  getSavedQueries o s = Some old ->
  exists imported merged replaced,
    importQueries s queries Merge newId o = Returns merged
    /\ getSavedQueries merged s = Some (old ++ imported)
    /\ importQueries s queries Replace newId o = Returns replaced
    /\ getSavedQueries replaced s = Some imported
    /\ map sq_id imported = map newId (seq 0 (length queries))
    /\ map sq_fields imported = map sq_fields queries
    /\ map sq_type imported = map sq_type queries
    /\ map sq_createdAt imported = map sq_createdAt queries
    /\ Forall (fun q => sq_lastResult q = None) imported.
Proof.
  intros Hold. exists (importedQueries newId 0 queries).
  eexists. eexists.
  split; [apply (withQueries_stored s _ o old Hold)|].
  split; [apply stored_define_same|].
  split; [reflexivity|].
  split; [apply stored_define_same|].
  apply importedQueries_facts.
Qed.

(** X26.  The result of a run is stored on the queries of the identifier
    given and on no other; the number and the order of the queries and their
    four other fields, the identifier, the type, the date of creation and the
    fields of the query, stay. *)
Theorem updateLastResult_stored (s queryId : str)
    (o : QueriesByStore Fields Result) (result : option Result)
    (old : list (SavedQuery Fields Result)) :
  getSavedQueries o s = Some old ->
  exists updated queries,
    updateLastResult s queryId result o = Returns updated
    /\ getSavedQueries updated s = Some queries
    /\ map sq_id queries = map sq_id old
    /\ map sq_type queries = map sq_type old
    /\ map sq_createdAt queries = map sq_createdAt old
    /\ map sq_fields queries = map sq_fields old
    /\ map sq_lastResult queries
       = map (fun q =>
                if JS.eqb (sq_id q) queryId then result else sq_lastResult q)
             old.
Proof.
  intros Hold. eexists. eexists.
  split; [apply (withQueries_stored s _ o old Hold)|].
  split; [apply stored_define_same|].
  rewrite !map_map.
  repeat split; apply map_ext; intros q;
    destruct (JS.eqb (sq_id q) queryId); reflexivity.
Qed.

(** X27.  For a store whose identifier is the name of a member of
    [Object.prototype] and which has no queries of its own, the actions that
    use the queries of the store throw; clearing, reordering or an import that
    replaces defines the queries, which are read back from then on. *)
Theorem savedQueries_inherited_name (s : str)
    (o : QueriesByStore Fields Result) (query : SavedQuery Fields Result)
    (id createdAt queryId : str) (result : option Result)
    (queries : list (SavedQuery Fields Result)) (newId : nat -> str) :
  ObjectPrototype.inherited s = true ->
  Obj.has s o = false ->
  getSavedQueries o s = None
  /\ addSavedQuery s query id createdAt o = Throws
  /\ deleteSavedQuery s queryId o = Throws
  /\ updateLastResult s queryId result o = Throws
  /\ importQueries s queries Merge newId o = Throws
  /\ getSavedQueries
       (stateAfter (importQueries s queries Replace newId o) o) s
     = Some (importedQueries newId 0 queries)
  /\ getSavedQueries (clearAllQueries s o) s = Some []
  /\ getSavedQueries (reorderQueries s queries o) s = Some queries.
Proof.
  intros Hi Hh.
  assert (E : storedQueries s o = None).
  { unfold storedQueries. rewrite (get_absent s o Hh), Hi. reflexivity. }
  unfold addSavedQuery, deleteSavedQuery, updateLastResult, importQueries,
    withQueries, getSavedQueries at 1.
  rewrite E. cbn [stateAfter]. repeat split; apply stored_define_same.
Qed.

(** *** Moving a query in the list *)

Lemma filter_partition {X : Type} (p : X -> bool) (l : list X) :
  Permutation (filter (fun x => negb (p x)) l ++ filter p l) l.
Proof.
  induction l as [|x l IH]; [constructor|].
  cbn. destruct (p x); cbn.
  - apply Permutation_sym, Permutation_cons_app, Permutation_sym, IH.
  - constructor. exact IH.
Qed.

Lemma splice_permutation {X : Type} (i j : nat) (l : list X) (x : X) :
  nth_error l i = Some x ->
  Permutation (spliceIn j x (snd (spliceOut i l))) l.
Proof.
  intros H. unfold spliceIn, spliceOut. cbn [snd].
  set (r := firstn i l ++ skipn (S i) l).
  assert (Hr : Permutation (x :: r) l).
  { subst r. apply nth_error_split in H.
    destruct H as (a & b & -> & <-).
    rewrite firstn_app, Nat.sub_diag, firstn_all. cbn [firstn].
    rewrite app_nil_r.
    replace (skipn (S (length a)) (a ++ x :: b)) with b.
    - apply Permutation_middle.
    - rewrite skipn_app, skipn_all2 by lia.
      replace (S (length a) - length a) with 1 by lia. reflexivity. }
  apply Permutation_trans with (x :: r); [|exact Hr].
  apply Permutation_sym.
  rewrite <- (firstn_skipn j r) at 1. apply Permutation_middle.
Qed.

Lemma spliceIn_nth {X : Type} (j : nat) (x : X) (l : list X) :
  j <= length l -> nth_error (spliceIn j x l) j = Some x.
Proof.
  intros H. unfold spliceIn.
  rewrite nth_error_app2 by (rewrite length_firstn; lia).
  rewrite length_firstn. replace (j - Nat.min j (length l)) with 0 by lia.
  reflexivity.
Qed.

(** X28.  Dropping a query of the list at another place loses and doubles no
    saved query: the list handed to [reorderQueries] is a rearrangement of the
    saved queries, with the queries of the other types first and in their
    order, and the dragged query at the place of the drop among the queries of
    its type. *)
Theorem handleDrop_rearranges
    (allSavedQueries : list (SavedQuery Fields Result))
    (activeQueryType : str) (draggedIndex dropIndex : nat)
    (dragged : SavedQuery Fields Result) :
  draggedIndex <> dropIndex ->
  nth_error
    (filter (fun q => JS.eqb (sq_type q) activeQueryType) allSavedQueries)
    draggedIndex = Some dragged ->
  exists moved,
    handleDrop allSavedQueries activeQueryType (Some draggedIndex) dropIndex
    = Some (map Some
              (filter (fun q => negb (JS.eqb (sq_type q) activeQueryType))
                 allSavedQueries
               ++ moved))
    /\ Permutation
         (filter (fun q => negb (JS.eqb (sq_type q) activeQueryType))
            allSavedQueries
          ++ moved)
         allSavedQueries
    /\ nth_error moved
         (Nat.min dropIndex
            (length
               (filter (fun q => JS.eqb (sq_type q) activeQueryType)
                  allSavedQueries) - 1))
       = Some dragged.
Proof.
  intros Hne Hd.
  set (saved := filter (fun q => JS.eqb (sq_type q) activeQueryType)
                  allSavedQueries) in *.
  set (others := filter (fun q => negb (JS.eqb (sq_type q) activeQueryType))
                   allSavedQueries).
  exists (spliceIn dropIndex dragged (snd (spliceOut draggedIndex saved))).
  assert (Hlen : draggedIndex < length saved)
    by (apply nth_error_Some; rewrite Hd; discriminate).
  split; [|split].
  - unfold handleDrop. apply Nat.eqb_neq in Hne. rewrite Hne. cbv zeta.
    fold saved. fold others. f_equal. rewrite map_app. f_equal.
    unfold spliceOut, spliceIn. cbn [fst snd].
    rewrite nth_error_map, Hd. cbn [option_map].
    rewrite !firstn_map, !skipn_map, <- map_app, !firstn_map, !skipn_map.
    rewrite map_app. reflexivity.
  - apply Permutation_trans with (others ++ saved).
    + apply Permutation_app_head. apply splice_permutation. exact Hd.
    + apply filter_partition.
  - unfold spliceIn, spliceOut. cbn [snd].
    set (r := firstn draggedIndex saved ++ skipn (S draggedIndex) saved).
    assert (Hr : length r = length saved - 1).
    { subst r. rewrite length_app, length_firstn, length_skipn. lia. }
    destruct (Nat.le_gt_cases dropIndex (length r)) as [Hle|Hgt].
    + replace (Nat.min dropIndex (length saved - 1)) with dropIndex by lia.
      apply (spliceIn_nth dropIndex dragged r Hle).
    + replace (Nat.min dropIndex (length saved - 1)) with (length r) by lia.
      rewrite firstn_all2, skipn_all2 by lia.
      rewrite nth_error_app2, Nat.sub_diag by lia. reflexivity.
Qed.

End StoreActions.

Lemma importQueries_stored_witness :
  exists imported merged replaced,
    importQueries "store"
      [mkSavedQuery "old" "check" "2024-06-10" (Some true) tt] Merge
      (fun i => "query_" ++ Num.toString (Z.of_nat i))
      [("store" : str, [mkSavedQuery "q1" "read" "2024-06-09" None tt])]
    = Returns merged
    /\ getSavedQueries merged "store"
       = Some ([mkSavedQuery "q1" "read" "2024-06-09" None tt] ++ imported)
    /\ importQueries "store"
         [mkSavedQuery "old" "check" "2024-06-10" (Some true) tt] Replace
         (fun i => "query_" ++ Num.toString (Z.of_nat i))
         [("store" : str, [mkSavedQuery "q1" "read" "2024-06-09" None tt])]
       = Returns replaced
    /\ getSavedQueries replaced "store" = Some imported
    /\ map sq_id imported
       = map (fun i => "query_" ++ Num.toString (Z.of_nat i)) (seq 0 1)
    /\ map sq_fields imported = [tt]
    /\ map sq_type imported = ["check" : str]
    /\ map sq_createdAt imported = ["2024-06-10" : str]
    /\ Forall (fun q => sq_lastResult q = None) imported.
Proof.
  apply (importQueries_stored "store"
           [("store" : str, [mkSavedQuery "q1" "read" "2024-06-09" None tt])]
           [mkSavedQuery "old" "check" "2024-06-10" (Some true) tt]
           [mkSavedQuery "q1" "read" "2024-06-09" None tt]).
  reflexivity.
Defined.

Lemma updateLastResult_stored_witness :
  exists updated queries,
    updateLastResult "store" "q1" (Some true)
      [("store" : str,
        [mkSavedQuery "q1" "check" "2024-06-09" None tt;
         mkSavedQuery "q2" "read" "2024-06-10" (Some false) tt])]
    = Returns updated
    /\ getSavedQueries updated "store" = Some queries
    /\ map sq_id queries = ["q1" : str; "q2" : str]
    /\ map sq_type queries = ["check" : str; "read" : str]
    /\ map sq_createdAt queries = ["2024-06-09" : str; "2024-06-10" : str]
    /\ map sq_fields queries = [tt; tt]
    /\ map sq_lastResult queries = [Some true; Some false].
Proof.
  apply (updateLastResult_stored "store" "q1"
           [("store" : str,
             [mkSavedQuery "q1" "check" "2024-06-09" None tt;
              mkSavedQuery "q2" "read" "2024-06-10" (Some false) tt])]
           (Some true)
           [mkSavedQuery "q1" "check" "2024-06-09" None tt;
            mkSavedQuery "q2" "read" "2024-06-10" (Some false) tt]).
  reflexivity.
Defined.

Lemma savedQueries_inherited_name_witness :
  getSavedQueries ([] : QueriesByStore unit bool) "constructor" = None
  /\ addSavedQuery "constructor"
       (mkSavedQuery "" "check" "" (None : option bool) tt)
       "query_1" "2024-06-10" [] = Throws
  /\ deleteSavedQuery (Fields := unit) (Result := bool)
       "constructor" "query_1" [] = Throws
  /\ updateLastResult (Fields := unit) "constructor" "query_1" (Some true) []
     = Throws
  /\ importQueries (Fields := unit) (Result := bool) "constructor" [] Merge
       (fun _ => "query_2") [] = Throws
  /\ getSavedQueries
       (stateAfter
          (importQueries (Fields := unit) (Result := bool) "constructor" []
             Replace (fun _ => "query_2") [])
          [])
       "constructor"
     = Some (importedQueries (fun _ => "query_2") 0 [])
  /\ getSavedQueries
       (clearAllQueries (Fields := unit) (Result := bool) "constructor" [])
       "constructor" = Some []
  /\ getSavedQueries
       (reorderQueries (Fields := unit) (Result := bool) "constructor" [] [])
       "constructor" = Some [].
Proof.
  apply (savedQueries_inherited_name "constructor" []
           (mkSavedQuery "" "check" "" (None : option bool) tt)
           "query_1" "2024-06-10"
           "query_1" (Some true) [] (fun _ => "query_2"));
    reflexivity.
Defined.

Lemma handleDrop_rearranges_witness :
  exists moved,
    handleDrop
      [mkSavedQuery "a" "check" "" (None : option bool) tt;
       mkSavedQuery "b" "expand" "" None tt;
       mkSavedQuery "c" "check" "" None tt]
      "check" (Some 0) 1
    = Some (map Some
              (filter (fun q => negb (JS.eqb (sq_type q) "check"))
                 [mkSavedQuery "a" "check" "" (None : option bool) tt;
                  mkSavedQuery "b" "expand" "" None tt;
                  mkSavedQuery "c" "check" "" None tt]
               ++ moved))
    /\ Permutation
         (filter (fun q => negb (JS.eqb (sq_type q) "check"))
            [mkSavedQuery "a" "check" "" (None : option bool) tt;
             mkSavedQuery "b" "expand" "" None tt;
             mkSavedQuery "c" "check" "" None tt]
          ++ moved)
         [mkSavedQuery "a" "check" "" (None : option bool) tt;
          mkSavedQuery "b" "expand" "" None tt;
          mkSavedQuery "c" "check" "" None tt]
    /\ nth_error moved
         (Nat.min 1
            (length
               (filter (fun q => JS.eqb (sq_type q) "check")
                  [mkSavedQuery "a" "check" "" (None : option bool) tt;
                   mkSavedQuery "b" "expand" "" None tt;
                   mkSavedQuery "c" "check" "" None tt]) - 1))
       = Some (mkSavedQuery "a" "check" "" None tt).
Proof.
  apply (handleDrop_rearranges
           [mkSavedQuery "a" "check" "" (None : option bool) tt;
            mkSavedQuery "b" "expand" "" None tt;
            mkSavedQuery "c" "check" "" None tt]
           "check" 0 1 (mkSavedQuery "a" "check" "" None tt)).
  - discriminate.
  - reflexivity.
Defined.

(** ** The lines of the diagnostics *)

Section DiagnosticLines.

Lemma report_more (st0 st : ValidatorState) (c : bool) (n : nat) (m : str) :
  (exists more,
     errors st = errors st0 ++ more /\ Forall (fun d => line d = n) more) ->
  exists more,
    errors (report st c n m) = errors st0 ++ more
    /\ Forall (fun d => line d = n) more.
Proof.
  intros (more & E & H). rewrite report_errors, E.
  exists (more ++ if c then [mkDiagnostic n m] else []).
  split; [symmetry; apply app_assoc|].
  apply Forall_app. split; [exact H|].
  destruct c; repeat constructor.
Qed.

(** A line adds diagnostics with its own number only. *)
Lemma validateLine_more (st : ValidatorState) (index : nat) (ln : str) :
  exists more,
    errors (validateLine st index ln) = errors st ++ more
    /\ Forall (fun d => line d = index + 1) more.
Proof.
  assert (Base : exists more,
             errors st = errors st ++ more
             /\ Forall (fun d => line d = index + 1) more).
  { exists []. rewrite app_nil_r. split; [reflexivity|constructor]. }
  unfold validateLine.
  destruct (JS.trim ln) as [|c r]; [exact Base|].
  destruct (JS.startsWith "#" (c :: r) || JS.startsWith "//" (c :: r));
    [exact Base|].
  destruct (JS.eqb (c :: r) "model");
    [cbn [errors]; apply report_more; exact Base|].
  destruct (JS.startsWith "schema " (c :: r));
    [cbn [errors]; repeat apply report_more; exact Base|].
  destruct (JS.startsWith "type " (c :: r)).
  { cbn [errors].
    destruct (JS.trim (JS.remove_first "type " (c :: r)));
      repeat apply report_more; exact Base. }
  destruct (JS.eqb (c :: r) "relations");
    [cbn [errors]; apply report_more; exact Base|].
  destruct (JS.startsWith "define " (c :: r)).
  { destruct (negb (JS.includes ":" (JS.remove_first "define " (c :: r))));
      [repeat apply report_more; exact Base|].
    destruct (JS.trim (hd [] (JS.split ":"
                                (JS.remove_first "define " (c :: r)))));
      repeat apply report_more; exact Base. }
  destruct (JS.startsWith "condition " (c :: r)); [exact Base|].
  apply report_more. exact Base.
Qed.

Lemma validateLines_more (lines : list str) :
  forall st index,
    exists more,
      errors (validateLines st index lines) = errors st ++ more
      /\ Forall (fun d => index + 1 <= line d <= index + length lines) more
      /\ StronglySorted le (map line more).
Proof.
  induction lines as [|ln rest IH]; intros st index; cbn [validateLines].
  - exists []. rewrite app_nil_r. repeat split; constructor.
  - destruct (IH (validateLine st index ln) (index + 1))
      as (more2 & E2 & H2 & S2).
    destruct (validateLine_more st index ln) as (more1 & E1 & H1).
    exists (more1 ++ more2). rewrite E2, E1, app_assoc.
    split; [reflexivity|]. split.
    + apply Forall_app. split.
      * eapply Forall_impl; [|exact H1]. cbn [length]. intros d Hd. lia.
      * eapply Forall_impl; [|exact H2]. cbn [length]. intros d Hd. lia.
    + rewrite map_app. clear E1 E2.
      induction more1 as [|d l IHl]; [exact S2|].
      inversion H1 as [|? ? Hd Hl]; subst.
      cbn [map app]. constructor; [apply IHl; exact Hl|].
      apply Forall_app. split.
      * rewrite Forall_map. eapply Forall_impl; [|exact Hl].
        intros d' Hd'. cbn beta in Hd'. lia.
      * rewrite Forall_map. eapply Forall_impl; [|exact H2].
        intros d' Hd'. cbn beta in Hd'. lia.
Qed.

(** X29.  The diagnostics are those of the scan, in the order of the lines and
    each with the number of a line of the text, between the diagnostic at line
    1 for a missing model declaration and the diagnostic at line 2 for a
    missing schema, when these are raised. *)
Theorem dslErrors_lines (editContent : str) :
  exists first scan last,
    dslErrors editContent = first ++ scan ++ last
    /\ (first = [] \/ first = [mkDiagnostic 1 msg_missing_model])
    /\ (last = [] \/ last = [mkDiagnostic 2 msg_missing_schema])
    /\ Forall
         (fun d =>
            1 <= line d <= length (JS.split JS.newline editContent))
         scan
    /\ StronglySorted le (map line scan).
Proof.
  unfold dslErrors. destruct (JS.trim editContent) as [|c r].
  - exists [], [], []. repeat split; auto; constructor.
  - destruct (validateLines_more (JS.split JS.newline editContent)
                (mkValidatorState [] false false None false) 0)
      as (scan & E & H & S).
    cbn [errors app Nat.add] in E, H.
    set (st := validateLines _ 0 _) in *. cbv zeta. rewrite E.
    destruct (hasModel st), (hasSchema st); cbn [negb andb]; unfold JS.push.
    + exists [], scan, []. rewrite app_nil_r. repeat split; auto.
    + exists [], scan, [mkDiagnostic 2 msg_missing_schema].
      repeat split; auto.
    + exists [mkDiagnostic 1 msg_missing_model], scan, [].
      rewrite app_nil_r. repeat split; auto.
    + exists [mkDiagnostic 1 msg_missing_model], scan, [].
      rewrite app_nil_r. repeat split; auto.
Qed.

End DiagnosticLines.

(** ** A reference written and read back *)

Section WrittenReferences.

(** X30.  A reference written from words is read back with its type and the
    modifier that [formatTypeRef] wrote: the wildcard if there is one, else
    the relation, else the condition; the others are lost. *)
Theorem parseTypeReference_formatTypeRef (ref : RelationReference) :
  Simple.ref_ok ref = true ->
  parseTypeReference (formatTypeRef ref)
  = match ref_wildcard ref with
    | Some _ => mkRelationReference (ref_type ref) None (Some tt) None
    | None =>
        match truthy (ref_relation ref) with
        | Some r => mkRelationReference (ref_type ref) (Some r) None None
        | None =>
            mkRelationReference (ref_type ref) None None
              (truthy (ref_condition ref))
        end
    end.
Proof.
  unfold Simple.ref_ok, Simple.word, formatTypeRef. intros H.
  apply andb_prop in H. destruct H as [Ht H].
  destruct (ref_wildcard ref); [apply parse_wildcard; exact Ht|].
  destruct (truthy (ref_relation ref)) as [x|];
    [apply parse_sub_relation; assumption|].
  destruct (truthy (ref_condition ref)) as [c|];
    [apply parse_with_condition; assumption|].
  apply parse_plain. exact Ht.
Qed.

Lemma parseTypeReference_formatTypeRef_witness :
  parseTypeReference
    (formatTypeRef (mkRelationReference "group" (Some ("member" : str)) None
                      (Some ("valid_time" : str))))
  = mkRelationReference "group" (Some ("member" : str)) None None.
Proof.
  apply (parseTypeReference_formatTypeRef
           (mkRelationReference "group" (Some ("member" : str)) None
              (Some ("valid_time" : str)))).
  reflexivity.
Defined.

End WrittenReferences.
